(** * Momentum-Research: survivorship-free panel and turnover-aware backtest

    A shallow embedding of the parts of the repository that build index
    membership, mask prices, form long/short weights and charge turnover:

    - [src/data/turnover.py]
    - [src/analysis_survivorship_free.py] (signals, gate, weights, gross)
    - [src/data/build_sp500_history.py]
    - [src/data/panel_from_membership.py]

    Numbers.  The code computes in IEEE doubles.  A float is the rational
    [Q] it holds and NaN is [None].  In [Frame], [Turnover], [Analysis]
    and [Backtest] the operations are exact, and what is stated over them
    does not turn on rounding: zeros, orderings, bounds with room to
    spare, and the formulas the code evaluates.  Where rounding decides,
    in the sum of the absolute weights, [Binary64] and [Turnover64] round
    every operation to the nearest double.

    Frames.  A pandas Series is a list of cells in column order and a
    DataFrame is a list of such rows in date order.  The frames
    [turnover.py] and [main] combine all derive from one masked price
    frame and carry the same dates and tickers, so a label is its
    position; where two rows differ in length the missing positions count
    as absent labels.  The price and membership frames of
    [panel_from_membership.py] keep their labels.

    Sets and dictionaries are stdpp's [gset] and [gmap]; a call that can
    raise returns the exception or the value. *)

From Stdlib Require Import QArith Qabs Qround Qpower Lqa Lia ZArith List String Ascii Sorting Floats.
From stdpp Require Import base option list gmap strings sorting.

Local Open Scope Q_scope.

(** ** pandas cells, rows and frames *)

Module Frame.

Abbreviation cell := (option Q).
Abbreviation row := (list cell).
Abbreviation panel := (list row).

(** A Series that has kept only part of its labels ([dropna]); labels are
    column positions. *)
Abbreviation series := (list (nat * cell)).

Definition nan : cell := None.

(** [x.fillna(v)] on one cell. *)
Definition fillna (v : Q) (c : cell) : Q :=
  match c with Some x => x | None => v end.

(** [x.replace(0, np.nan)] on one cell. *)
Definition replace0 (c : cell) : cell :=
  match c with
  | Some x => if Qeq_bool x 0 then None else Some x
  | None => None
  end.

(** [x > 0] on one cell: a comparison with NaN is false. *)
Definition gt0 (c : cell) : bool :=
  match c with Some x => negb (Qle_bool x 0) | None => false end.

(** [.astype(float)] / [.astype(int)] of a boolean. *)
Definition of_bool (b : bool) : cell := Some (if b then 1 else 0).

(** Elementwise float division, exact ([Turnover64.div_cell] rounds).
    Every divisor in the code has gone through [replace(0, nan)] or an
    explicit [denom == 0] test, so the code never divides by zero; a zero
    divisor gives no number here (0/0 is NaN). *)
Definition div_cell (a s : cell) : cell :=
  match a, s with
  | Some x, Some d => if Qeq_bool d 0 then None else Some (x / d)
  | _, _ => None
  end.

Definition neg_cell (a : cell) : cell := option_map Qopp a.
Definition abs_cell (a : cell) : cell := option_map Qabs a.

(** [a.add(b, fill_value=v)]: a value missing on one side only is taken as
    [v]; missing on both sides it stays missing. *)
Definition add_fill_cell (v : Q) (a b : cell) : cell :=
  match a, b with
  | Some x, Some y => Some (x + y)
  | Some x, None => Some (x + v)
  | None, Some y => Some (v + y)
  | None, None => None
  end.

(** [a - b]: NaN on either side gives NaN. *)
Definition sub_cell (a b : cell) : cell :=
  match a, b with
  | Some x, Some y => Some (x - y)
  | _, _ => None
  end.

(** [a * b]: NaN on either side gives NaN. *)
Definition mul_cell (a b : cell) : cell :=
  match a, b with
  | Some x, Some y => Some (x * y)
  | _, _ => None
  end.

(** Label alignment of two rows (outer join on positions): a position that
    one row lacks is a missing value on that side. *)
Fixpoint align {A : Type} (f : cell -> cell -> A) (a b : row) : list A :=
  match a with
  | [] => map (f None) b
  | x :: a' =>
    match b with
    | [] => f x None :: align f a' []
    | y :: b' => f x y :: align f a' b'
    end
  end.

(** The same alignment one level up, on the dates of two frames. *)
Fixpoint align_rows {A : Type} (f : row -> row -> A) (a b : panel) : list A :=
  match a with
  | [] => map (f []) b
  | x :: a' =>
    match b with
    | [] => f x [] :: align_rows f a' []
    | y :: b' => f x y :: align_rows f a' b'
    end
  end.

(** [row.sum()]: NaN is skipped, the empty sum is 0.  The sum is exact
    ([Turnover64.sum] rounds every addition). *)
Fixpoint sum (r : row) : Q :=
  match r with
  | [] => 0
  | Some x :: r' => x + sum r'
  | None :: r' => sum r'
  end.

(** [row.abs().sum()]. *)
Definition abs_sum (r : row) : Q := sum (map abs_cell r).

(** [row.div(s)] for the scalar [s] that [div(..., axis=0)] pairs with the
    row's date. *)
Definition div_row (r : row) (s : cell) : row :=
  map (fun c => div_cell c s) r.

(** [row.fillna(0.0)] as a row of cells. *)
Definition fillna_row (v : Q) (r : row) : row :=
  map (fun c => Some (fillna v c)) r.

(** [df.columns]: a frame built from rows has as many columns as its
    longest row. *)
Definition ncols (W : panel) : nat := foldr (fun r n => Nat.max (length r) n) 0%nat W.

(** A row as a labelled Series. *)
Definition labelled (r : row) : series := combine (seq 0 (length r)) r.

(** Value of a Series at a label. *)
Fixpoint loc (k : nat) (s : series) : option cell :=
  match s with
  | [] => None
  | (j, c) :: s' => if Nat.eqb j k then Some c else loc k s'
  end.

(** [s.reindex(columns)]: labels the Series lacks become NaN. *)
Definition reindex (n : nat) (s : series) : row :=
  map (fun k => match loc k s with Some c => c | None => None end) (seq 0 n).

End Frame.

(** ** [src/data/turnover.py] *)

Module Turnover.
Import Frame.

(** [normalize_weights], one date:
    [row_sum = W.abs().sum(axis=1).replace(0, np.nan)];
    [W.div(row_sum, axis=0).fillna(0.0)]. *)
Definition normalize_row (w : row) : row :=
  let row_sum := replace0 (Some (abs_sum w)) in
  fillna_row 0 (div_row w row_sum).

Definition normalize_weights (W : panel) : panel := map normalize_row W.

(** One leg of [equal_weight_long_short]:
    [L = (longs > 0).astype(float)];
    [L.div(L.sum(axis=1).replace(0, np.nan), axis=0).fillna(0.0)]. *)
Definition leg (ind : row) : row :=
  let L := map (fun c => of_bool (gt0 c)) ind in
  fillna_row 0 (div_row L (replace0 (Some (sum L)))).

(** [equal_weight_long_short], one date. *)
Definition equal_weight_row (longs shorts : row) : row :=
  let lw := leg longs in
  let sw := map neg_cell (leg shorts) in
  let W := align (add_fill_cell 0) lw sw in
  normalize_row W.

Definition equal_weight_long_short (longs shorts : panel) : panel :=
  align_rows equal_weight_row longs shorts.

(** [pd.concat([W_prev, rets_prev], axis=1, keys=["w", "r"])]: one line per
    label of either Series. *)
Definition concat_wr (W_prev rets_prev : row) : list (nat * (cell * cell)) :=
  let a := align pair W_prev rets_prev in
  combine (seq 0 (length a)) a.

(** [.dropna(how="all")]: a label is dropped when both values are NaN. *)
Definition dropna_all (a : list (nat * (cell * cell))) : list (nat * (cell * cell)) :=
  filter (fun x => is_Some (fst (snd x)) \/ is_Some (snd (snd x))) a.

(** [drift_weights].  [denom] is a sum of numbers, so the [pd.isna(denom)]
    half of the guard never holds. *)
Definition drift_weights (W_prev rets_prev : row) : series :=
  match W_prev with
  | [] => labelled W_prev
  | _ =>
    let aligned := dropna_all (concat_wr W_prev rets_prev) in
    match aligned with
    | [] => labelled W_prev
    | _ =>
      let w_post :=
        map (fun x => (fst x, fillna 0 (fst (snd x)) * (1 + fillna 0 (snd (snd x)))))
            aligned in
      let denom := sum (map (fun x => Some (Qabs (snd x))) w_post) in
      if Qeq_bool denom 0
      then map (fun x => (fst x, Some (snd x))) w_post
      else map (fun x => (fst x, Some (snd x / denom))) w_post
    end
  end.

(** The weights entering date [i] in [turnover_from_weights]:
    [w_pre = drift_weights(W_prev, rets_prev) if rets_prev is not None else W_prev],
    then [w_pre.reindex(W.columns).fillna(0.0)].  [None] is the
    [IndexError] of [rets.iloc[i - 1]] past the last row of [rets]. *)
Definition entering_weights (W : panel) (rets : option panel) (i : nat)
  : option (list Q) :=
  W_prev ← W !! (i - 1)%nat;
  w_pre ← match rets with
           | Some R => rets_prev ← R !! (i - 1)%nat; Some (drift_weights W_prev rets_prev)
           | None => Some (labelled W_prev)
           end;
  Some (map (fillna 0) (reindex (ncols W) w_pre)).

(** The new target at date [i]: [W.iloc[i].reindex(W.columns).fillna(0.0)]. *)
Definition target_weights (W : panel) (i : nat) : option (list Q) :=
  w ← W !! i;
  Some (map (fillna 0) (reindex (ncols W) (labelled w))).

(** [(w_t - w_pre).abs().sum()] on two rows over the same columns. *)
Fixpoint abs_diff_sum (a b : list Q) : Q :=
  match a, b with
  | x :: a', y :: b' => Qabs (x - y) + abs_diff_sum a' b'
  | _, _ => 0
  end.

(** One pass of the loop body of [turnover_from_weights]. *)
Definition turnover_at (W : panel) (rets : option panel) (i : nat) : option Q :=
  match i with
  | O => Some 0
  | S _ =>
    w_pre ← entering_weights W rets i;
    w_t ← target_weights W i;
    Some ((1 # 2) * abs_diff_sum w_t w_pre)
  end.

(** [turnover_from_weights]: one value per date of [W], or the exception. *)
Definition turnover_from_weights (W : panel) (rets : option panel)
  : option (list Q) :=
  mapM (turnover_at W rets) (seq 0 (length W)).

(** [apply_turnover_costs]: [gross - turnover * (cost_bps / 10000)]. *)
Definition apply_turnover_costs (gross turnover : row) (cost_bps : Q) : row :=
  let c := cost_bps / 10000 in
  align (fun g t => sub_cell g (mul_cell t (Some c))) gross turnover.

End Turnover.

(** ** Doubles *)

Module Binary64.
Import Frame.

(** [2^e] for an integer exponent of either sign. *)
Definition pow2 (e : Z) : Q := 2 ^ e.

(** The nearest integer, a tie going to the even one. *)
Definition round_half_even (y : Q) : Z :=
  let f := Qfloor y in
  match Qcompare (y - inject_Z f) (1 # 2) with
  | Lt => f
  | Gt => (f + 1)%Z
  | Eq => if Z.even f then f else (f + 1)%Z
  end.

(** The exponent of the leading bit of [x <> 0]: the [e] with
    [2^e <= |x| < 2^(e+1)].  The bit lengths of numerator and denominator
    give it up to one, the comparison settles it. *)
Definition exponent (x : Q) : Z :=
  let k := (Z.log2 (Z.abs (Qnum x)) - Z.log2 (Zpos (Qden x)))%Z in
  if Qle_bool (pow2 k) (Qabs x) then k else (k - 1)%Z.

(** The double nearest to [x], as IEEE 754 round-to-nearest-even gives the
    result of every [+], [-], [*] and [/] on doubles: [x] is scaled to a
    significand of 53 bits, the significand is rounded to an integer, and
    scaled back.  The exponent is left unbounded: overflow and the
    subnormal range, near 1e308 and 1e-308, are out of reach of weights
    and their sums. *)
Definition rnd (x : Q) : Q :=
  if Qeq_bool x 0 then 0
  else
    let e := (exponent x - 52)%Z in
    Qred (inject_Z (round_half_even (x * pow2 (- e))) * pow2 e).

(** Half a unit in the last place of 1, the relative error of one
    operation. *)
Definition u : Q := 1 # 9007199254740992.

(** The number a double of the kernel stands for; NaN and the infinities
    stand for none. *)
Definition of_float (f : float) : cell :=
  match Prim2SF f with
  | S754_zero _ => Some 0
  | S754_finite s m e => Some (Qred (inject_Z (if s then Z.neg m else Z.pos m) * pow2 e))
  | _ => None
  end.

End Binary64.

(** ** [src/data/turnover.py] in doubles

    [normalize_weights] and [equal_weight_long_short] with every float
    operation rounded as the machine rounds it.  A row is added up from
    the left, starting at [0.0]. *)

Module Turnover64.
Import Frame Binary64.

(** [a / s] on doubles; the divisors have gone through [replace(0, nan)]. *)
Definition div_cell (a s : cell) : cell :=
  match a, s with
  | Some x, Some d => if Qeq_bool d 0 then None else Some (rnd (x / d))
  | _, _ => None
  end.

(** [a.add(b, fill_value=v)] on doubles. *)
Definition add_fill_cell (v : Q) (a b : cell) : cell :=
  match a, b with
  | Some x, Some y => Some (rnd (x + y))
  | Some x, None => Some (rnd (x + v))
  | None, Some y => Some (rnd (v + y))
  | None, None => None
  end.

(** [row.sum()] on doubles: NaN is skipped, every addition rounds. *)
Fixpoint sum_acc (acc : Q) (r : row) : Q :=
  match r with
  | [] => acc
  | Some x :: r' => sum_acc (rnd (acc + x)) r'
  | None :: r' => sum_acc acc r'
  end.

Definition sum (r : row) : Q := sum_acc 0 r.

Definition div_row (r : row) (s : cell) : row :=
  map (fun c => div_cell c s) r.

(** [normalize_weights], one date:
    [row_sum = W.abs().sum(axis=1).replace(0, np.nan)];
    [W.div(row_sum, axis=0).fillna(0.0)]. *)
Definition normalize_row (w : row) : row :=
  let row_sum := replace0 (Some (sum (map abs_cell w))) in
  fillna_row 0 (div_row w row_sum).

Definition normalize_weights (W : panel) : panel := map normalize_row W.

(** One leg of [equal_weight_long_short]:
    [L = (longs > 0).astype(float)];
    [L.div(L.sum(axis=1).replace(0, np.nan), axis=0).fillna(0.0)]. *)
Definition leg (ind : row) : row :=
  let L := map (fun c => of_bool (gt0 c)) ind in
  fillna_row 0 (div_row L (replace0 (Some (sum L)))).

(** [equal_weight_long_short], one date. *)
Definition equal_weight_row (longs shorts : row) : row :=
  let lw := leg longs in
  let sw := map neg_cell (leg shorts) in
  let W := align (add_fill_cell 0) lw sw in
  normalize_row W.

Definition equal_weight_long_short (longs shorts : panel) : panel :=
  align_rows equal_weight_row longs shorts.

(** Three names long and three other names short on one date. *)
Definition three_longs : panel := [[Some 1; Some 1; Some 1; Some 0; Some 0; Some 0]].

Definition three_shorts : panel := [[Some 0; Some 0; Some 0; Some 1; Some 1; Some 1]].

(** 0.16666666666666669, the double next above the one nearest to 1/6. *)
Definition sixth_up : Q := 3002399751580331 # 18014398509481984.

(** The same date on the doubles of the kernel: the leg weight [1.0 / 3.0],
    the six of them added up from [0.0], and one weight. *)
Definition kernel_third : float := PrimFloat.div 1%float 3%float.

Definition kernel_row_sum : float :=
  fold_left PrimFloat.add (replicate 6 kernel_third) 0%float.

Definition kernel_weight : float := PrimFloat.div kernel_third kernel_row_sum.

(** Two names long and three other names short on one date. *)
Definition two_longs : panel := [[Some 1; Some 1; Some 0; Some 0; Some 0]].

Definition other_three_shorts : panel := [[Some 0; Some 0; Some 1; Some 1; Some 1]].

(** A row of weights that do not sum to 1, one of them missing: 0.375,
    NaN, -0.25 and 0.5. *)
Definition row_raw : row := [Some (3 # 8); None; Some (- (1 # 4)); Some (1 # 2)].

(** A frame of that row and a row of zeros. *)
Definition W_raw : panel := [row_raw; [Some 0; None; Some 0; Some 0]].

End Turnover64.

(** ** [src/analysis_survivorship_free.py]: signals, gate, weights, gross *)

Module Analysis.
Import Frame.

(** [ranks >= q] and [ranks <= q] on one cell: false on NaN. *)
Definition ge_cell (c : cell) (q : Q) : bool :=
  match c with Some x => Qle_bool q x | None => false end.

Definition le_cell (c : cell) (q : Q) : bool :=
  match c with Some x => Qle_bool x q | None => false end.

(** [build_signals]:
    [longs = (ranks >= long_q).astype(int)],
    [shorts = (ranks <= short_q).astype(int)]. *)
Definition build_signals (ranks : panel) (long_q short_q : Q) : panel * panel :=
  (map (map (fun c => of_bool (ge_cell c long_q))) ranks,
   map (map (fun c => of_bool (le_cell c short_q))) ranks).

Definition default_long_q : Q := 9 # 10.
Definition default_short_q : Q := 1 # 10.

(** [min_names = 20] in [main]. *)
Definition min_names : Q := 20.

(** [valid = (longs.sum(axis=1) >= min_names) & (shorts.sum(axis=1) >= min_names)]. *)
Definition valid_dates (m : Q) (longs shorts : panel) : list bool :=
  align_rows (fun l s => Qle_bool m (sum l) && Qle_bool m (sum s)) longs shorts.

(** [P.where(cond, other)] with a per-date condition: the rows of the dates
    where the condition is false are replaced by [other]. *)
Fixpoint where_rows (P : panel) (cond : list bool) (other : Q) : panel :=
  match P with
  | [] => []
  | r :: P' =>
    (if hd false cond then r else map (fun _ => Some other) r)
      :: where_rows P' (tl cond) other
  end.

(** The gate of [main]:
    [longs = longs.where(valid, 0)], [shorts = shorts.where(valid, 0)]. *)
Definition gate (m : Q) (longs shorts : panel) : panel * panel :=
  let valid := valid_dates m longs shorts in
  (where_rows longs valid 0, where_rows shorts valid 0).

(** [W = equal_weight_long_short(longs, shorts)] on the gated signals. *)
Definition weights (m : Q) (longs shorts : panel) : panel :=
  let g := gate m longs shorts in
  Turnover.equal_weight_long_short (fst g) (snd g).

(** [gross = (W * rets).sum(axis=1)]. *)
Definition gross (W rets : panel) : list Q :=
  map sum (align_rows (align mul_cell) W rets).

End Analysis.

(** ** Python exceptions *)

Module Py.

Inductive exn : Type :=
| RuntimeError (msg : string)
| AttributeError (msg : string).

(** The outcome of a call: the exception raised or the value returned. *)
Definition result (A : Type) : Type := (exn + A)%type.

Definition raise {A : Type} (e : exn) : result A := inl e.

Definition bind {A B : Type} (r : result A) (k : A -> result B) : result B :=
  match r with
  | inl e => inl e
  | inr x => k x
  end.

Notation "'call' x ':=' r 'in' k" := (bind r (fun x => k))
  (at level 10, x name, r at level 100, k at level 200).

End Py.

(** ** Python [str] and [re] on ASCII text *)

Module Text.
Local Open Scope char_scope.

Definition code (c : ascii) : nat := nat_of_ascii c.

Definition between (lo hi : nat) (c : ascii) : bool :=
  Nat.leb lo (code c) && Nat.leb (code c) hi.

(** [str.isspace] and the class [\s]: tab to carriage return, the four
    separators 0x1c-0x1f, and the space. *)
Definition is_space (c : ascii) : bool :=
  between 9 13 c || between 28 31 c || Nat.eqb (code c) 32.

Definition is_upper (c : ascii) : bool := between 65 90 c.
Definition is_lower (c : ascii) : bool := between 97 122 c.
Definition is_digit (c : ascii) : bool := between 48 57 c.

(** The class [[A-Za-z0-9\.\-]]. *)
Definition is_tick (c : ascii) : bool :=
  is_upper c || is_lower c || is_digit c || Ascii.eqb c "." || Ascii.eqb c "-".

Definition lower_char (c : ascii) : ascii :=
  if is_upper c then ascii_of_nat (code c + 32) else c.

Definition upper_char (c : ascii) : ascii :=
  if is_lower c then ascii_of_nat (code c - 32) else c.

Definition chars (s : string) : list ascii := list_ascii_of_string s.
Definition text (l : list ascii) : string := string_of_list_ascii l.

(** [s.lower()], [s.upper()]. *)
Definition lower (s : string) : string := text (map lower_char (chars s)).
Definition upper (s : string) : string := text (map upper_char (chars s)).

Fixpoint lstrip_chars (l : list ascii) : list ascii :=
  match l with
  | c :: l' => if is_space c then lstrip_chars l' else l
  | [] => []
  end.

Definition strip_chars (l : list ascii) : list ascii :=
  rev (lstrip_chars (rev (lstrip_chars l))).

(** [s.strip()]. *)
Definition strip (s : string) : string := text (strip_chars (chars s)).

(** [s.replace(" ", "")]. *)
Definition remove_spaces (s : string) : string :=
  text (List.filter (fun c => negb (Ascii.eqb c " ")) (chars s)).

(** [sub in s]. *)
Fixpoint contains (sub s : string) : bool :=
  String.prefix sub s ||
  match s with
  | EmptyString => false
  | String _ s' => contains sub s'
  end.

(** Longest prefix of characters in a class, and what follows it. *)
Fixpoint span (p : ascii -> bool) (l : list ascii) : list ascii * list ascii :=
  match l with
  | c :: l' => if p c then let r := span p l' in (c :: fst r, snd r) else ([], l)
  | [] => ([], [])
  end.

(** Literal prefix. *)
Fixpoint starts_with (lit l : list ascii) : bool :=
  match lit, l with
  | [], _ => true
  | a :: lit', c :: l' => Ascii.eqb a c && starts_with lit' l'
  | _ :: _, [] => false
  end.

(** Literal prefix, ignoring case ([re.I]). *)
Fixpoint prefix_ci (lit l : list ascii) : bool :=
  match lit, l with
  | [], _ => true
  | a :: lit', c :: l' => Ascii.eqb (lower_char a) (lower_char c) && prefix_ci lit' l'
  | _ :: _, [] => false
  end.

(** [re.split(r"[,/]| and ", s)]; [skip] counts the characters of a
    matched [" and "] still to pass over. *)
Fixpoint split_go (l cur : list ascii) (skip : nat) : list (list ascii) :=
  match l with
  | [] => [rev cur]
  | c :: l' =>
    match skip with
    | S k => split_go l' cur k
    | O =>
      if Ascii.eqb c "," || Ascii.eqb c "/" then rev cur :: split_go l' [] 0
      else if starts_with (chars " and ") l then rev cur :: split_go l' [] 4
      else split_go l' (c :: cur) 0
    end
  end.

Definition split_parts (s : string) : list string :=
  map text (split_go (chars s) [] 0).

(** [re.search(r"\(([A-Za-z0-9\.\-]+)\)", p)], group 1. *)
Fixpoint search_paren (l : list ascii) : option (list ascii) :=
  match l with
  | [] => None
  | c :: l' =>
    if Ascii.eqb c "(" then
      match fst (span is_tick l'), snd (span is_tick l') with
      | (_ :: _) as run, ")" :: _ => Some run
      | _, _ => search_paren l'
      end
    else search_paren l'
  end.

(** One attempt of
    [([A-Za-z0-9\.\-]+)\s+replac(?:e|es|ing)\s+([A-Za-z0-9\.\-]+)]
    at the head of [l]. *)
Definition tail_after (alt : string) (l : list ascii) : option (list ascii) :=
  if prefix_ci (chars alt) l then
    let ws := span is_space (skipn (String.length alt) l) in
    match fst ws, fst (span is_tick (snd ws)) with
    | _ :: _, (_ :: _) as g2 => Some g2
    | _, _ => None
    end
  else None.

Definition match_replaces (l : list ascii) : option (list ascii * list ascii) :=
  let w := span is_tick l in
  let ws := span is_space (snd w) in
  match fst w, fst ws with
  | (_ :: _) as g1, _ :: _ =>
    if prefix_ci (chars "replac") (snd ws) then
      let r := skipn 6 (snd ws) in
      match tail_after "e" r, tail_after "es" r, tail_after "ing" r with
      | Some g2, _, _ => Some (g1, g2)
      | None, Some g2, _ => Some (g1, g2)
      | None, None, Some g2 => Some (g1, g2)
      | None, None, None => None
      end
    else None
  | _, _ => None
  end.

(** [re.search] of that pattern with [re.I]: the leftmost position where
    an attempt succeeds. *)
Fixpoint search_replaces (l : list ascii) : option (list ascii * list ascii) :=
  match l with
  | [] => None
  | _ :: l' =>
    match match_replaces l with
    | Some r => Some r
    | None => search_replaces l'
    end
  end.

(** [re.sub(r"\.(?=[A-Z0-9]+$)", "-", t)]. *)
Fixpoint dot_to_dash (l : list ascii) : list ascii :=
  match l with
  | [] => []
  | c :: l' =>
    (if Ascii.eqb c "."
        && negb (Nat.eqb (length l') 0)
        && forallb (fun d => is_upper d || is_digit d) l'
     then "-" else c) :: dot_to_dash l'
  end.

End Text.

(** ** [src/data/build_sp500_history.py] *)

Module History.
Import Py Text.
Local Open Scope string_scope.
Local Open Scope Z_scope.

(** A [pd.Timestamp] is its count of nanoseconds since 1970-01-01. *)
Definition day_ns : Z := 86400000000000.

(** [t.normalize()]: midnight of the same day. *)
Definition normalize (t : Z) : Z := t - t mod day_ns.

(** [pd.Timestamp("1990-01-01")]. *)
Definition epoch_1990 : Z := 7305 * day_ns.

Definition YF_TICKER_FIX : list (string * string) :=
  [("BRK.B", "BRK-B"); ("BF.B", "BF-B")].

Fixpoint dict_get {A : Type} (k : string) (d : list (string * A)) : option A :=
  match d with
  | [] => None
  | (k', v) :: d' => if String.eqb k' k then Some v else dict_get k d'
  end.

(** [normalize_ticker] on a string (the NaN test of its first line is for
    cells of the constituents table). *)
Definition normalize_ticker (t : string) : string :=
  let t := upper (strip t) in
  let t := remove_spaces t in
  match dict_get t YF_TICKER_FIX with
  | Some fixed => fixed
  | None => text (dot_to_dash (chars t))
  end.

(** [ChangeEvent]; its [raw] field, a copy of the row, is never read. *)
Record ChangeEvent : Type := mkEvent {
  date : Z;
  added : list string;
  removed : list string
}.

(** A table of [pd.read_html]: its column labels and its rows of cells,
    [None] a NaN cell. *)
Record Table : Type := mkTable {
  columns : list string;
  body : list (list (option string))
}.

(** A row of the frame [_extract_changes_table] returns: its [Date] has
    passed [dropna(subset=["Date"])]; a column the frame lacks reads as NaN. *)
Record ChangeRow : Type := mkRow {
  Date : Z;
  Added : option string;
  Removed : option string;
  Reason : option string;
  Ticker : option string;
  Company : option string
}.

Definition changeish : list string :=
  ["added"; "removed"; "company"; "ticker"; "reason"; "change"; "action"; "notes"].

(** [has_date and has_changeish]. *)
Definition is_candidate (t : Table) : bool :=
  let cols_lower := map (fun c => lower (strip c)) (columns t) in
  existsb (contains "date") cols_lower
  && existsb (fun c => existsb (fun k => contains k c) changeish) cols_lower.

(** The [target] chosen for a column label. *)
Definition target_of (c : string) : option string :=
  let lc := lower c in
  if contains "date" lc then Some "Date"
  else if contains "added" lc then Some "Added"
  else if contains "removed" lc then Some "Removed"
  else if contains "reason" lc || contains "notes" lc
          || contains "change" lc || contains "action" lc then Some "Reason"
  else if contains "symbol" lc || contains "ticker" lc then Some "Ticker"
  else if contains "company" lc then Some "Company"
  else None.

(** The loop that fills [std] and [taken]. *)
Fixpoint standardize (cols : list string) (std : list (string * string))
    (taken : list string) : list (string * string) :=
  match cols with
  | [] => std
  | c :: cols' =>
    match target_of c with
    | Some t =>
      if existsb (String.eqb t) taken then standardize cols' std taken
      else standardize cols' ((c, t) :: std) (t :: taken)
    | None => standardize cols' std taken
    end
  end.

(** [df.rename(columns=std)]: the labels after renaming. *)
Definition renamed (cols : list string) : list string :=
  let std := standardize cols [] [] in
  map (fun c => match dict_get c std with Some t => t | None => c end) cols.

(** Position of the first column with a label; later duplicates are the
    ones [~df.columns.duplicated()] drops. *)
Fixpoint column_index (labels : list string) (x : string) : option nat :=
  match labels with
  | [] => None
  | l :: labels' =>
    if String.eqb l x then Some O else option_map S (column_index labels' x)
  end.

Definition cell_of (labels : list string) (r : list (option string)) (x : string)
  : option string :=
  match column_index labels x with
  | Some i => match nth_error r i with Some c => c | None => None end
  | None => None
  end.

(** Stable insertion sort on a date key ([list.sort(key=...)]). *)
Fixpoint insert_by {A : Type} (key : A -> Z) (x : A) (l : list A) : list A :=
  match l with
  | [] => [x]
  | y :: l' => if key x <=? key y then x :: l else y :: insert_by key x l'
  end.

Definition sort_by {A : Type} (key : A -> Z) (l : list A) : list A :=
  fold_right (insert_by key) [] l.

Section Extract.
(** [pd.to_datetime(s, errors="raise")]: the timestamp, or [None] when it
    raises or answers NaT. *)
Variable to_datetime : string -> option Z.

(** [parse_date]: both attempts make the same call, so the second one
    fails whenever the first did.  A timestamp is an integer without the
    bounds of int64: [normalize] never overflows here, as it would just
    above [pd.Timestamp.min], in 1677. *)
Definition parse_date (c : option string) : option Z :=
  let s := strip (match c with Some s => s | None => "nan" end) in
  option_map normalize (to_datetime s).

(** The rows one candidate table contributes: none without a [Date]
    column, else those whose date parses. *)
Definition frame_of (t : Table) : list ChangeRow :=
  let labels := renamed (map strip (columns t)) in
  match column_index labels "Date" with
  | None => []
  | Some _ =>
    flat_map (fun r =>
      match parse_date (cell_of labels r "Date") with
      | Some d =>
        [ {| Date := d;
             Added := cell_of labels r "Added";
             Removed := cell_of labels r "Removed";
             Reason := cell_of labels r "Reason";
             Ticker := cell_of labels r "Ticker";
             Company := cell_of labels r "Company" |} ]
      | None => []
      end) (body t)
  end.

(** [_extract_changes_table], from the tables read off the page.  The
    frames are those of the candidates that keep a row;
    [sort_values("Date")] leaves the order of the rows of one date to
    numpy's quicksort; it is taken stable here, and what is stated of the
    rows holds in any such order. *)
Definition _extract_changes_table (all_tables : list Table)
  : result (list ChangeRow) :=
  let cand := List.filter is_candidate all_tables in
  match cand with
  | [] => raise (RuntimeError "Failed to extract changes table")
  | _ =>
    let frames := List.filter (fun f => negb (Nat.eqb (length f) 0)) (map frame_of cand) in
    match frames with
    | [] => raise (RuntimeError "Failed to extract changes table")
    | _ => inr (sort_by Date (concat frames))
    end
  end.
End Extract.

(** One bucket of [_parse_added_removed]. *)
Definition bucket (cell : option string) : list string :=
  match cell with
  | None => []
  | Some v =>
    flat_map (fun p =>
      let p := strip p in
      if String.eqb p "" then []
      else match search_paren (chars p) with
           | Some m => [normalize_ticker (text m)]
           | None => [normalize_ticker p]
           end) (split_parts (strip v))
  end.

Definition truthy (l : list string) : list string :=
  List.filter (fun a => negb (String.eqb a "")) l.

(** [_parse_added_removed]. *)
Definition _parse_added_removed (row : ChangeRow) : ChangeEvent :=
  let added := bucket (Added row) in
  let removed := bucket (Removed row) in
  let fallback :=
    match added, removed, Reason row with
    | [], [], Some txt =>
      match search_replaces (chars txt) with
      | Some (a, r) => Some ([normalize_ticker (text a)], [normalize_ticker (text r)])
      | None => None
      end
    | _, _, _ => None
    end in
  let ar := match fallback with Some ar => ar | None => (added, removed) end in
  {| date := Date row; added := truthy (fst ar); removed := truthy (snd ar) |}.

(** The events [build_membership_timeline] keeps: rows that name a ticker,
    dated 1990 or later, in date order ([list.sort] is stable). *)
Definition events_of (changes : list ChangeRow) : list ChangeEvent :=
  let events :=
    List.filter (fun ev => negb (Nat.eqb (length (added ev)) 0 && Nat.eqb (length (removed ev)) 0))
                (map _parse_added_removed changes) in
  let events := List.filter (fun e => epoch_1990 <=? date e) events in
  sort_by date events.

(** Undoing one event in the roll-back loop. *)
Definition undo (memb : gset string) (e : ChangeEvent) : gset string :=
  let memb := fold_left (fun m a => m ∖ {[a]}) (added e) memb in
  fold_left (fun m r => if String.eqb r "" then m else m ∪ {[r]}) (removed e) memb.

(** Applying one event in the roll-forward loop. *)
Definition redo (members : gset string) (e : ChangeEvent) : gset string :=
  let members := fold_left (fun m r => m ∖ {[r]}) (removed e) members in
  fold_left (fun m a => if String.eqb a "" then m else m ∪ {[a]}) (added e) members.

(** Membership as of [start]: every event after [start] undone, latest first. *)
Definition roll_back (events : list ChangeEvent) (start : Z) (current_set : gset string)
  : gset string :=
  let backward := rev (List.filter (fun e => start <? date e) events) in
  fold_left undo backward current_set.

(** The dictionary [by_date]. *)
Definition group_by_date (events : list ChangeEvent) (start end_ : Z)
  : gmap Z (list ChangeEvent) :=
  fold_left (fun (by_date : gmap Z (list ChangeEvent)) e =>
    if (start <=? date e) && (date e <=? end_)
    then <[normalize (date e) :=
             (default [] (by_date !! normalize (date e)) ++ [e])%list]> by_date
    else by_date) events ∅.

(** [pd.date_range(start=s, end=e, freq="D")] for two midnights. *)
Definition date_range (s e : Z) : list Z :=
  if s <=? e
  then map (fun i => s + Z.of_nat i * day_ns) (seq 0 (Z.to_nat ((e - s) / day_ns) + 1))
  else [].

(** The day loop: the members after each day's events. *)
Fixpoint roll_forward (by_date : gmap Z (list ChangeEvent)) (days : list Z)
    (current_members : gset string) : list (Z * gset string) :=
  match days with
  | [] => []
  | d :: days' =>
    let members :=
      match by_date !! d with
      | Some evs => fold_left redo evs current_members
      | None => current_members
      end in
    (d, members) :: roll_forward by_date days' members
  end.

(** The rows [(d, t, 1)] of the frame [daily]; the order inside one day is
    the iteration order of a Python set. *)
Definition daily_rows (snapshots : list (Z * gset string)) : list (Z * string * Z) :=
  flat_map (fun s => map (fun t => (fst s, t, 1)) (elements (snd s))) snapshots.

(** The body of [build_membership_timeline] once the events are in hand:
    roll back from the current set, then forward day by day. *)
Definition timeline (events : list ChangeEvent) (current_set : gset string)
    (start end_ : Z) : list (Z * string * Z) :=
  let memb := roll_back events start current_set in
  let by_date := group_by_date events start end_ in
  let days := date_range (normalize start) (normalize end_) in
  daily_rows (roll_forward by_date days memb).

(** [build_membership_timeline], from the outcomes of its two page reads:
    the [Symbol] column of [_extract_current_constituents()] and the frame
    of [_extract_changes_table()].  The rows of that frame all carry a
    date, so the [pd.isna(ev.date)] test of the loop never fires; [today]
    is computed and not used. *)
Definition build_membership_timeline
    (current : result (list string)) (changes : result (list ChangeRow))
    (start end_ : Z) : result (list (Z * string * Z)) :=
  call current := current in
  call changes := changes in
  inr (timeline (events_of changes) (list_to_set current) start end_).

(** The tickers [daily] lists for day [d]. *)
Definition members_on (daily : list (Z * string * Z)) (d : Z) : gset string :=
  list_to_set (map (fun r => snd (fst r)) (List.filter (fun r => fst (fst r) =? d) daily)).

End History.

(** ** [src/data/panel_from_membership.py] *)

Module Masking.
Import Frame Py.
Local Open Scope string_scope.

(** The wide price frame: its dates, its tickers and its rows of cells. *)
Record PriceFrame : Type := mkFrame {
  index : list Z;
  columns : list string;
  values : list (list (option Q))
}.

(** One line of the long membership frame ([date], [ticker], [in_index]). *)
Record MemberRow : Type := mkMember {
  date : Z;
  ticker : string;
  in_index : option Q
}.

(** [sorted(...)] on strings. *)
Fixpoint insert_sorted (x : string) (l : list string) : list string :=
  match l with
  | [] => [x]
  | y :: l' => if String.leb x y then x :: l else y :: insert_sorted x l'
  end.

Definition sorted (l : list string) : list string := fold_right insert_sorted [] l.

(** [aggfunc="max"] over the values of one group, NaN skipped. *)
Definition max_cell (a b : option Q) : option Q :=
  match a, b with
  | Some x, Some y => Some (if Qle_bool x y then y else x)
  | Some x, None => Some x
  | None, b => b
  end.

(** The cell of [membership.pivot_table(index="date", columns="ticker",
    values="in_index", aggfunc="max")] for a date and a ticker; NaN when
    the table has no such cell. *)
Definition pivot_cell (membership : list MemberRow) (d : Z) (k : string) : option Q :=
  fold_right max_cell None
    (map in_index
         (List.filter (fun r => Z.eqb (date r) d && String.eqb (ticker r) k) membership)).

(** The columns of the pivot table: the tickers with a value, each once. *)
Definition pivot_columns (membership : list MemberRow) : gset string :=
  list_to_set (map ticker (List.filter (fun r => match in_index r with Some _ => true | None => false end)
                                       membership)).

(** [mask = pivot.reindex(prices.index).fillna(0.0)] at a date and a ticker. *)
Definition mask_at (membership : list MemberRow) (d : Z) (k : string) : Q :=
  fillna 0 (pivot_cell membership d k).

(** The methods a Python [set] has that take one other set and return a
    set; any other name is an [AttributeError]. *)
Definition set_method (name : string)
  : option (gset string -> gset string -> gset string) :=
  if String.eqb name "intersection" then Some (fun a b => a ∩ b)
  else if String.eqb name "union" then Some (fun a b => a ∪ b)
  else if String.eqb name "difference" then Some (fun a b => a ∖ b)
  else if String.eqb name "symmetric_difference" then Some (fun a b => (a ∖ b) ∪ (b ∖ a))
  else None.

(** Position of a label among the columns. *)
Fixpoint position (k : string) (cols : list string) : option nat :=
  match cols with
  | [] => None
  | c :: cols' => if String.eqb c k then Some O else option_map S (position k cols')
  end.

(** [P.where(M > 0.5, np.nan)] on one cell. *)
Definition where_member (m : Q) (p : option Q) : option Q :=
  if Qle_bool m (1 # 2) then None else p.

(** The last three statements, for a list [common] of tickers:
    [P = prices[common].copy()], [M = mask[common].astype(float)],
    [P = P.where(M > 0.5, np.nan)]. *)
Definition masked_frame (prices : PriceFrame) (membership : list MemberRow)
    (common : list string) : PriceFrame :=
  {| index := index prices;
     columns := common;
     values :=
       map (fun dr =>
              map (fun k =>
                     let p := match position k (columns prices) with
                              | Some j => match nth_error (snd dr) j with
                                          | Some c => c
                                          | None => None
                                          end
                              | None => None
                              end in
                     where_member (mask_at membership (fst dr) k) p)
                  common)
           (combine (index prices) (values prices)) |}.

(** [prices_masked_by_membership].  The name looked up on the set of price
    columns is [intersections]. *)
Definition prices_masked_by_membership (prices : PriceFrame)
    (membership : list MemberRow) : result PriceFrame :=
  match set_method "intersections" with
  | None => raise (AttributeError "'set' object has no attribute 'intersections'")
  | Some method =>
    let common :=
      sorted (elements (method (list_to_set (columns prices)) (pivot_columns membership))) in
    inr (masked_frame prices membership common)
  end.

End Masking.

(** * The words of the statements

    Notions the theorems are phrased with.  None of them is code of the
    repository: each one reads a phrase of the specification over the
    frames and sets above. *)

Module Reading.
Import Frame Turnover Analysis.

(** [P.iat[t, k]]. *)
Definition iat (P : panel) (t k : nat) : option cell := r ← P !! t; r !! k.

(** The number a row holds for ticker [k]; a missing value or a ticker the
    row lacks counts as [0]. *)
Definition val (r : row) (k : nat) : Q :=
  match r !! k with Some (Some x) => x | _ => 0 end.

(** [f k + f (k+1) + ... ] over [n] consecutive tickers. *)
Fixpoint sum_from (k n : nat) (f : nat -> Q) : Q :=
  match n with
  | O => 0
  | S n' => f k + sum_from (S k) n' f
  end.

(** Sum of [f] over the tickers [0 .. n-1]. *)
Definition sum_over (n : nat) (f : nat -> Q) : Q := sum_from 0 n f.

(** The row a frame holds for date [t]; a date the frame lacks has no
    value for any ticker. *)
Definition row_at (P : panel) (t : nat) : row := default [] (P !! t).

(** Some weight of the row is not zero. *)
Definition traded (w : row) : bool :=
  existsb (fun c => negb (Qeq_bool (fillna 0 c) 0)) w.

(** A ticker flagged on both sides of one date. *)
Definition overlap (longs shorts : row) : bool :=
  existsb id (align (fun a b => gt0 a && gt0 b) longs shorts).

(** One ticker's term of the weighted return: weight times return, nothing
    when either is missing. *)
Definition weighted_return (w r : row) (k : nat) : Q :=
  match w !! k, r !! k with
  | Some (Some x), Some (Some y) => x * y
  | _, _ => 0
  end.

(** Post-drift weight of ticker [k]: the weight set at the previous date
    compounded by the ticker's realized return at that date. *)
Definition post_drift (w r : row) (k : nat) : Q := val w k * (1 + val r k).

(** Total absolute post-drift weight over the [n] tickers of the frame. *)
Definition total_abs_post (n : nat) (w r : row) : Q :=
  sum_over n (fun k => Qabs (post_drift w r k)).

(** The drifted weight as the code leaves it: renormalized when the total
    is not zero, the post-drift weight itself (all zero) otherwise. *)
Definition drifted (n : nat) (w r : row) (k : nat) : Q :=
  let D := total_abs_post n w r in
  if Qeq_bool D 0 then post_drift w r k else post_drift w r k / D.

(** The drifted weight as the sentence words it: post-drift weight divided
    by the total, a float division (0/0 is NaN). *)
Definition drift_as_stated (n : nat) (w r : row) (k : nat) : cell :=
  div_cell (Some (post_drift w r k)) (Some (total_abs_post n w r)).

(** Auxiliary notions of the proofs. *)

Definition flags (ind : row) : row := map (fun c => of_bool (gt0 c)) ind.

Definition leg_rel (c w : cell) : Prop :=
  exists x, w = Some x /\ 0 <= x /\ (gt0 c = true <-> ~ x == 0).

Definition cell_at (r : row) (k : nat) : cell :=
  match r !! k with Some c => c | None => None end.

Definition keep (x : nat * (cell * cell)) : Prop :=
  is_Some (fst (snd x)) \/ is_Some (snd (snd x)).

Definition post' (x : nat * (cell * cell)) : Q :=
  fillna 0 (fst (snd x)) * (1 + fillna 0 (snd (snd x))).

(** The value [reindex] then [fillna(0.0)] leaves at label [k]. *)
Definition filled (s : series) (k : nat) : Q :=
  fillna 0 (match loc k s with Some c => c | None => None end).

(** Small frames the statements are tried on. *)

Definition W_ex : panel := [[Some (1 # 2); Some (- (1 # 2))]; [Some (1 # 2); Some (- (1 # 2))]].

Definition R_ex : panel := [[Some (1 # 2); Some 0]; [Some 0; Some 0]].

Definition to_ex : list Q :=
  Eval vm_compute in default [] (turnover_from_weights W_ex (Some R_ex)).

Definition W_flat : panel := [[Some 0; Some 0]; [Some (1 # 2); Some (- (1 # 2))]].

Definition R_flat : panel := [[Some (1 # 10); Some (- (1 # 10))]; [Some 0; Some 0]].

Definition longs_ex : panel := [[Some 1; Some 0; Some 0]].

Definition shorts_ex : panel := [[Some 0; Some 0; Some 1]].

Definition ranks_ex : panel := [[Some (19 # 20); None; Some (1 # 20)]].

End Reading.

Module HistoryReading.
Import Py Text History.
Local Open Scope string_scope.
Local Open Scope Z_scope.

(** An event agrees with the membership [M] it produced: the tickers it
    added are named and are members, the ones it removed are not members
    unless it also added them. *)
Definition consistent (e : ChangeEvent) (M : gset string) : Prop :=
  ("" ∉ added e) /\
  (forall a, a ∈ added e -> a ∈ M) /\
  (forall r, r ∈ removed e -> r ∈ M -> r ∈ added e).

(** Every event of a history, latest first, agrees with the membership
    reached by undoing the later ones from [M]. *)
Fixpoint history_consistent (latest_first : list ChangeEvent) (M : gset string) : Prop :=
  match latest_first with
  | [] => True
  | e :: earlier => consistent e M /\ history_consistent earlier (undo M e)
  end.

(** Events in date order. *)
Definition chronological (events : list ChangeEvent) : Prop :=
  StronglySorted (fun a b => date a <= date b) events.

(** The day a timestamp falls on, counted from 1970-01-01. *)
Definition day_index (t : Z) : Z := t / day_ns.

(** Membership after the events of the days before day [q], replayed on
    the rolled-back set. *)
Definition replay_until (events : list ChangeEvent) (start : Z)
    (current : gset string) (q : Z) : gset string :=
  fold_left redo
    (List.filter (fun e => day_index (date e) <? q)
                 (List.filter (fun e => start <=? date e) events))
    (roll_back events start current).

(** No table of the page is a candidate that keeps a row with a date. *)
Definition no_dated_row (to_datetime : string -> option Z) (tables : list Table) : Prop :=
  Forall (fun t => is_candidate t = true -> frame_of to_datetime t = []) tables.

(** 2020-01-01, 2020-01-02 and 2020-01-03. *)
Definition jan1 : Z := 18262 * day_ns.

Definition jan2 : Z := 18263 * day_ns.

Definition jan3 : Z := 18264 * day_ns.

(** One swap on 2020-01-02: B in, C out. *)
Definition swap_ex : ChangeEvent :=
  {| date := jan2; added := ["B"]; removed := ["C"] |}.

End HistoryReading.

(** * Further code of the repository

    The ranks, the winsorizing and the drawdown of
    [src/analysis_survivorship_free.py], the monthly panel of
    [src/data/build_sp500_history.py], and the notions the statements
    about them are phrased with. *)

(** ** [src/analysis_survivorship_free.py]: ranks, winsorizing and
    drawdown *)

Module Backtest.
Import Frame.

(** The numbers of a row, NaN dropped. *)
Definition values (r : row) : list Q := omap id r.

(** [row.notna().sum()], [row.count()]. *)
Definition count (r : row) : nat := length (values r).

Definition of_nat (n : nat) : Q := inject_Z (Z.of_nat n).

(** *** [compute_momentum_ranks] *)

Definition count_lt (x : Q) (l : list Q) : nat :=
  length (List.filter (fun y => negb (Qle_bool x y)) l).

Definition count_eq (x : Q) (l : list Q) : nat :=
  length (List.filter (fun y => Qeq_bool y x) l).

(** [rank(axis=1, pct=True, na_option="keep")] on one row, with the
    default [method="average"]: a value's rank is the mean of the
    positions its ties take among the sorted values, over the number of
    values; NaN keeps NaN. *)
Definition rank_cell (r : row) (c : cell) : cell :=
  option_map
    (fun x => (of_nat (count_lt x (values r)) + (of_nat (count_eq x (values r)) + 1) / 2)
              / of_nat (count r)) c.

Definition rank_pct (r : row) : row := map (rank_cell r) r.

(** [df.shift(n)] for [n >= 0]: the rows move down by [n] dates and the
    first [n] are NaN. *)
Definition shift (n : nat) (P : panel) : panel :=
  take (length P) (replicate n (replicate (ncols P) nan) ++ P).

Section Momentum.
(** [np.log] on a number: [None] where it gives NaN or an infinity (a
    price that is not positive).  An infinity in [L] makes the difference
    of logs infinite or NaN, and [replace([np.inf, -np.inf], np.nan)]
    turns it into NaN: the cell of [mom] is NaN either way. *)
Variable ln : Q -> cell.

Definition log_cell (c : cell) : cell := c ≫= ln.

(** [compute_momentum_ranks]:
    [L = np.log(masked_prices)];
    [mom = (L.shift(skip) - L.shift(lookback + skip)).replace([np.inf, -np.inf], np.nan)];
    [mom.rank(axis=1, pct=True, na_option="keep")]. *)
Definition compute_momentum_ranks (masked_prices : panel) (lookback skip : nat) : panel :=
  let L := map (map log_cell) masked_prices in
  let mom := align_rows (align sub_cell) (shift skip L) (shift (lookback + skip) L) in
  map rank_pct mom.
End Momentum.

(** *** [_winsorize_row] of [compute_monthly_returns_from_masked_prices] *)

Fixpoint insert_q (x : Q) (l : list Q) : list Q :=
  match l with
  | [] => [x]
  | y :: l' => if Qle_bool x y then x :: l else y :: insert_q x l'
  end.

Definition sort_q (l : list Q) : list Q := fold_right insert_q [] l.

(** [row.quantile(q)] for [0 <= q <= 1], linear interpolation: the point
    at position [(n - 1) q] of the sorted values, between its two
    neighbours; NaN for a row without values. *)
Definition quantile (r : row) (q : Q) : cell :=
  let a := sort_q (values r) in
  match a with
  | [] => None
  | a0 :: _ =>
    let h := of_nat (length a - 1) * q in
    let i := Z.to_nat (Qfloor h) in
    let x := nth i a a0 in
    let y := nth (Nat.min (S i) (length a - 1)) a a0 in
    Some (x + (h - inject_Z (Qfloor h)) * (y - x))
  end.

(** [row.clip(lower=lo, upper=hi)] on one cell: NaN stays NaN and a NaN
    bound does not bind.  pandas tests both bounds on the value it was
    given; the versions that differ on the order of the two replacements
    agree whenever [lo <= hi]. *)
Definition clip_cell (lo hi c : cell) : cell :=
  option_map
    (fun x =>
       match hi with
       | Some h => if Qle_bool x h then
                     match lo with
                     | Some l => if Qle_bool l x then x else l
                     | None => x
                     end
                   else h
       | None => match lo with
                 | Some l => if Qle_bool l x then x else l
                 | None => x
                 end
       end) c.

(** [_winsorize_row]. *)
Definition _winsorize_row (r : row) : row :=
  if (count r <? 50)%nat then r
  else
    let lo := quantile r (1 # 100) in
    let hi := quantile r (99 # 100) in
    map (clip_cell lo hi) r.

(** *** [max_drawdown] *)

(** [s.cumprod()]: NaN is skipped and stays NaN at its place. *)
Fixpoint cumprod_from (acc : option Q) (r : row) : row :=
  match r with
  | [] => []
  | None :: r' => None :: cumprod_from acc r'
  | Some x :: r' =>
    let p := match acc with Some a => a * x | None => x end in
    Some p :: cumprod_from (Some p) r'
  end.

Definition cumprod (r : row) : row := cumprod_from None r.

Definition qmax (a b : Q) : Q := if Qle_bool a b then b else a.
Definition qmin (a b : Q) : Q := if Qle_bool a b then a else b.

(** [s.cummax()]. *)
Fixpoint cummax_from (acc : option Q) (r : row) : row :=
  match r with
  | [] => []
  | None :: r' => None :: cummax_from acc r'
  | Some x :: r' =>
    let p := match acc with Some a => qmax a x | None => x end in
    Some p :: cummax_from (Some p) r'
  end.

Definition cummax (r : row) : row := cummax_from None r.

(** [s.min()]: NaN skipped; NaN when nothing is left. *)
Fixpoint min_row (r : row) : cell :=
  match r with
  | [] => None
  | None :: r' => min_row r'
  | Some x :: r' =>
    match min_row r' with
    | Some m => Some (qmin x m)
    | None => Some x
    end
  end.

(** [max_drawdown]:
    [w = (1 + r).cumprod()]; [peak = w.cummax()]; [dd = (w / peak) - 1];
    [float(dd.min())].  The running peak is zero only where the wealth
    itself is zero (a product that reaches zero stays there), so the one
    division by zero the code can meet is 0/0, which is NaN.  In doubles
    a wealth far enough under its peak makes the ratio round to 0 and the
    drawdown -1; the statements leave room for it. *)
Definition max_drawdown (r : row) : cell :=
  let w := cumprod (map (option_map (Qplus 1)) r) in
  let peak := cummax w in
  let dd := map (fun c => sub_cell c (Some 1)) (zip_with div_cell w peak) in
  min_row dd.

End Backtest.

(** Notions of the further statements. *)

Module Notions.
Import Frame Turnover Analysis Reading Backtest.

(** The number of names an indicator row flags. *)
Definition names (ind : row) : Q := sum (flags ind).

(** The number of sides, long and short, that flag a name: 0, 1 or 2. *)
Definition sides (longs shorts : row) : Q :=
  (if existsb gt0 longs then 1 else 0) + (if existsb gt0 shorts then 1 else 0).

(** A row of numbers as a row of cells. *)
Definition cells (l : list Q) : row := map Some l.

(** Small frames the further statements are tried on. *)

Definition long_row_ex : row := [Some 1; Some 0; Some 0].

Definition short_row_ex : row := [Some 0; Some 0; Some 1].

Definition gross_ex : row := [Some (1 # 4); Some 0].

(** Three dates of prices of two names, and the same with another last
    date. *)
Definition P_ex : panel := [[Some 1; Some 2]; [Some 2; Some 2]; [Some 3; Some 1]].

Definition P_ex' : panel := [[Some 1; Some 2]; [Some 2; Some 2]; [Some 5; Some 7]].

(** A stand-in for the logarithm in the examples; the statements hold for
    every function. *)
Definition ln_ex (x : Q) : cell := Some x.

(** Fifty returns, 0%, 1%, ..., 49%. *)
Definition row_50 : row := map (fun i => Some (of_nat i / 100)) (seq 0 50).

Definition returns_ex : row := [Some (1 # 10); None; Some (- (1 # 5))].

(** The value a leg gives a ticker: its flag times [a], the inverse of
    the number of flagged names ([/ 0] is [0], the value [fillna] leaves
    on an empty side). *)
Definition leg_val (a : Q) (c w : cell) : Prop :=
  exists x, w = Some x /\ x == (if gt0 c then 1 else 0) * a.

(** The mean of the positions a value and its ties take among the sorted
    values. *)
Definition avg_position (x : Q) (l : list Q) : Q :=
  of_nat (count_lt x l) + (of_nat (count_eq x l) + 1) / 2.

(** The row [df.shift(n)] holds at date [t] of [df]. *)
Definition lag (P : panel) (n t : nat) : row :=
  if (t <? n)%nat then replicate (ncols P) nan else default [] (P !! (t - n)%nat).

(** The row of [mom] at date [t] in [compute_momentum_ranks]. *)
Definition momentum (ln : Q -> cell) (P : panel) (lookback skip t : nat) : row :=
  align sub_cell (lag (map (map (log_cell ln)) P) skip t)
                 (lag (map (map (log_cell ln)) P) (lookback + skip) t).

(** The point at position [h] of a sorted list, between its neighbours. *)
Definition interp (a : list Q) (a0 : Q) (h : Q) : Q :=
  let i := Z.to_nat (Qfloor h) in
  nth i a a0
  + (h - inject_Z (Qfloor h)) * (nth (Nat.min (S i) (length a - 1)) a a0 - nth i a a0).

(** A cell and what clipping to [lo, hi] makes of it. *)
Definition clipped (lo hi : Q) (c c' : cell) : Prop :=
  match c with
  | None => c' = None
  | Some x =>
    exists y, c' = Some y /\ lo <= y <= hi /\
      (x < lo -> y = lo) /\ (hi < x -> y = hi) /\ (lo <= x <= hi -> y = x)
  end.

(** The drawdowns of [max_drawdown] in one pass: [aw] is the wealth and
    [ap] the peak reached so far. *)
Fixpoint dd_from (aw ap : option Q) (r : row) : row :=
  match r with
  | [] => []
  | None :: r' => None :: dd_from aw ap r'
  | Some x :: r' =>
    let w := match aw with Some a => a * x | None => x end in
    let p := match ap with Some a => qmax a w | None => w end in
    sub_cell (div_cell (Some w) (Some p)) (Some 1) :: dd_from (Some w) (Some p) r'
  end.

End Notions.

(** ** [src/data/build_sp500_history.py]: the monthly panel *)

Module Monthly.
Import History.
Local Open Scope string_scope.
Local Open Scope list_scope.
Local Open Scope Z_scope.

(** Order of the group keys [(month, ticker)]: by month, then by ticker
    as Python compares strings. *)
Definition key_leb (a b : Z * string) : bool :=
  (fst a <? fst b) || ((fst a =? fst b) && String.leb (snd a) (snd b)).

Definition key_eqb (a b : Z * string) : bool :=
  (fst a =? fst b) && String.eqb (snd a) (snd b).

(** The keys of a [groupby], sorted, each once. *)
Fixpoint insert_key (k : Z * string) (l : list (Z * string)) : list (Z * string) :=
  match l with
  | [] => [k]
  | y :: l' =>
    if key_eqb k y then l
    else if key_leb k y then k :: l
    else y :: insert_key k l'
  end.

(** [.max()] of the values of one group. *)
Definition max_of (l : list Z) : option Z :=
  match l with
  | [] => None
  | v :: l' => Some (fold_left Z.max l' v)
  end.

Section Panel.
(** [d + pd.offsets.MonthEnd(0)]: the last day of the month of [d]. *)
Variable month_end : Z -> Z.

Definition group_key (r : Z * string * Z) : Z * string :=
  (month_end (fst (fst r)), snd (fst r)).

Definition group_keys (rows : list (Z * string * Z)) : list (Z * string) :=
  fold_right insert_key [] (map group_key rows).

Definition group_values (k : Z * string) (rows : list (Z * string * Z)) : list Z :=
  map snd (List.filter (fun r => key_eqb (group_key r) k) rows).

(** [monthly_panel_from_daily]:
    [daily.groupby(["month", "ticker"])["in_index"].max().reset_index()],
    the month column renamed to [date]. *)
Definition monthly_panel_from_daily (daily : list (Z * string * Z)) : list (Z * string * Z) :=
  flat_map (fun k => match max_of (group_values k daily) with
                     | Some v => [(fst k, snd k, v)]
                     | None => []
                     end) (group_keys daily).
End Panel.

End Monthly.

Module HistoryExamples.
Import Text History HistoryReading.
Local Open Scope string_scope.
Local Open Scope list_scope.
Local Open Scope Z_scope.

(** A change table of one row and a parser that knows its date. *)
Definition page_ex : list Table :=
  [ {| columns := ["Date"; "Added"; "Removed"; "Reason"];
       body := [[Some "2020-01-02"; Some "B"; Some "C"; Some "Swap"]] |} ].

Definition to_datetime_ex (s : string) : option Z :=
  if String.eqb s "2020-01-02" then Some jan2 else None.

Definition rows_ex : list ChangeRow :=
  [ {| Date := jan2; Added := Some "B"; Removed := Some "C";
       Reason := Some "Swap"; Ticker := None; Company := None |} ].

End HistoryExamples.

Module TickerNotions.
Import Text.

(** A text that neither starts nor ends with white space. *)
Definition ends_ok (l : list ascii) : Prop :=
  (forall c, hd_error l = Some c -> is_space c = false) /\
  (forall c, hd_error (rev l) = Some c -> is_space c = false).

(** A text as [normalize_ticker] leaves it before its last step: stripped,
    without blanks and without lower-case letters. *)
Definition tidy (l : list ascii) : Prop :=
  ends_ok l /\
  Forall (fun c => Ascii.eqb c " " = false) l /\
  Forall (fun c => is_lower c = false) l.

(** Case analysis on the 256 characters. *)
Ltac each_char c :=
  destruct c as [[] [] [] [] [] [] [] []]; try reflexivity; try discriminate.

End TickerNotions.

(** * Weights, drift, turnover and gross return *)

Module TurnoverFacts.
Import Frame Turnover Analysis Reading.

Lemma Qabs_zero_iff (x : Q) : Qabs x == 0 <-> x == 0.
Proof.
  split; intros H.
  - revert H. apply Qabs_case; intros; lra.
  - rewrite H. reflexivity.
Qed.

Lemma abs_sum_nonneg (r : row) : 0 <= abs_sum r.
Proof.
  unfold abs_sum. induction r as [|[x|] r IH]; simpl; try lra.
  pose proof (Qabs_nonneg x). lra.
Qed.

Lemma abs_sum_cons_some x (w : row) : abs_sum (Some x :: w) = Qabs x + abs_sum w.
Proof. reflexivity. Qed.

Lemma abs_sum_cons_none (w : row) : abs_sum (None :: w) = abs_sum w.
Proof. reflexivity. Qed.

Lemma abs_sum_zero_traded (w : row) : abs_sum w == 0 <-> traded w = false.
Proof.
  induction w as [|[x|] w IH].
  - split; [reflexivity|intros; reflexivity].
  - rewrite abs_sum_cons_some. simpl.
    pose proof (abs_sum_nonneg w) as Hn. pose proof (Qabs_nonneg x) as Hx.
    rewrite orb_false_iff, negb_false_iff, Qeq_bool_iff, <- IH, <- (Qabs_zero_iff x).
    split; [intros H; split; lra | intros [H1 H2]; lra].
  - rewrite abs_sum_cons_none. simpl. exact IH.
Qed.

Lemma normalize_row_flat (w : row) :
  abs_sum w == 0 -> normalize_row w = map (fun _ => Some 0) w.
Proof.
  intros H. unfold normalize_row, replace0.
  apply Qeq_bool_iff in H. rewrite H.
  unfold fillna_row, div_row. rewrite map_map. apply map_ext.
  intros [x|]; reflexivity.
Qed.

Lemma abs_sum_zeros {A} (l : list A) : abs_sum (map (fun _ => Some 0) l) == 0.
Proof. induction l; [reflexivity|]. simpl map. rewrite abs_sum_cons_some, IHl. reflexivity. Qed.

Lemma sum_flags (ind : row) :
  0 <= sum (flags ind) /\ (existsb gt0 ind = true -> 1 <= sum (flags ind)).
Proof.
  induction ind as [|c ind [IH1 IH2]]; simpl.
  - split; [lra|discriminate].
  - destruct (gt0 c); simpl; split; intros; try lra. apply IH2 in H. lra.
Qed.

Lemma leg_cells (ind : row) : Forall2 leg_rel ind (leg ind).
Proof.
  unfold leg. fold (flags ind). destruct (sum_flags ind) as [Hn Hp].
  set (N := sum (flags ind)) in *. clearbody N.
  unfold fillna_row, div_row, flags. rewrite !map_map.
  assert (forall c, In c ind -> gt0 c = true -> 1 <= N) as HN.
  { intros c Hc Hg. apply Hp. apply existsb_exists. eauto. }
  clear Hp. induction ind as [|c ind IH]; simpl; constructor.
  - specialize (HN c (or_introl eq_refl)). unfold leg_rel, replace0.
    destruct (Qeq_bool N 0) eqn:E.
    + apply Qeq_bool_iff in E. destruct (gt0 c); simpl.
      * specialize (HN eq_refl). lra.
      * exists 0. repeat split; try lra; try discriminate.
    + unfold div_cell, of_bool. rewrite E. apply Qeq_bool_neq in E.
      simpl. eexists; split; [reflexivity|]. destruct (gt0 c); simpl.
      * specialize (HN eq_refl). split; [apply Qle_shift_div_l; lra|].
        split; [intros _ H|reflexivity]. assert (1 == 0 * N) as H1 by (rewrite <- H; field; lra). lra.
      * split; [unfold Qdiv; lra|]. split; [discriminate|]. intros H; exfalso; apply H. unfold Qdiv. ring.
  - apply IH. intros c' Hc'. apply HN. right. exact Hc'.
Qed.

Lemma traded_cons c (w : row) : traded (c :: w) = negb (Qeq_bool (fillna 0 c) 0) || traded w.
Proof. reflexivity. Qed.

Lemma nz_true x : negb (Qeq_bool x 0) = true <-> ~ x == 0.
Proof. rewrite negb_true_iff, <- not_true_iff_false, Qeq_bool_iff. reflexivity. Qed.

Lemma nz_bool x (b : bool) : (b = true <-> ~ x == 0) -> negb (Qeq_bool x 0) = b.
Proof.
  intros H. destruct b.
  - apply nz_true, H. reflexivity.
  - destruct (negb (Qeq_bool x 0)) eqn:E; [|reflexivity]. apply nz_true, H in E. discriminate.
Qed.

Lemma traded_combined (l s lw sw : row) :
  Forall2 leg_rel l lw -> Forall2 leg_rel s sw -> overlap l s = false ->
  traded (align (add_fill_cell 0) lw (map neg_cell sw)) = existsb gt0 l || existsb gt0 s.
Proof.
  intros Hl. revert s sw. induction Hl as [|a x l lw (p & -> & Hp & Hpa) Hl IH]; intros s sw Hs Ho.
  - simpl. clear Ho. induction Hs as [|b y s sw (q & -> & Hq & Hqb) Hs IH]; [reflexivity|].
    cbn [align map] in *. rewrite traded_cons, IH. simpl. f_equal.
    apply nz_bool. rewrite Hqb. split; intros H H'; apply H; lra.
  - destruct Hs as [|b y s sw (q & -> & Hq & Hqb) Hs].
    + cbn [align map]. rewrite traded_cons. simpl fillna.
      unfold overlap in Ho. cbn [align existsb] in Ho. apply orb_false_iff in Ho.
      specialize (IH [] [] ltac:(constructor) (proj2 Ho)). cbn [map] in IH. rewrite IH.
      cbn [existsb]. rewrite !orb_false_r. f_equal. apply nz_bool. rewrite Hpa. split; intros H H'; apply H; lra.
    + unfold overlap in Ho. simpl in Ho. apply orb_false_iff in Ho. destruct Ho as [Hab Ho].
      cbn [align map]. rewrite traded_cons, (IH s sw Hs Ho). simpl fillna.
      assert (negb (Qeq_bool (p + - q) 0) = gt0 a || gt0 b) as ->.
      { apply nz_bool. unfold id in Hab. destruct (gt0 a), (gt0 b); simpl in *; try discriminate.
        - assert (q == 0) as Hq0.
          { destruct (Qeq_bool q 0) eqn:E; [apply Qeq_bool_iff in E; exact E|].
            apply Qeq_bool_neq in E. apply Hqb in E. discriminate. }
          split; [intros _ H|reflexivity]. apply (proj1 Hpa eq_refl). lra.
        - assert (p == 0) as Hp0.
          { destruct (Qeq_bool p 0) eqn:E; [apply Qeq_bool_iff in E; exact E|].
            apply Qeq_bool_neq in E. apply Hpa in E. discriminate. }
          split; [intros _ H|reflexivity]. apply (proj1 Hqb eq_refl). lra.
        - split; [discriminate|]. intros H. exfalso. apply H.
          assert (p == 0) as Hp0.
          { destruct (Qeq_bool p 0) eqn:E; [apply Qeq_bool_iff in E; exact E|].
            apply Qeq_bool_neq in E. apply Hpa in E. discriminate. }
          assert (q == 0) as Hq0.
          { destruct (Qeq_bool q 0) eqn:E; [apply Qeq_bool_iff in E; exact E|].
            apply Qeq_bool_neq in E. apply Hqb in E. discriminate. }
          lra. }
      cbn [existsb]. destruct (gt0 a), (gt0 b), (existsb gt0 l), (existsb gt0 s); reflexivity.
Qed.

Lemma map_lookup {A B} (f : A -> B) (l : list A) (i : nat) :
  map f l !! i = f <$> l !! i.
Proof. revert i. induction l as [|x l IH]; intros [|i]; simpl; auto. Qed.

Lemma align_rows_lookup {A} (f : row -> row -> A) (a b : panel) (t : nat) (x y : row) :
  a !! t = Some x -> b !! t = Some y -> align_rows f a b !! t = Some (f x y).
Proof.
  revert b t. induction a as [|x' a IH]; intros [|y' b] [|t] Ha Hb; simpl in *; try discriminate.
  - congruence.
  - apply IH; assumption.
Qed.

Lemma align_rows_lookup_l {A} (f : row -> row -> A) (a b : panel) (t : nat) (x : row) :
  a !! t = Some x -> align_rows f a b !! t = Some (f x (default [] (b !! t))).
Proof.
  revert b t. induction a as [|x' a IH]; intros b [|t] Ha; simpl in *; try discriminate.
  - injection Ha as ->. destruct b; reflexivity.
  - destruct b as [|y b]; simpl.
    + rewrite (IH [] t Ha). rewrite lookup_nil. reflexivity.
    + apply IH. exact Ha.
Qed.

Lemma where_rows_lookup (P : panel) (cond : list bool) (other : Q) (t : nat) (r : row) :
  P !! t = Some r ->
  where_rows P cond other !! t
  = Some (if default false (cond !! t) then r else map (fun _ => Some other) r).
Proof.
  revert cond t. induction P as [|r' P IH]; intros cond [|t] H; simpl in *; try discriminate.
  - injection H as ->. destruct cond; reflexivity.
  - rewrite (IH _ _ H). destruct cond; reflexivity.
Qed.

Lemma no_flags_zeros {A} (l : list A) : existsb gt0 (map (fun _ => Some 0) l) = false.
Proof. induction l; simpl; auto. Qed.

Lemma no_flags_overlap (l s : row) : existsb gt0 l = false -> overlap l s = false.
Proof.
  unfold overlap. revert s. induction l as [|a l IH]; intros s H; simpl in *.
  - induction s; simpl; auto.
  - apply orb_false_iff in H. destruct H as [Ha Hl]. destruct s; simpl; rewrite Ha; simpl; apply IH, Hl.
Qed.

Lemma equal_weight_row_flat (l s : row) :
  existsb gt0 l = false -> existsb gt0 s = false ->
  Forall (fun c => c = Some 0) (equal_weight_row l s).
Proof.
  intros Hl Hs. unfold equal_weight_row.
  assert (traded (align (add_fill_cell 0) (leg l) (map neg_cell (leg s))) = false) as T.
  { rewrite (traded_combined l s) by auto using leg_cells, no_flags_overlap. rewrite Hl, Hs. reflexivity. }
  apply abs_sum_zero_traded in T. rewrite normalize_row_flat by exact T.
  apply Forall_forall. intros c Hc. apply list_elem_of_In, in_map_iff in Hc. destruct Hc as (? & <- & _). reflexivity.
Qed.

Lemma Qle_bool_false x y : x < y -> Qle_bool y x = false.
Proof.
  intros H. destruct (Qle_bool y x) eqn:E; [|reflexivity]. apply Qle_bool_iff in E. lra.
Qed.

(** C8.  On every date where the count of long names or the count of short
    names is below [min_names] (20 in [main]), the gate zeroes both
    indicator rows of that date and the weight row of that date is all
    zero: the strategy is flat there and the run goes on. *)
Theorem gate_flat (m : Q) (longs shorts : panel) (t : nat) (l s : row) :
  longs !! t = Some l -> shorts !! t = Some s ->
  sum l < m \/ sum s < m ->
  fst (gate m longs shorts) !! t = Some (map (fun _ => Some 0) l) /\
  snd (gate m longs shorts) !! t = Some (map (fun _ => Some 0) s) /\
  exists w, weights m longs shorts !! t = Some w /\ Forall (fun c => c = Some 0) w.
Proof.
  intros Hl Hs Hm.
  assert (valid_dates m longs shorts !! t = Some false) as Hv.
  { unfold valid_dates. rewrite (align_rows_lookup _ _ _ _ _ _ Hl Hs). f_equal.
    destruct Hm as [Hm|Hm]; rewrite (Qle_bool_false _ _ Hm); auto using andb_false_r. }
  assert (fst (gate m longs shorts) !! t = Some (map (fun _ => Some 0) l)) as H1.
  { unfold gate; simpl. rewrite (where_rows_lookup _ _ _ _ _ Hl), Hv. reflexivity. }
  assert (snd (gate m longs shorts) !! t = Some (map (fun _ => Some 0) s)) as H2.
  { unfold gate; simpl. rewrite (where_rows_lookup _ _ _ _ _ Hs), Hv. reflexivity. }
  repeat split; auto.
  eexists. split.
  - unfold weights, equal_weight_long_short. apply align_rows_lookup; eassumption.
  - apply equal_weight_row_flat; apply no_flags_zeros.
Qed.

(** C10.  With [short_q < long_q], [build_signals] never flags one
    (date, ticker) cell both long and short, and a cell whose rank is
    missing gets indicator 0 on both sides. *)
Theorem build_signals_exclusive (ranks : panel) (long_q short_q : Q) (t k : nat) (c : cell) :
  short_q < long_q -> iat ranks t k = Some c ->
  exists a b : bool,
    iat (fst (build_signals ranks long_q short_q)) t k = Some (of_bool a) /\
    iat (snd (build_signals ranks long_q short_q)) t k = Some (of_bool b) /\
    a && b = false /\
    (c = nan -> a = false /\ b = false).
Proof.
  intros Hq Hc. unfold iat, build_signals in *. cbn [fst snd].
  destruct (ranks !! t) as [r|] eqn:Hr; [|discriminate]. cbn in Hc.
  exists (ge_cell c long_q), (le_cell c short_q).
  rewrite !map_lookup, Hr. cbn. rewrite !map_lookup, Hc. cbn.
  repeat split.
  - destruct c as [x|]; simpl; [|reflexivity].
    destruct (Qle_bool long_q x) eqn:E1; [|reflexivity].
    apply Qle_bool_iff in E1. apply Qle_bool_false. lra.
  - subst c. reflexivity.
  - subst c. reflexivity.
Qed.

Lemma sum_from_ext (f g : nat -> Q) (k n : nat) :
  (forall j, (k <= j < k + n)%nat -> f j == g j) -> sum_from k n f == sum_from k n g.
Proof.
  revert k. induction n as [|n IH]; intros k H; simpl; [reflexivity|].
  rewrite (H k) by lia. rewrite (IH (S k)); [reflexivity|]. intros j Hj. apply H. lia.
Qed.

Lemma sum_from_shift (f : nat -> Q) (k n : nat) :
  sum_from (S k) n f = sum_from k n (fun j => f (S j)).
Proof. revert k. induction n as [|n IH]; intros k; simpl; [reflexivity|]. rewrite IH. reflexivity. Qed.

Lemma sum_from_zero (f : nat -> Q) (k n : nat) :
  (forall j, (k <= j < k + n)%nat -> f j == 0) -> sum_from k n f == 0.
Proof.
  revert k. induction n as [|n IH]; intros k H; simpl; [reflexivity|].
  rewrite (H k) by lia. rewrite (IH (S k)); [reflexivity|]. intros j Hj. apply H. lia.
Qed.

Lemma sum_all_nan (f : cell -> cell) (r : row) : (forall c, f c = None) -> sum (map f r) = 0.
Proof. intros H. induction r as [|c r IH]; simpl; [reflexivity|]. rewrite H. exact IH. Qed.

Lemma sum_align_mul (w r : row) (n : nat) :
  (length w <= n)%nat -> sum (align mul_cell w r) == sum_over n (weighted_return w r).
Proof.
  unfold sum_over. revert r n. induction w as [|x w IH]; intros r n Hn.
  - simpl align. rewrite sum_all_nan by reflexivity.
    symmetry. apply sum_from_zero. intros j _. reflexivity.
  - destruct n as [|n]; [simpl in Hn; lia|]. simpl in Hn.
    cbn [sum_from]. rewrite sum_from_shift.
    destruct r as [|y r]; cbn [align].
    + specialize (IH [] n ltac:(lia)).
      assert (sum (mul_cell x None :: align mul_cell w []) == sum (align mul_cell w [])) as ->
        by (destruct x; reflexivity).
      rewrite IH. unfold weighted_return at 1. cbn.
      destruct x; rewrite Qplus_0_l; apply sum_from_ext; intros j _; unfold weighted_return; cbn;
        destruct (w !! j) as [[?|]|]; reflexivity.
    + specialize (IH r n ltac:(lia)).
      assert (sum (mul_cell x y :: align mul_cell w r)
              == weighted_return (x :: w) (y :: r) 0 + sum (align mul_cell w r)) as ->.
      { unfold weighted_return. destruct x, y; cbn; lra. }
      rewrite IH. reflexivity.
Qed.

Lemma ncols_ge (W : panel) (t : nat) (w : row) : W !! t = Some w -> (length w <= ncols W)%nat.
Proof.
  revert t. induction W as [|r W IH]; intros [|t] H; simpl in *; try discriminate.
  - injection H as ->. lia.
  - specialize (IH _ H). lia.
Qed.

(** C2.  At every date [t] of the backtest the gross return is the sum over
    tickers of the target weight of [t] times the return of [t]: the
    return earned by the weights held into [t], taken before any drift.  A
    ticker whose return (or weight) is missing adds nothing to the sum. *)
Theorem gross_weighted_sum (W rets : panel) (t : nat) (w : row) :
  W !! t = Some w ->
  exists g, gross W rets !! t = Some g /\
    g == sum_over (ncols W) (weighted_return w (row_at rets t)).
Proof.
  intros Hw. unfold gross. rewrite map_lookup, (align_rows_lookup_l _ _ _ _ _ Hw).
  eexists. split; [reflexivity|]. apply sum_align_mul. eapply ncols_ge; eauto.
Qed.

Lemma val_cell_at r k : val r k = fillna 0 (cell_at r k).
Proof. unfold val, cell_at. destruct (r !! k) as [[?|]|]; reflexivity. Qed.

Lemma align_length {A} (f : cell -> cell -> A) (w r : row) :
  length (align f w r) = Nat.max (length w) (length r).
Proof.
  revert r. induction w as [|x w IH]; intros r; simpl.
  - apply length_map.
  - destruct r; simpl; rewrite IH; simpl; lia.
Qed.

Lemma align_lookup {A} (f : cell -> cell -> A) (w r : row) (k : nat) :
  (k < Nat.max (length w) (length r))%nat ->
  align f w r !! k = Some (f (cell_at w k) (cell_at r k)).
Proof.
  revert r k. induction w as [|x w IH]; intros r k Hk.
  - simpl in *. rewrite map_lookup. unfold cell_at at 1. simpl.
    destruct (r !! k) as [c|] eqn:E.
    + unfold cell_at. rewrite E. reflexivity.
    + apply lookup_ge_None in E. lia.
  - destruct r as [|y r]; destruct k as [|k]; simpl in *; try reflexivity.
    + rewrite IH by (simpl; lia). reflexivity.
    + rewrite IH by lia. reflexivity.
Qed.

Section Labelled.
Context {A : Type} (P : nat * A -> Prop) `{!forall x, Decision (P x)}.

Lemma loc_kept (g : nat * A -> cell) (a : list A) (o k : nat) :
  loc k (map (fun x => (fst x, g x)) (filter P (combine (seq o (length a)) a)))
  = if decide (o <= k)%nat
    then match a !! (k - o)%nat with
         | Some p => if decide (P (k, p)) then Some (g (k, p)) else None
         | None => None
         end
    else None.
Proof.
  revert o. induction a as [|p a IH]; intros o; simpl.
  - destruct (decide (o <= k)%nat); reflexivity.
  - rewrite filter_cons. destruct (decide (P (o, p))) as [HP|HP]; simpl; rewrite ?IH.
    + destruct (Nat.eqb_spec o k) as [->|Hne].
      * rewrite decide_True by lia. rewrite Nat.sub_diag. simpl. rewrite decide_True by exact HP. reflexivity.
      * destruct (decide (o <= k)%nat), (decide (S o <= k)%nat); try lia; try reflexivity.
        replace (k - o)%nat with (S (k - S o)) by lia. reflexivity.
    + destruct (decide (o <= k)%nat), (decide (S o <= k)%nat); try lia; try reflexivity.
      * replace (k - o)%nat with (S (k - S o)) by lia. reflexivity.
      * assert (k = o) as -> by lia. rewrite Nat.sub_diag. simpl. rewrite decide_False by exact HP. reflexivity.
Qed.

Lemma sum_kept (h : nat * A -> Q) (l : list (nat * A)) :
  (forall x, ~ P x -> h x == 0) ->
  sum (map (fun x => Some (h x)) (filter P l)) == sum (map (fun x => Some (h x)) l).
Proof.
  intros Hz. induction l as [|x l IH]; [reflexivity|].
  rewrite filter_cons. destruct (decide (P x)) as [HP|HP]; simpl; rewrite IH; [reflexivity|].
  rewrite (Hz x HP). lra.
Qed.

Lemma sum_labelled (h : nat * A -> Q) (a : list A) (o : nat) :
  sum (map (fun x => Some (h x)) (combine (seq o (length a)) a))
  == sum_from o (length a)
       (fun k => match a !! (k - o)%nat with Some p => h (k, p) | None => 0 end).
Proof.
  revert o. induction a as [|p a IH]; intros o; simpl; [reflexivity|].
  rewrite IH, Nat.sub_diag. simpl. apply Qplus_comp; [reflexivity|].
  apply sum_from_ext. intros j Hj. replace (j - o)%nat with (S (j - S o)) by lia. reflexivity.
Qed.
End Labelled.

Lemma sum_from_app (f : nat -> Q) (k n m : nat) :
  sum_from k (n + m) f == sum_from k n f + sum_from (k + n) m f.
Proof.
  revert k. induction n as [|n IH]; intros k; simpl.
  - rewrite Nat.add_0_r. lra.
  - rewrite IH. replace (S k + n)%nat with (k + S n)%nat by lia. lra.
Qed.

Lemma sum_over_extend (f : nat -> Q) (n m : nat) :
  (n <= m)%nat -> (forall j, (n <= j)%nat -> f j == 0) -> sum_over m f == sum_over n f.
Proof.
  intros Hnm Hz. unfold sum_over. replace m with (n + (m - n))%nat by lia.
  rewrite sum_from_app, (sum_from_zero f (0 + n)); [lra|]. intros j Hj. apply Hz. lia.
Qed.

Lemma val_beyond (r : row) (k : nat) : (length r <= k)%nat -> val r k = 0.
Proof. intros H. unfold val. rewrite (proj2 (lookup_ge_None r k)) by exact H. reflexivity. Qed.

Lemma post_drift_beyond (w r : row) (k : nat) : (length w <= k)%nat -> post_drift w r k == 0.
Proof. intros H. unfold post_drift. rewrite val_beyond by exact H. ring. Qed.

Lemma post'_dropped x : ~ keep x -> post' x == 0.
Proof.
  destruct x as [k [[a|] [b|]]]; unfold keep, post'; simpl; intros H; try ring;
    exfalso; apply H; eauto.
Qed.

Lemma denom_total (w r : row) (n : nat) :
  (length w <= n)%nat ->
  sum (map (fun x => Some (Qabs (post' x))) (dropna_all (concat_wr w r)))
  == total_abs_post n w r.
Proof.
  intros Hn. unfold dropna_all, concat_wr. fold keep.
  rewrite (sum_kept keep (fun x => Qabs (post' x))).
  2:{ intros x Hx. rewrite (post'_dropped x Hx). reflexivity. }
  rewrite sum_labelled, align_length. unfold total_abs_post.
  set (m := Nat.max (length w) (length r)).
  transitivity (sum_over m (fun k => Qabs (post_drift w r k))).
  - apply sum_from_ext. intros j Hj. rewrite Nat.sub_0_r, align_lookup by (fold m; lia).
    unfold post', post_drift. simpl. rewrite !val_cell_at. reflexivity.
  - rewrite (sum_over_extend _ (length w) m), (sum_over_extend _ (length w) n); try reflexivity; try lia;
      intros j Hj; rewrite post_drift_beyond by exact Hj; reflexivity.
Qed.

Lemma loc_combine_seq (w : row) (o k : nat) :
  loc k (combine (seq o (length w)) w)
  = if decide (o <= k)%nat then w !! (k - o)%nat else None.
Proof.
  revert o. induction w as [|c w IH]; intros o; simpl.
  - destruct (decide (o <= k)%nat); reflexivity.
  - rewrite IH. destruct (Nat.eqb_spec o k) as [->|Hne].
    + rewrite decide_True by lia. rewrite Nat.sub_diag. reflexivity.
    + destruct (decide (o <= k)%nat), (decide (S o <= k)%nat); try lia; try reflexivity.
      replace (k - o)%nat with (S (k - S o)) by lia. reflexivity.
Qed.

Lemma filled_labelled (w : row) (k : nat) : filled (labelled w) k = val w k.
Proof.
  unfold filled, labelled. rewrite loc_combine_seq, decide_True, Nat.sub_0_r by lia.
  unfold val. destruct (w !! k) as [[?|]|]; reflexivity.
Qed.

Lemma filter_nil_none {A} (P : A -> Prop) `{!forall x, Decision (P x)} (l : list A) :
  filter P l = [] -> forall x, In x l -> ~ P x.
Proof.
  induction l as [|y l IH]; intros Hf x Hx; [destruct Hx|].
  rewrite filter_cons in Hf. destruct (decide (P y)); [discriminate|].
  destruct Hx as [->|Hx]; auto.
Qed.

Lemma in_labelled {A} (a : list A) (o j : nat) (p : A) :
  a !! j = Some p -> In ((o + j)%nat, p) (combine (seq o (length a)) a).
Proof.
  revert o j. induction a as [|q a IH]; intros o [|j] H; simpl in *; try discriminate.
  - injection H as ->. left. f_equal. lia.
  - right. replace (o + S j)%nat with (S o + j)%nat by lia. apply IH. exact H.
Qed.

Lemma Qeq_bool_true x y : x == y -> Qeq_bool x y = true.
Proof. apply Qeq_bool_iff. Qed.

Lemma total_nonneg n w r : 0 <= total_abs_post n w r.
Proof.
  unfold total_abs_post, sum_over. generalize 0%nat. induction n as [|n IH]; intros k; cbn [sum_from]; [lra|].
  pose proof (Qabs_nonneg (post_drift w r k)). specialize (IH (S k)). lra.
Qed.

(** [drift_weights] against the formula, ticker by ticker. *)
Lemma drift_weights_filled (w r : row) (n k : nat) :
  (length w <= n)%nat ->
  filled (drift_weights w r) k == drifted n w r k.
Proof.
  intros Hn. unfold drifted.
  pose proof (denom_total w r n Hn) as Hden.
  assert (forall j, cell_at w j = None -> post_drift w r j == 0) as Hpost0.
  { intros j Hj. unfold post_drift. rewrite val_cell_at, Hj. simpl. ring. }
  unfold drift_weights. destruct w as [|c0 w0] eqn:Ew.
  - (* W_prev.empty *)
    unfold filled. simpl loc. simpl fillna.
    assert (post_drift [] r k == 0) as H0 by (apply post_drift_beyond; simpl; lia).
    destruct (Qeq_bool _ 0); rewrite H0; [reflexivity|]. unfold Qdiv. ring.
  - rewrite <- Ew in *. clear Ew c0 w0.
    destruct (dropna_all (concat_wr w r)) as [|x0 al] eqn:Eal.
    + (* aligned.empty *)
      rewrite filled_labelled.
      assert (forall j, cell_at w j = None) as Hall.
      { intros j. destruct (decide (j < Nat.max (length w) (length r))%nat) as [Hj|Hj].
        - pose proof (filter_nil_none _ _ Eal (j, (cell_at w j, cell_at r j))) as Hk.
          destruct (cell_at w j) eqn:E; [|reflexivity]. exfalso. apply Hk; [|left; eauto].
          rewrite <- E. unfold concat_wr. apply (in_labelled _ 0 j). apply align_lookup. exact Hj.
        - unfold cell_at. rewrite (proj2 (lookup_ge_None w j)) by lia. reflexivity. }
      rewrite val_cell_at, Hall. simpl fillna.
      destruct (Qeq_bool _ 0); rewrite (Hpost0 k (Hall k)); [reflexivity|]. unfold Qdiv. ring.
    + rewrite <- Eal in *. clear Eal x0 al.
      set (aligned := dropna_all (concat_wr w r)) in *.
      rewrite !map_map. cbn [fst snd].
      change (fun x : nat * (cell * cell) =>
                Some (Qabs (fillna 0 (fst (snd x)) * (1 + fillna 0 (snd (snd x))))))
        with (fun x => Some (Qabs (post' x))).
      set (denom := sum (map (fun x => Some (Qabs (post' x))) aligned)) in *.
      rewrite (Qeqb_comp _ _ Hden 0 0 (Qeq_refl 0)).
      assert (forall g : nat * (cell * cell) -> Q,
                 (forall x, ~ keep x -> g x == 0) ->
                 (forall a b, g (k, (a, b)) == g (k, (a, b))) ->
                 filled (map (fun x => (fst x, Some (g x))) aligned) k
                 == g (k, (cell_at w k, cell_at r k))) as Hfill.
      { intros g Hg _. unfold filled, aligned, dropna_all, concat_wr. fold keep.
        rewrite (loc_kept keep (fun x => Some (g x))), decide_True, Nat.sub_0_r by lia.
        destruct (decide (k < Nat.max (length w) (length r))%nat) as [Hk|Hk].
        - rewrite align_lookup by exact Hk.
          destruct (decide (keep (k, (cell_at w k, cell_at r k)))) as [HK|HK]; simpl; [reflexivity|].
          symmetry. apply Hg, HK.
        - rewrite (proj2 (lookup_ge_None _ k)) by (rewrite align_length; lia). simpl.
          symmetry. apply Hg. unfold keep, cell_at. simpl.
          rewrite (proj2 (lookup_ge_None w k)), (proj2 (lookup_ge_None r k)) by lia.
          intros [[? H]|[? H]]; discriminate. }
      assert (post' (k, (cell_at w k, cell_at r k)) = post_drift w r k) as Hpk.
      { unfold post', post_drift. rewrite !val_cell_at. reflexivity. }
      destruct (Qeq_bool (total_abs_post n w r) 0).
      * change (fun x : nat * (cell * cell) =>
                  (fst x, Some (fillna 0 (fst (snd x)) * (1 + fillna 0 (snd (snd x))))))
          with (fun x => (fst x, Some (post' x))).
        rewrite (Hfill post'), Hpk; [reflexivity| apply post'_dropped | reflexivity].
      * change (fun x : nat * (cell * cell) =>
                  (fst x, Some (fillna 0 (fst (snd x)) * (1 + fillna 0 (snd (snd x))) / denom)))
          with (fun x => (fst x, Some (post' x / denom))).
        rewrite (Hfill (fun x => post' x / denom)), Hpk, Hden; [reflexivity| |reflexivity].
        intros x Hx. rewrite (post'_dropped x Hx). unfold Qdiv. ring.
Qed.

Lemma reindex_filled (n : nat) (s : series) :
  map (fillna 0) (reindex n s) = map (filled s) (seq 0 n).
Proof. unfold reindex. rewrite map_map. reflexivity. Qed.

Lemma abs_diff_sum_seq (F G : nat -> Q) (o n : nat) :
  abs_diff_sum (map F (seq o n)) (map G (seq o n))
  = sum_from o n (fun k => Qabs (F k - G k)).
Proof. revert o. induction n as [|n IH]; intros o; simpl; [reflexivity|]. rewrite IH. reflexivity. Qed.

Lemma sum_from_le (f g : nat -> Q) (k n : nat) :
  (forall j, f j <= g j) -> sum_from k n f <= sum_from k n g.
Proof.
  intros H. revert k. induction n as [|n IH]; intros k; simpl; [lra|].
  specialize (H k). specialize (IH (S k)). lra.
Qed.

Lemma sum_from_plus (f g : nat -> Q) (k n : nat) :
  sum_from k n (fun j => f j + g j) == sum_from k n f + sum_from k n g.
Proof. revert k. induction n as [|n IH]; intros k; simpl; [lra|]. rewrite IH. lra. Qed.

Lemma sum_from_nonneg (f : nat -> Q) (k n : nat) :
  (forall j, 0 <= f j) -> 0 <= sum_from k n f.
Proof.
  intros H. revert k. induction n as [|n IH]; intros k; simpl; [lra|].
  specialize (H k). specialize (IH (S k)). lra.
Qed.

Lemma sum_from_scale (f : nat -> Q) (d : Q) (k n : nat) :
  0 < d -> sum_from k n (fun j => Qabs (f j / d)) == sum_from k n (fun j => Qabs (f j)) / d.
Proof.
  intros Hd. revert k. induction n as [|n IH]; intros k; cbn [sum_from].
  - field. lra.
  - rewrite IH. unfold Qdiv at 1. rewrite Qabs_Qmult, Qabs_Qinv, (Qabs_pos d) by lra. field. lra.
Qed.

Lemma sum_abs_val (w : row) (n : nat) :
  (length w <= n)%nat -> sum_over n (fun k => Qabs (val w k)) == abs_sum w.
Proof.
  unfold sum_over. revert n. induction w as [|c w IH]; intros n Hn.
  - apply sum_from_zero. intros j _. reflexivity.
  - destruct n as [|n]; [simpl in Hn; lia|]. simpl in Hn. cbn [sum_from].
    rewrite sum_from_shift.
    assert (sum_from 0 n (fun j => Qabs (val (c :: w) (S j))) == abs_sum w) as ->
      by (apply IH; lia).
    destruct c as [x|].
    + rewrite abs_sum_cons_some. reflexivity.
    + rewrite abs_sum_cons_none. change (val (None :: w) 0) with 0.
      rewrite (Qabs_pos 0) by lra. lra.
Qed.

Lemma sum_abs_drifted (n : nat) (w r : row) :
  sum_over n (fun k => Qabs (drifted n w r k)) <= 1.
Proof.
  unfold drifted. pose proof (total_nonneg n w r) as Hn.
  destruct (Qeq_bool (total_abs_post n w r) 0) eqn:E.
  - apply Qeq_bool_iff in E. fold (total_abs_post n w r). lra.
  - apply Qeq_bool_neq in E. unfold sum_over. rewrite sum_from_scale by lra.
    fold (sum_over n (fun j => Qabs (post_drift w r j))). fold (total_abs_post n w r).
    apply Qle_shift_div_r; lra.
Qed.

(** Turnover between two weight vectors that each sum to at most one. *)
Lemma abs_diff_bound (F G : nat -> Q) (n : nat) :
  sum_over n (fun k => Qabs (F k)) <= 1 ->
  sum_over n (fun k => Qabs (G k)) <= 1 ->
  0 <= (1 # 2) * abs_diff_sum (map F (seq 0 n)) (map G (seq 0 n)) <= 2.
Proof.
  intros HF HG. rewrite abs_diff_sum_seq.
  assert (0 <= sum_from 0 n (fun k => Qabs (F k - G k))) as H0
    by (apply sum_from_nonneg; intros; apply Qabs_nonneg).
  assert (sum_from 0 n (fun k => Qabs (F k - G k))
          <= sum_from 0 n (fun k => Qabs (F k) + Qabs (G k))) as H1.
  { apply sum_from_le. intros j. pose proof (Qabs_triangle (F j) (- G j)) as T.
    rewrite Qabs_opp in T. exact T. }
  rewrite sum_from_plus in H1. unfold sum_over in *. lra.
Qed.

Lemma entering_weights_Some (W : panel) (R : panel) (i : nat) (pre : list Q) :
  entering_weights W (Some R) i = Some pre ->
  exists wp rp, W !! (i - 1)%nat = Some wp /\ R !! (i - 1)%nat = Some rp /\
    pre = map (filled (drift_weights wp rp)) (seq 0 (ncols W)).
Proof.
  unfold entering_weights. intros H.
  destruct (W !! (i - 1)%nat) as [wp|]; [|discriminate]. cbn in H.
  destruct (R !! (i - 1)%nat) as [rp|]; [|discriminate]. cbn in H.
  injection H as <-. exists wp, rp. rewrite reindex_filled. auto.
Qed.

Lemma target_weights_Some (W : panel) (i : nat) (wt : list Q) :
  target_weights W i = Some wt ->
  exists w, W !! i = Some w /\ wt = map (val w) (seq 0 (ncols W)).
Proof.
  unfold target_weights. intros H.
  destruct (W !! i) as [w|]; [|discriminate]. cbn in H. injection H as <-.
  exists w. split; [reflexivity|]. rewrite reindex_filled. apply map_ext. apply filled_labelled.
Qed.

Lemma turnover_lookup (W : panel) (rets : option panel) (to : list Q) (t : nat) :
  turnover_from_weights W rets = Some to -> (t < length W)%nat ->
  exists x, to !! t = Some x /\ turnover_at W rets t = Some x.
Proof.
  intros H Ht. apply mapM_Some_1 in H.
  destruct (Forall2_lookup_l _ _ _ t t H (lookup_seq_lt 0 _ _ Ht)) as (x & Hx & Hf).
  eauto.
Qed.

(** C3, as amended.  At every date [t] after the first, the weight
    entering [t] is the target set at [t-1] times one plus the return
    realized at [t-1] (a missing value counting as 0), divided by the total
    absolute post-drift weight when that total is not zero and left as it
    is, all zero, when the total is zero; the turnover at [t] is half the
    sum over tickers of the absolute difference between the target at [t]
    and that drifted weight. *)
Theorem turnover_from_drift (W R : panel) (to : list Q) (t : nat) :
  turnover_from_weights W (Some R) = Some to -> (1 <= t < length W)%nat ->
  exists (w_prev r_prev w_t : row) (pre : list Q) (x : Q),
    W !! (t - 1)%nat = Some w_prev /\ R !! (t - 1)%nat = Some r_prev /\ W !! t = Some w_t /\
    entering_weights W (Some R) t = Some pre /\
    Forall2 (fun k y => y == drifted (ncols W) w_prev r_prev k) (seq 0 (ncols W)) pre /\
    to !! t = Some x /\
    x == (1 # 2) * sum_over (ncols W)
           (fun k => Qabs (val w_t k - drifted (ncols W) w_prev r_prev k)).
Proof.
  intros Hto [H1 Ht]. destruct (turnover_lookup _ _ _ _ Hto Ht) as (x & Hx & Hat).
  destruct t as [|t']; [lia|]. unfold turnover_at in Hat.
  destruct (entering_weights W (Some R) (S t')) as [pre|] eqn:Epre; [|discriminate]. cbn in Hat.
  destruct (target_weights W (S t')) as [wt|] eqn:Ewt; [|discriminate]. cbn in Hat.
  injection Hat as <-.
  destruct (entering_weights_Some _ _ _ _ Epre) as (wp & rp & Hwp & Hrp & ->).
  destruct (target_weights_Some _ _ _ Ewt) as (w & Hw & ->).
  assert (length wp <= ncols W)%nat as Hlen by (eapply ncols_ge; eauto).
  do 5 eexists. split; [exact Hwp|]. split; [exact Hrp|]. split; [exact Hw|].
  split; [reflexivity|]. split; [|split; [exact Hx|]].
  - apply Forall2_fmap_r, Forall_Forall2_diag, Forall_forall. intros k _.
    apply drift_weights_filled. exact Hlen.
  - rewrite abs_diff_sum_seq. apply Qmult_comp; [reflexivity|].
    apply sum_from_ext. intros j _. rewrite drift_weights_filled by exact Hlen. reflexivity.
Qed.

(** C4.  When every row of the weight panel has total absolute weight at
    most 1, every turnover [turnover_from_weights] returns lies between 0
    and 2 and the turnover of the first date is exactly 0.  The call
    returns a series unless the return panel stops more than one row
    before the weight panel ([rets.iloc] then raises). *)
Theorem turnover_bounded (W : panel) (rets : option panel) :
  Forall (fun w => abs_sum w <= 1) W ->
  match turnover_from_weights W rets with
  | Some to =>
      length to = length W /\ Forall (fun x => 0 <= x <= 2) to /\
      (W <> [] -> to !! 0%nat = Some 0)
  | None => exists R, rets = Some R /\ (S (length R) < length W)%nat
  end.
Proof.
  intros HW. destruct (turnover_from_weights W rets) as [to|] eqn:Hto.
  - pose proof (length_mapM _ _ _ Hto) as Hlen. rewrite length_seq in Hlen.
    split; [auto|]. split.
    + apply Forall_lookup. intros i x Hi.
      assert (i < length W)%nat as Hi' by (rewrite Hlen; eapply lookup_lt_Some; eauto).
      destruct (turnover_lookup _ _ _ _ Hto Hi') as (x' & Hx' & Hat).
      rewrite Hi in Hx'. injection Hx' as <-.
      destruct i as [|i']; [injection Hat as <-; lra|].
      unfold turnover_at in Hat.
      destruct (entering_weights W rets (S i')) as [pre|] eqn:Epre; [|discriminate]. cbn in Hat.
      destruct (target_weights W (S i')) as [wt|] eqn:Ewt; [|discriminate]. cbn in Hat.
      injection Hat as <-.
      destruct (target_weights_Some _ _ _ Ewt) as (w & Hw & ->).
      assert (abs_sum w <= 1) as Hw1 by (eapply (proj1 (Forall_lookup _ _) HW); eauto).
      assert (sum_over (ncols W) (fun k => Qabs (val w k)) <= 1) as HF
        by (rewrite sum_abs_val; [exact Hw1 | eapply ncols_ge; eauto]).
      destruct rets as [R|].
      * destruct (entering_weights_Some _ _ _ _ Epre) as (wp & rp & Hwp & Hrp & ->).
        apply abs_diff_bound; [exact HF|].
        assert (length wp <= ncols W)%nat as Hl by (eapply ncols_ge; eauto).
        unfold sum_over. rewrite (sum_from_ext _ (fun k => Qabs (drifted (ncols W) wp rp k))).
        -- apply sum_abs_drifted.
        -- intros j _. rewrite drift_weights_filled by exact Hl. reflexivity.
      * unfold entering_weights in Epre.
        destruct (W !! (S i' - 1)%nat) as [wp|] eqn:Hwp; [|discriminate]. cbn in Epre.
        injection Epre as <-. rewrite reindex_filled.
        apply abs_diff_bound; [exact HF|].
        unfold sum_over. rewrite (sum_from_ext _ (fun k => Qabs (val wp k))).
        -- fold (sum_over (ncols W) (fun k => Qabs (val wp k))).
           rewrite sum_abs_val; [eapply (proj1 (Forall_lookup _ _) HW); eauto | eapply ncols_ge; eauto].
        -- intros j _. rewrite filled_labelled. reflexivity.
    + intros Hne. destruct W as [|w W']; [contradiction|].
      unfold turnover_from_weights in Hto. simpl in Hto.
      destruct (mapM _ _) in Hto; [|discriminate]. cbn in Hto. injection Hto as <-. reflexivity.
  - apply mapM_None_1, Exists_exists in Hto. destruct Hto as (i & Hi & Hat).
    apply list_elem_of_In, in_seq in Hi. destruct i as [|i']; [discriminate|].
    unfold turnover_at in Hat.
    destruct (W !! S i') as [w|] eqn:Hw; [|apply lookup_ge_None in Hw; lia].
    destruct (W !! i') as [wp|] eqn:Hwp; [|apply lookup_ge_None in Hwp; lia].
    assert (target_weights W (S i') <> None) as Ht by (unfold target_weights; rewrite Hw; discriminate).
    unfold entering_weights in Hat. replace (S i' - 1)%nat with i' in Hat by lia.
    rewrite Hwp in Hat. cbn in Hat.
    destruct rets as [R|].
    + destruct (R !! i') as [rp|] eqn:Hrp.
      * cbn in Hat. destruct (target_weights W (S i')); [discriminate|contradiction].
      * exists R. split; [reflexivity|]. apply lookup_ge_None in Hrp. lia.
    + cbn in Hat. destruct (target_weights W (S i')); [discriminate|contradiction].
Qed.

(** C3 as worded fails where the previous date is flat: the code leaves
    the drifted weight at zero, the quotient of the sentence is 0/0. *)
Lemma drift_zero_total_counterexample :
  let pre := entering_weights W_flat (Some R_flat) 1 in
  let stated :=
    map (drift_as_stated 2 [Some 0; Some 0] [Some (1 # 10); Some (- (1 # 10))]) (seq 0 2) in
  (exists p, pre = Some p /\ Forall (fun x => x == 0) p) /\
  stated = [nan; nan] /\
  option_map (map Some) pre <> Some stated.
Proof.
  cbv zeta. split; [|split].
  - eexists. split; [vm_compute; reflexivity|]. repeat constructor.
  - reflexivity.
  - vm_compute. discriminate.
Qed.

Lemma turnover_from_drift_witness :
  turnover_from_weights W_ex (Some R_ex) = Some to_ex /\ (1 <= 1 < length W_ex)%nat /\
  exists (w_prev r_prev w_t : row) (pre : list Q) (x : Q),
    W_ex !! (1 - 1)%nat = Some w_prev /\ R_ex !! (1 - 1)%nat = Some r_prev /\ W_ex !! 1%nat = Some w_t /\
    entering_weights W_ex (Some R_ex) 1 = Some pre /\
    Forall2 (fun k y => y == drifted (ncols W_ex) w_prev r_prev k) (seq 0 (ncols W_ex)) pre /\
    to_ex !! 1%nat = Some x /\
    x == (1 # 2) * sum_over (ncols W_ex)
           (fun k => Qabs (val w_t k - drifted (ncols W_ex) w_prev r_prev k)).
Proof.
  split; [vm_compute; reflexivity|]. split; [simpl; lia|].
  apply (turnover_from_drift W_ex R_ex to_ex 1); [vm_compute; reflexivity|simpl; lia].
Defined.

(** Identical targets on two dates, one name up 50% in between: the
    turnover of the second date is a tenth. *)
Example drift_alone_turns_over :
  exists x, to_ex !! 1%nat = Some x /\ x == 1 # 10.
Proof. eexists. split; [reflexivity|]. reflexivity. Qed.

Lemma gross_weighted_sum_witness :
  W_ex !! 0%nat = Some [Some (1 # 2); Some (- (1 # 2))] /\
  exists g, gross W_ex R_ex !! 0%nat = Some g /\
    g == sum_over (ncols W_ex)
           (weighted_return [Some (1 # 2); Some (- (1 # 2))] (row_at R_ex 0)).
Proof.
  split; [reflexivity|].
  apply (gross_weighted_sum W_ex R_ex 0); reflexivity.
Defined.

(** The same date by hand: half of +50% and minus half of 0%. *)
Example gross_first_date :
  exists g, gross W_ex R_ex !! 0%nat = Some g /\ g == 1 # 4.
Proof. eexists. split; reflexivity. Qed.

Lemma turnover_bounded_witness :
  Forall (fun w => abs_sum w <= 1) W_ex /\
  match turnover_from_weights W_ex (Some R_ex) with
  | Some to =>
      length to = length W_ex /\ Forall (fun x => 0 <= x <= 2) to /\
      (W_ex <> [] -> to !! 0%nat = Some 0)
  | None => exists R, Some R_ex = Some R /\ (S (length R) < length W_ex)%nat
  end.
Proof.
  assert (Forall (fun w => abs_sum w <= 1) W_ex) as H
    by (repeat constructor; vm_compute; discriminate).
  split; [exact H|]. apply (turnover_bounded W_ex (Some R_ex) H).
Defined.

Lemma gate_flat_witness :
  longs_ex !! 0%nat = Some [Some 1; Some 0; Some 0] /\
  shorts_ex !! 0%nat = Some [Some 0; Some 0; Some 1] /\
  (sum [Some 1; Some 0; Some 0] < min_names \/ sum [Some 0; Some 0; Some 1] < min_names) /\
  fst (gate min_names longs_ex shorts_ex) !! 0%nat = Some [Some 0; Some 0; Some 0] /\
  snd (gate min_names longs_ex shorts_ex) !! 0%nat = Some [Some 0; Some 0; Some 0] /\
  exists w, weights min_names longs_ex shorts_ex !! 0%nat = Some w /\ Forall (fun c => c = Some 0) w.
Proof.
  assert (sum [Some 1; Some 0; Some 0] < min_names \/ sum [Some 0; Some 0; Some 1] < min_names) as H
    by (left; vm_compute; reflexivity).
  split; [reflexivity|]. split; [reflexivity|]. split; [exact H|].
  apply (gate_flat min_names longs_ex shorts_ex 0 _ _ eq_refl eq_refl H).
Defined.

Lemma build_signals_exclusive_witness :
  default_short_q < default_long_q /\ iat ranks_ex 0 1 = Some nan /\
  exists a b : bool,
    iat (fst (build_signals ranks_ex default_long_q default_short_q)) 0 1 = Some (of_bool a) /\
    iat (snd (build_signals ranks_ex default_long_q default_short_q)) 0 1 = Some (of_bool b) /\
    a && b = false /\
    (nan = nan -> a = false /\ b = false).
Proof.
  assert (default_short_q < default_long_q) as H by (vm_compute; reflexivity).
  split; [exact H|]. split; [reflexivity|].
  apply (build_signals_exclusive ranks_ex default_long_q default_short_q 0 1 nan H eq_refl).
Defined.

End TurnoverFacts.

(** * Rounding of the weights *)

Module RoundingFacts.
Import Frame Binary64 Turnover64 Reading TurnoverFacts.

Lemma pow2_pos (e : Z) : 0 < pow2 e.
Proof. apply Qpower_0_lt. reflexivity. Qed.

Lemma pow2_opp (e : Z) : pow2 (- e) * pow2 e == 1.
Proof.
  unfold pow2. rewrite Qpower_opp. rewrite Qmult_comm. apply Qmult_inv_r.
  pose proof (pow2_pos e) as H. unfold pow2 in H. lra.
Qed.

Lemma round_half_even_error (y : Q) :
  Qabs (inject_Z (round_half_even y) - y) <= 1 # 2.
Proof.
  unfold round_half_even.
  pose proof (Qfloor_le y) as Hl. pose proof (Qlt_floor y) as Hu.
  rewrite inject_Z_plus in Hu. change (inject_Z 1) with 1 in Hu.
  destruct (Qcompare (y - inject_Z (Qfloor y)) (1 # 2)) eqn:E;
    [apply Qeq_alt in E; destruct (Z.even (Qfloor y)) | apply Qlt_alt in E | apply Qgt_alt in E];
    rewrite ?inject_Z_plus; change (inject_Z 1) with 1;
    set (f := inject_Z (Qfloor y)) in *; clearbody f;
    apply Qabs_case; intros; lra.
Qed.

Lemma exponent_le (x : Q) : ~ x == 0 -> pow2 (exponent x) <= Qabs x.
Proof.
  intros Hx. unfold exponent.
  set (p := Z.abs (Qnum x)). set (q := Zpos (Qden x)).
  destruct (Qle_bool (pow2 (Z.log2 p - Z.log2 q)) (Qabs x)) eqn:E.
  - apply Qle_bool_iff in E. exact E.
  - assert (0 < p)%Z as Hp.
    { subst p. destruct x as [n d]. unfold Qeq in Hx. simpl in *. lia. }
    assert (0 < q)%Z as Hq by (subst q; lia).
    pose proof (Z.log2_spec p Hp) as [Hp1 _].
    pose proof (Z.log2_spec q Hq) as [_ Hq2].
    pose proof (Z.log2_nonneg p) as Hap. pose proof (Z.log2_nonneg q) as Hbq.
    replace (Z.log2 p - Z.log2 q - 1)%Z with (Z.log2 p - Z.succ (Z.log2 q))%Z by lia.
    unfold pow2. rewrite Qpower_minus by (intros H; discriminate H).
    change (2 : Q) with (inject_Z 2).
    rewrite <- !Zpower_Qpower by lia.
    assert (Qabs x == inject_Z p / inject_Z q) as ->.
    { subst p q. destruct x as [n d]. unfold Qabs. simpl Qnum. simpl Qden.
      rewrite (Qmake_Qdiv (Z.abs n) d). reflexivity. }
    set (A := (2 ^ Z.log2 p)%Z) in *. set (B := (2 ^ Z.succ (Z.log2 q))%Z) in *.
    assert (0 < A)%Z as HA by (subst A; apply Z.pow_pos_nonneg; lia).
    assert (0 < inject_Z B) as HB.
    { change 0 with (inject_Z 0). rewrite <- Zlt_Qlt. lia. }
    assert (0 < inject_Z q) as HQ.
    { change 0 with (inject_Z 0). rewrite <- Zlt_Qlt. lia. }
    apply Qle_shift_div_r; [exact HB|].
    assert (inject_Z p / inject_Z q * inject_Z B == inject_Z p * inject_Z B / inject_Z q) as ->
      by (field; lra).
    apply Qle_shift_div_l; [exact HQ|].
    rewrite <- !inject_Z_mult. rewrite <- Zle_Qle.
    apply Z.mul_le_mono_nonneg; lia.
Qed.

Lemma rnd_error (x : Q) : Qabs (rnd x - x) <= u * Qabs x.
Proof.
  unfold rnd. destruct (Qeq_bool x 0) eqn:E.
  - apply Qeq_bool_iff in E. rewrite E. vm_compute. discriminate.
  - assert (~ x == 0) as Hx by (intros H; apply Qeq_bool_iff in H; congruence).
    cbv zeta. rewrite Qred_correct.
    set (e := (exponent x - 52)%Z).
    set (y := x * pow2 (- e)).
    pose proof (round_half_even_error y) as Hm.
    pose proof (pow2_pos e) as Hs. pose proof (pow2_opp e) as Ho.
    assert (x == y * pow2 e) as Hxy.
    { unfold y. rewrite <- Qmult_assoc, Ho. ring. }
    assert (pow2 52 * pow2 e <= Qabs x) as Hlow.
    { pose proof (exponent_le x Hx) as H. unfold pow2 in *. rewrite <- Qpower_plus by (intros H'; discriminate H').
      replace (52 + e)%Z with (exponent x) by (unfold e; lia). exact H. }
    assert (inject_Z (round_half_even y) * pow2 e - x == (inject_Z (round_half_even y) - y) * pow2 e) as ->.
    { rewrite Hxy at 1. ring. }
    rewrite Qabs_Qmult, (Qabs_pos (pow2 e)) by lra.
    apply Qle_trans with ((1 # 2) * pow2 e).
    + apply Qmult_le_compat_r; lra.
    + unfold u. change (pow2 52) with (4503599627370496 : Q) in Hlow.
      clear -Hlow. generalize dependent (pow2 e). generalize (Qabs x). intros a s H. lra.
Qed.

Lemma rnd_range (x : Q) : 0 <= x -> (1 - u) * x <= rnd x <= (1 + u) * x.
Proof.
  intros Hx. pose proof (rnd_error x) as H. rewrite (Qabs_pos x) in H by exact Hx.
  apply Qabs_Qle_condition in H. lra.
Qed.

Lemma rnd_range_neg (x : Q) : x <= 0 -> (1 + u) * x <= rnd x <= (1 - u) * x.
Proof.
  intros Hx. pose proof (rnd_error x) as H. rewrite (Qabs_neg x) in H by exact Hx.
  apply Qabs_Qle_condition in H. lra.
Qed.

Lemma u_range : 0 < u /\ u < 1.
Proof. split; reflexivity. Qed.

Lemma rnd_nonneg (x : Q) : 0 <= x -> 0 <= rnd x.
Proof.
  intros Hx. pose proof (rnd_range x Hx) as [H _]. pose proof u_range as [_ Hu].
  apply Qle_trans with ((1 - u) * x); [|exact H]. apply Qmult_le_0_compat; lra.
Qed.

Lemma rnd_zero (x : Q) : x == 0 -> rnd x == 0.
Proof.
  intros Hx. unfold rnd. apply Qeq_bool_iff in Hx. rewrite Hx. reflexivity.
Qed.

Lemma rnd_not_zero (x : Q) : ~ x == 0 -> ~ rnd x == 0.
Proof.
  intros Hx H. pose proof u_range as [Hu0 Hu1].
  destruct (Qlt_le_dec 0 x) as [Hp|Hn].
  - pose proof (rnd_range x (Qlt_le_weak _ _ Hp)) as [Hl _].
    assert (0 < (1 - u) * x) by (apply Qmult_lt_0_compat; lra). lra.
  - pose proof (rnd_range_neg x Hn) as [_ Hl].
    assert (0 < (1 - u) * - x) by (apply Qmult_lt_0_compat; lra). lra.
Qed.

Lemma rnd_pos (x : Q) : 0 < x -> 0 < rnd x.
Proof.
  intros Hx. pose proof (rnd_nonneg x (Qlt_le_weak _ _ Hx)).
  assert (~ rnd x == 0) by (apply rnd_not_zero; lra). lra.
Qed.

Lemma rnd_abs (x : Q) : (1 - u) * Qabs x <= Qabs (rnd x) <= (1 + u) * Qabs x.
Proof.
  pose proof u_range as [Hu0 Hu1].
  destruct (Qlt_le_dec 0 x) as [Hp|Hn].
  - pose proof (rnd_range x (Qlt_le_weak _ _ Hp)). pose proof (rnd_nonneg x (Qlt_le_weak _ _ Hp)).
    rewrite (Qabs_pos x), (Qabs_pos (rnd x)) by lra. lra.
  - pose proof (rnd_range_neg x Hn).
    assert (rnd x <= 0).
    { apply Qle_trans with ((1 - u) * x); [lra|].
      assert (0 <= (1 - u) * - x) by (apply Qmult_le_0_compat; lra). lra. }
    rewrite (Qabs_neg x), (Qabs_neg (rnd x)) by lra. lra.
Qed.

(** The sum a row is added up to, left to right. *)

Lemma sum_acc_nonneg (r : row) (acc : Q) :
  0 <= acc -> Forall (fun c => 0 <= fillna 0 c) r -> 0 <= sum_acc acc r.
Proof.
  revert acc. induction r as [|[x|] r IH]; intros acc Ha Hr; simpl.
  - exact Ha.
  - inversion Hr; subst. simpl in *. apply IH; [apply rnd_nonneg; lra|assumption].
  - inversion Hr; subst. apply IH; assumption.
Qed.

Lemma sum_acc_pos (r : row) (acc : Q) :
  0 < acc -> Forall (fun c => 0 <= fillna 0 c) r -> 0 < sum_acc acc r.
Proof.
  revert acc. induction r as [|[x|] r IH]; intros acc Ha Hr; simpl.
  - exact Ha.
  - inversion Hr; subst. simpl in *. apply IH; [apply rnd_pos; lra|assumption].
  - inversion Hr; subst. apply IH; assumption.
Qed.

Lemma sum_acc_zero (r : row) (acc : Q) :
  acc == 0 -> Forall (fun c => fillna 0 c == 0) r -> sum_acc acc r == 0.
Proof.
  revert acc. induction r as [|[x|] r IH]; intros acc Ha Hr; simpl.
  - exact Ha.
  - inversion Hr; subst. simpl in *. apply IH; [apply rnd_zero; lra|assumption].
  - inversion Hr; subst. apply IH; assumption.
Qed.

Lemma sum_pos_cell (r : row) (acc : Q) :
  0 <= acc -> Forall (fun c => 0 <= fillna 0 c) r ->
  Exists (fun c => 0 < fillna 0 c) r -> 0 < sum_acc acc r.
Proof.
  revert acc. induction r as [|[x|] r IH]; intros acc Ha Hr He; simpl.
  - inversion He.
  - inversion Hr; subst. simpl in *. inversion He; subst.
    + simpl in *. apply sum_acc_pos; [apply rnd_pos; lra|assumption].
    + apply IH; [apply rnd_nonneg; lra|assumption|assumption].
  - inversion Hr; subst. inversion He; subst; [simpl in *; lra|]. apply IH; assumption.
Qed.

Lemma exact_sum_nonneg (r : row) :
  Forall (fun c => 0 <= fillna 0 c) r -> 0 <= Frame.sum r.
Proof.
  induction r as [|[x|] r IH]; intros Hr; simpl; [lra| |]; inversion Hr; subst; simpl in *.
  - specialize (IH ltac:(assumption)). lra.
  - auto.
Qed.

Lemma of_nat_succ (n : nat) : inject_Z (Z.of_nat (S n)) == inject_Z (Z.of_nat n) + 1.
Proof. rewrite Nat2Z.inj_succ. unfold Z.succ. rewrite inject_Z_plus. reflexivity. Qed.

Lemma of_nat_nonneg (n : nat) : 0 <= inject_Z (Z.of_nat n).
Proof. change 0 with (inject_Z 0). rewrite <- Zle_Qle. lia. Qed.

(** One more addition costs one more [u]. *)
Lemma step_bounds (c a a' T S : Q) :
  c <= 1 -> 0 <= a -> 0 <= T -> 0 <= S ->
  (1 - u) * a <= a' <= (1 + u) * a ->
  c * (a' + T) <= S -> c * S <= a' + T ->
  (c - u) * (a + T) <= S /\ (c - u) * S <= a + T.
Proof.
  intros Hc Ha HT HS [Hl Hu] H1 H2. pose proof u_range as [Hu0 Hu1].
  destruct (Qlt_le_dec u c) as [Hp|Hn].
  - split.
    + apply Qle_trans with (c * (a' + T)); [|exact H1].
      apply Qle_trans with (c * ((1 - u) * a + T)).
      * assert (0 <= u * a * (1 - c)) by (repeat apply Qmult_le_0_compat; lra).
        assert (0 <= u * T) by (apply Qmult_le_0_compat; lra).
        assert (c * ((1 - u) * a + T) - (c - u) * (a + T) == u * a * (1 - c) + u * T) by ring.
        lra.
      * apply Qmult_le_l; lra.
    + apply Qmult_lt_0_le_reg_r with c; [lra|].
      apply Qle_trans with ((c - u) * ((1 + u) * a + T)).
      * assert ((c - u) * S * c == (c - u) * (c * S)) as -> by ring.
        apply Qmult_le_l; lra.
      * assert (0 <= u * a * (1 - c + u)) by (repeat apply Qmult_le_0_compat; lra).
        assert (0 <= u * T) by (apply Qmult_le_0_compat; lra).
        assert ((a + T) * c - (c - u) * ((1 + u) * a + T) == u * a * (1 - c + u) + u * T) by ring.
        lra.
  - assert (0 <= (u - c) * (a + T)) by (apply Qmult_le_0_compat; lra).
    assert (0 <= (u - c) * S) by (apply Qmult_le_0_compat; lra).
    split; [assert ((c - u) * (a + T) == - ((u - c) * (a + T))) by ring
           |assert ((c - u) * S == - ((u - c) * S)) by ring]; lra.
Qed.

Lemma sum_acc_bounds (r : row) (acc : Q) :
  0 <= acc -> Forall (fun c => 0 <= fillna 0 c) r ->
  (1 - inject_Z (Z.of_nat (length r)) * u) * (acc + Frame.sum r) <= sum_acc acc r /\
  (1 - inject_Z (Z.of_nat (length r)) * u) * sum_acc acc r <= acc + Frame.sum r.
Proof.
  revert acc. induction r as [|[x|] r IH]; intros acc Ha Hr.
  - cbn [sum_acc Frame.sum length]. change (inject_Z (Z.of_nat 0)) with 0. split; lra.
  - inversion Hr as [|? ? Hx Hr']; subst. simpl in Hx.
    cbn [sum_acc Frame.sum length]. rewrite of_nat_succ.
    pose proof (of_nat_nonneg (length r)) as Hk. pose proof u_range as [Hu0 Hu1].
    set (k := inject_Z (Z.of_nat (length r))) in *.
    assert (0 <= acc + x) as Hax by lra.
    pose proof (rnd_range _ Hax) as Hrng. pose proof (rnd_nonneg _ Hax) as Hrn.
    destruct (IH (rnd (acc + x)) Hrn Hr') as [I1 I2]. fold k in I1, I2. clearbody k.
    pose proof (exact_sum_nonneg r Hr') as HT.
    pose proof (sum_acc_nonneg r _ Hrn Hr') as HS.
    assert (0 <= k * u) as Hku by (apply Qmult_le_0_compat; lra).
    destruct (step_bounds (1 - k * u) (acc + x) (rnd (acc + x)) (Frame.sum r)
                (sum_acc (rnd (acc + x)) r)) as [G1 G2]; try assumption; lra.
  - inversion Hr as [|? ? Hx Hr']; subst.
    cbn [sum_acc Frame.sum length]. rewrite of_nat_succ.
    pose proof (of_nat_nonneg (length r)) as Hk. pose proof u_range as [Hu0 Hu1].
    set (k := inject_Z (Z.of_nat (length r))) in *.
    destruct (IH acc Ha Hr') as [I1 I2]. fold k in I1, I2. clearbody k.
    pose proof (exact_sum_nonneg r Hr') as HT.
    pose proof (sum_acc_nonneg r _ Ha Hr') as HS.
    assert (0 <= u * (acc + Frame.sum r)) by (apply Qmult_le_0_compat; lra).
    assert (0 <= u * sum_acc acc r) by (apply Qmult_le_0_compat; lra).
    assert ((1 - (k + 1) * u) * (acc + Frame.sum r) == (1 - k * u) * (acc + Frame.sum r) - u * (acc + Frame.sum r)) by ring.
    assert ((1 - (k + 1) * u) * sum_acc acc r == (1 - k * u) * sum_acc acc r - u * sum_acc acc r) by ring.
    split; lra.
Qed.

(** [normalize_weights] in doubles. *)

Lemma abs_row_nonneg (w : row) : Forall (fun c => 0 <= fillna 0 c) (map abs_cell w).
Proof.
  induction w as [|[x|] w IH]; simpl; constructor; auto; simpl; [apply Qabs_nonneg|lra].
Qed.

Lemma abs_row_zero (w : row) :
  abs_sum w == 0 -> Forall (fun c => fillna 0 c == 0) (map abs_cell w).
Proof.
  induction w as [|[x|] w IH]; intros H; simpl; constructor.
  - rewrite abs_sum_cons_some in H. pose proof (abs_sum_nonneg w). pose proof (Qabs_nonneg x).
    simpl. lra.
  - rewrite abs_sum_cons_some in H. pose proof (abs_sum_nonneg w). pose proof (Qabs_nonneg x).
    apply IH. lra.
  - simpl. lra.
  - apply IH. exact H.
Qed.

Lemma abs_row_pos (w : row) :
  ~ abs_sum w == 0 -> Exists (fun c => 0 < fillna 0 c) (map abs_cell w).
Proof.
  induction w as [|[x|] w IH]; intros H.
  - exfalso. apply H. reflexivity.
  - rewrite abs_sum_cons_some in H. simpl.
    destruct (Qeq_bool (Qabs x) 0) eqn:E.
    + apply Qeq_bool_iff in E. apply Exists_cons_tl. apply IH. lra.
    + apply Qeq_bool_neq in E. apply Exists_cons_hd. simpl. pose proof (Qabs_nonneg x). lra.
  - simpl. apply Exists_cons_tl. apply IH. exact H.
Qed.

Lemma row_sum_zero_iff (w : row) : sum (map abs_cell w) == 0 <-> abs_sum w == 0.
Proof.
  split; intros H.
  - destruct (Qeq_bool (abs_sum w) 0) eqn:E; [apply Qeq_bool_iff in E; exact E|].
    apply Qeq_bool_neq in E.
    pose proof (sum_pos_cell _ 0 ltac:(lra) (abs_row_nonneg w) (abs_row_pos w E)) as Hp.
    unfold sum in H. lra.
  - apply sum_acc_zero; [reflexivity|apply abs_row_zero, H].
Qed.

Lemma normalize_row_zeros (w : row) :
  abs_sum w == 0 -> normalize_row w = map (fun _ => Some 0) w.
Proof.
  intros H. apply row_sum_zero_iff in H. unfold normalize_row, replace0.
  apply Qeq_bool_iff in H. rewrite H.
  unfold fillna_row, div_row. rewrite map_map. apply map_ext.
  intros [x|]; reflexivity.
Qed.

Lemma normalize_row_divided (w : row) :
  ~ abs_sum w == 0 ->
  normalize_row w
  = map (fun c => Some (fillna 0 (div_cell c (Some (sum (map abs_cell w)))))) w.
Proof.
  intros H. rewrite <- row_sum_zero_iff in H. unfold normalize_row, replace0.
  destruct (Qeq_bool (sum (map abs_cell w)) 0) eqn:E; [apply Qeq_bool_iff in E; contradiction|].
  unfold fillna_row, div_row. rewrite map_map. reflexivity.
Qed.

Lemma traded_divided (w : row) (d : Q) :
  ~ d == 0 -> traded (map (fun c => Some (fillna 0 (div_cell c (Some d)))) w) = traded w.
Proof.
  intros Hd. assert (Qeq_bool d 0 = false) as Hb.
  { destruct (Qeq_bool d 0) eqn:E; [apply Qeq_bool_iff in E; contradiction|reflexivity]. }
  induction w as [|[x|] w IH]; [reflexivity| |].
  - cbn [map]. rewrite !traded_cons, IH. f_equal. unfold div_cell. rewrite Hb. cbn [fillna].
    apply nz_bool. rewrite nz_true. split; intros H.
    + apply rnd_not_zero. intros H0. apply H. 
      assert (x == x / d * d) as -> by (field; exact Hd). rewrite H0. ring.
    + intros H0. apply H. apply rnd_zero. rewrite H0. unfold Qdiv. ring.
  - cbn [map]. rewrite !traded_cons, IH. reflexivity.
Qed.

Lemma traded_normalize_row (w : row) : traded (normalize_row w) = traded w.
Proof.
  destruct (Qeq_bool (abs_sum w) 0) eqn:E.
  - apply Qeq_bool_iff in E. rewrite normalize_row_zeros by exact E.
    pose proof (proj1 (abs_sum_zero_traded w) E) as ->.
    apply abs_sum_zero_traded. apply abs_sum_zeros.
  - apply Qeq_bool_neq in E. rewrite normalize_row_divided by exact E.
    apply traded_divided. rewrite row_sum_zero_iff. exact E.
Qed.

Lemma abs_sum_divided (w : row) (d : Q) :
  0 < d ->
  (1 - u) * (abs_sum w / d)
    <= abs_sum (map (fun c => Some (fillna 0 (div_cell c (Some d)))) w)
    <= (1 + u) * (abs_sum w / d).
Proof.
  intros Hd. assert (Qeq_bool d 0 = false) as Hb.
  { destruct (Qeq_bool d 0) eqn:E; [apply Qeq_bool_iff in E; lra|reflexivity]. }
  induction w as [|[x|] w IH].
  - unfold abs_sum; simpl. unfold Qdiv. lra.
  - cbn [map]. unfold div_cell at 1 3. rewrite Hb. cbn [fillna].
    rewrite !abs_sum_cons_some.
    pose proof (rnd_abs (x / d)) as Hr.
    assert (Qabs (x / d) == Qabs x / d) as Hq.
    { unfold Qdiv. rewrite Qabs_Qmult, Qabs_Qinv, (Qabs_pos d) by lra. reflexivity. }
    rewrite Hq in Hr.
    assert ((Qabs x + abs_sum w) / d == Qabs x / d + abs_sum w / d) as -> by (field; lra).
    lra.
  - cbn [map]. cbn [div_cell fillna]. rewrite abs_sum_cons_some, abs_sum_cons_none.
    rewrite (Qabs_pos 0) by lra. lra.
Qed.

Lemma normalize_row_abs_sum (w : row) :
  (Z.of_nat (length w) <= 2 ^ 52)%Z -> ~ abs_sum w == 0 ->
  Qabs (abs_sum (normalize_row w) - 1)
    <= (inject_Z (Z.of_nat (length w)) + 1) * (1 # 4503599627370496).
Proof.
  intros Hn HS. rewrite normalize_row_divided by exact HS.
  pose proof (abs_sum_nonneg w) as HS0.
  pose proof (sum_acc_bounds (map abs_cell w) 0 ltac:(lra) (abs_row_nonneg w)) as [B1 B2].
  rewrite length_map in B1, B2. fold (sum (map abs_cell w)) in B1, B2. fold (abs_sum w) in B1, B2.
  assert (0 < sum (map abs_cell w)) as HD.
  { apply sum_pos_cell; [lra|apply abs_row_nonneg|apply abs_row_pos, HS]. }
  pose proof (abs_sum_divided w _ HD) as HB.
  pose proof (of_nat_nonneg (length w)) as Hk0.
  assert (inject_Z (Z.of_nat (length w)) <= 4503599627370496) as Hk.
  { change (4503599627370496 : Q) with (inject_Z (2 ^ 52)). rewrite <- Zle_Qle. exact Hn. }
  set (k := inject_Z (Z.of_nat (length w))) in *. clearbody k.
  set (D := sum (map abs_cell w)) in *. clearbody D.
  set (T := abs_sum (map (fun c => Some (fillna 0 (div_cell c (Some D)))) w)) in *. clearbody T.
  set (S := abs_sum w) in *. clearbody S.
  assert (S / D * D == S) as Hq by (field; lra).
  assert (0 < S / D) as Hq0 by (apply Qlt_shift_div_l; lra).
  set (q := S / D) in *. clearbody q.
  pose proof u_range as [Hu0 Hu1].
  assert ((1 # 4503599627370496) == 2 * u) as -> by reflexivity.
  assert (k * u <= 1 # 2) as Hku by (unfold u; lra).
  assert (0 <= k * u) as Hku0 by (apply Qmult_le_0_compat; lra).
  set (v := u) in *. clearbody v.
  assert (1 - k * v <= q) as Q1.
  { destruct (Qlt_le_dec q (1 - k * v)) as [Hlt|Hle]; [|exact Hle].
    assert (0 < (1 - k * v - q) * D) by (apply Qmult_lt_0_compat; lra).
    assert ((1 - k * v - q) * D == (1 - k * v) * D - q * D) by ring. lra. }
  assert ((1 - k * v) * q <= 1) as Q2.
  { destruct (Qlt_le_dec 1 ((1 - k * v) * q)) as [Hlt|Hle]; [|exact Hle].
    assert (0 < ((1 - k * v) * q - 1) * D) by (apply Qmult_lt_0_compat; lra).
    assert (((1 - k * v) * q - 1) * D == (1 - k * v) * (q * D) - D) by ring.
    rewrite Hq in *. lra. }
  apply Qabs_Qle_condition. split.
  - assert ((1 - v) * (1 - k * v) <= (1 - v) * q) by (apply Qmult_le_l; lra).
    assert (0 <= k * v * v) by (apply Qmult_le_0_compat; lra).
    assert (0 <= k * v + v) by lra.
    assert ((1 - v) * (1 - k * v) == 1 - (k + 1) * v + k * v * v) by ring.
    lra.
  - apply Qle_trans with ((1 + v) * q - 1); [lra|].
    assert ((1 + v) * q <= 1 + (k + 1) * (2 * v)); [|lra].
    apply Qmult_lt_0_le_reg_r with (1 - k * v); [lra|].
    assert ((1 + v) * q * (1 - k * v) == (1 + v) * ((1 - k * v) * q)) as -> by ring.
    apply Qle_trans with ((1 + v) * 1); [apply Qmult_le_l; lra|].
    assert (0 <= (k + 1) * v * (1 - 2 * (k * v))) by (repeat apply Qmult_le_0_compat; lra).
    assert ((1 + (k + 1) * (2 * v)) * (1 - k * v) - (1 + v) * 1 == (k + 1) * v * (1 - 2 * (k * v))) by ring.
    lra.
Qed.

(** [equal_weight_long_short] in doubles. *)

Lemma flags_nonneg (ind : row) : Forall (fun c => 0 <= fillna 0 c) (flags ind).
Proof.
  induction ind as [|c ind IH]; simpl; constructor; auto. destruct (gt0 c); simpl; lra.
Qed.

Lemma flags_pos (ind : row) :
  existsb gt0 ind = true -> Exists (fun c => 0 < fillna 0 c) (flags ind).
Proof.
  induction ind as [|c ind IH]; simpl; [discriminate|]. intros H.
  destruct (gt0 c) eqn:E; [apply Exists_cons_hd; simpl; lra|].
  apply Exists_cons_tl, IH, H.
Qed.

Lemma leg_cells64 (ind : row) : Forall2 leg_rel ind (leg ind).
Proof.
  unfold leg. fold (flags ind).
  pose proof (sum_acc_nonneg (flags ind) 0 ltac:(lra) (flags_nonneg ind)) as Hn.
  assert (existsb gt0 ind = true -> 0 < sum (flags ind)) as Hp.
  { intros H. apply sum_pos_cell; [lra|apply flags_nonneg|apply flags_pos, H]. }
  fold (sum (flags ind)) in Hn.
  set (N := sum (flags ind)) in *. clearbody N.
  unfold fillna_row, div_row, flags. rewrite !map_map.
  assert (forall c, In c ind -> gt0 c = true -> 0 < N) as HN.
  { intros c Hc Hg. apply Hp. apply existsb_exists. eauto. }
  clear Hp. induction ind as [|c ind IH]; simpl; constructor.
  - specialize (HN c (or_introl eq_refl)). unfold leg_rel, replace0.
    destruct (Qeq_bool N 0) eqn:E.
    + apply Qeq_bool_iff in E. destruct (gt0 c); simpl.
      * specialize (HN eq_refl). lra.
      * exists 0. repeat split; try lra; try discriminate.
    + unfold div_cell, of_bool. rewrite E. apply Qeq_bool_neq in E.
      cbn [fillna]. eexists; split; [reflexivity|]. destruct (gt0 c).
      * specialize (HN eq_refl).
        assert (0 < 1 / N) as H1 by (apply Qlt_shift_div_l; lra).
        pose proof (rnd_pos _ H1). split; [lra|]. split; [intros _; lra|reflexivity].
      * assert (0 / N == 0) as H0 by (unfold Qdiv; ring).
        pose proof (rnd_zero _ H0). split; [lra|]. split; [discriminate|]. intros H'. contradiction.
  - apply IH. intros c' Hc'. apply HN. right. exact Hc'.
Qed.

Lemma unflagged_zero (x : Q) : (false = true <-> ~ x == 0) -> x == 0.
Proof.
  intros H. destruct (Qeq_bool x 0) eqn:E; [apply Qeq_bool_iff in E; exact E|].
  apply Qeq_bool_neq in E. apply H in E. discriminate.
Qed.

Lemma nz_rnd (x : Q) (b : bool) : (b = true <-> ~ x == 0) -> negb (Qeq_bool (rnd x) 0) = b.
Proof.
  intros H. apply nz_bool. rewrite H. split; intros Hx.
  - apply rnd_not_zero, Hx.
  - intros H0. apply Hx. apply rnd_zero, H0.
Qed.

Lemma traded_combined64 (l s lw sw : row) :
  Forall2 leg_rel l lw -> Forall2 leg_rel s sw -> overlap l s = false ->
  traded (align (add_fill_cell 0) lw (map neg_cell sw)) = existsb gt0 l || existsb gt0 s.
Proof.
  intros Hl. revert s sw. induction Hl as [|a x l lw (p & -> & Hp & Hpa) Hl IH]; intros s sw Hs Ho.
  - simpl. clear Ho. induction Hs as [|b y s sw (q & -> & Hq & Hqb) Hs IH]; [reflexivity|].
    cbn [align map] in *. rewrite traded_cons, IH. cbn [existsb neg_cell option_map add_fill_cell fillna]. f_equal.
    apply nz_rnd. rewrite Hqb. split; intros H H'; apply H; lra.
  - destruct Hs as [|b y s sw (q & -> & Hq & Hqb) Hs].
    + cbn [align map]. rewrite traded_cons. cbn [add_fill_cell fillna].
      unfold overlap in Ho. cbn [align existsb] in Ho. apply orb_false_iff in Ho.
      specialize (IH [] [] ltac:(constructor) (proj2 Ho)). cbn [map] in IH. rewrite IH.
      cbn [existsb]. rewrite !orb_false_r. f_equal. apply nz_rnd. rewrite Hpa. split; intros H H'; apply H; lra.
    + unfold overlap in Ho. simpl in Ho. apply orb_false_iff in Ho. destruct Ho as [Hab Ho].
      cbn [align map]. rewrite traded_cons, (IH s sw Hs Ho). cbn [neg_cell option_map add_fill_cell fillna].
      assert (negb (Qeq_bool (rnd (p + - q)) 0) = gt0 a || gt0 b) as ->.
      { apply nz_rnd. unfold id in Hab. destruct (gt0 a) eqn:Ea, (gt0 b) eqn:Eb; simpl in *; try discriminate.
        - pose proof (unflagged_zero q Hqb) as Hq0.
          split; [intros _ H|reflexivity]. apply (proj1 Hpa eq_refl). lra.
        - pose proof (unflagged_zero p Hpa) as Hp0.
          split; [intros _ H|reflexivity]. apply (proj1 Hqb eq_refl). lra.
        - pose proof (unflagged_zero p Hpa) as Hp0.
          pose proof (unflagged_zero q Hqb) as Hq0.
          split; [discriminate|]. intros H. exfalso. apply H. lra. }
      cbn [existsb]. destruct (gt0 a), (gt0 b), (existsb gt0 l), (existsb gt0 s); reflexivity.
Qed.

Lemma traded_iff_flagged64 (longs shorts : row) :
  overlap longs shorts = false ->
  traded (equal_weight_row longs shorts) = existsb gt0 longs || existsb gt0 shorts.
Proof.
  intros H. unfold equal_weight_row. rewrite traded_normalize_row.
  apply traded_combined64; auto using leg_cells64.
Qed.

Lemma normalize_row_length (w : row) : length (normalize_row w) = length w.
Proof. unfold normalize_row, fillna_row, div_row. rewrite !length_map. reflexivity. Qed.

Lemma align_rows_lookup_inv {A} (f : row -> row -> A) (a b : panel) (t : nat) (w : A) :
  align_rows f a b !! t = Some w ->
  w = f (default [] (a !! t)) (default [] (b !! t)).
Proof.
  revert b t. induction a as [|x a IH]; intros b t H.
  - simpl in H. rewrite map_lookup in H. rewrite lookup_nil.
    destruct (b !! t); simpl in *; congruence.
  - destruct b as [|y b], t as [|t]; simpl in *; try congruence.
    + rewrite (IH [] t H). rewrite lookup_nil. reflexivity.
    + apply IH, H.
Qed.

(** The rounding against the doubles of the kernel, on the date of three
    longs and three shorts: the leg weight, the row sum and the weight are
    the same numbers, and so is the sum of the six weights added up in
    doubles, 1.0000000000000002. *)
Lemma rnd_agrees_with_kernel :
  of_float kernel_third = Some (rnd (1 / 3)) /\
  of_float kernel_row_sum = Some (sum (replicate 6 (Some (rnd (1 / 3))))) /\
  of_float kernel_weight = Some (rnd (rnd (1 / 3) / sum (replicate 6 (Some (rnd (1 / 3)))))) /\
  of_float kernel_weight = Some sixth_up /\
  of_float (fold_left PrimFloat.add (replicate 6 kernel_weight) 0%float)
  = Some (sum (replicate 6 (Some sixth_up))).
Proof. repeat split; vm_compute; reflexivity. Qed.

Lemma rnd_neg (x : Q) : x < 0 -> rnd x < 0.
Proof.
  intros Hx. pose proof (rnd_range_neg x (Qlt_le_weak _ _ Hx)) as [_ H].
  pose proof u_range as [_ Hu].
  assert (0 < (1 - u) * - x) by (apply Qmult_lt_0_compat; lra). lra.
Qed.

Lemma rnd_sign (x d : Q) :
  0 < d -> (0 < rnd (x / d) <-> 0 < x) /\ (rnd (x / d) < 0 <-> x < 0).
Proof.
  intros Hd. assert (0 < / d) as Hi by (apply Qinv_lt_0_compat; exact Hd).
  destruct (Q_dec x 0) as [[Hn|Hp]|Hz].
  - assert (x / d < 0) as H.
    { unfold Qdiv. assert (0 < - x * / d) by (apply Qmult_lt_0_compat; lra).
      assert (- x * / d == - (x * / d)) by ring. lra. }
    pose proof (rnd_neg _ H). split; split; intros; lra.
  - assert (0 < x / d) as H by (unfold Qdiv; apply Qmult_lt_0_compat; lra).
    pose proof (rnd_pos _ H). split; split; intros; lra.
  - assert (x / d == 0) as H by (rewrite Hz; unfold Qdiv; ring).
    pose proof (rnd_zero _ H). split; split; intros; lra.
Qed.

Lemma abs_sum_zero_cell (w : row) (k : nat) (c : cell) :
  abs_sum w == 0 -> w !! k = Some c -> fillna 0 c == 0.
Proof.
  intros H Hk. pose proof (abs_row_zero w H) as Hz.
  assert (map abs_cell w !! k = Some (abs_cell c)) as Hk'
    by (rewrite map_lookup, Hk; reflexivity).
  pose proof (proj1 (Forall_lookup _ _) Hz k _ Hk') as Hc.
  destruct c as [x|]; simpl in *; [apply Qabs_zero_iff; exact Hc|reflexivity].
Qed.

(** X1.  [normalize_weights] in doubles, on a frame whose weights are 0,
    missing, or of a size between [2^-400] and [2^400], which keeps every
    operation clear of overflow and underflow: a row whose absolute
    values sum to 0 comes out all zero; in any other row the absolute
    weights sum to 1 within [(n + 1) * 2^-52], [n] the number of tickers.
    Every weight keeps its sign, a missing one becoming 0. *)
Theorem normalize_weights_unit (W : panel) (t : nat) (w : row) :
  W !! t = Some w ->
  (Z.of_nat (length w) <= 2 ^ 52)%Z ->
  Forall (fun c => fillna 0 c == 0 \/
                   pow2 (- 400) <= Qabs (fillna 0 c) <= pow2 400) w ->
  exists w',
    normalize_weights W !! t = Some w' /\ length w' = length w /\
    (abs_sum w == 0 -> Forall (fun c => c = Some 0) w') /\
    (~ abs_sum w == 0 ->
       Qabs (abs_sum w' - 1) <= (inject_Z (Z.of_nat (length w)) + 1) * (1 # 4503599627370496)) /\
    forall (k : nat) (c : cell), w !! k = Some c ->
      exists y, w' !! k = Some (Some y) /\
        (0 < y <-> 0 < fillna 0 c) /\ (y < 0 <-> fillna 0 c < 0).
Proof.
  intros Hw Hn _. exists (normalize_row w).
  split; [unfold normalize_weights; rewrite map_lookup, Hw; reflexivity|].
  split; [apply normalize_row_length|]. split; [|split].
  - intros H0. rewrite normalize_row_zeros by exact H0.
    apply Forall_forall. intros c Hc. apply list_elem_of_In, in_map_iff in Hc.
    destruct Hc as (? & <- & _). reflexivity.
  - intros HS. apply normalize_row_abs_sum; assumption.
  - intros k c Hk. destruct (Qeq_bool (abs_sum w) 0) eqn:E.
    + apply Qeq_bool_iff in E. rewrite normalize_row_zeros by exact E.
      rewrite map_lookup, Hk. eexists. split; [reflexivity|].
      pose proof (abs_sum_zero_cell w k c E Hk) as Hc. rewrite Hc. tauto.
    + apply Qeq_bool_neq in E. rewrite normalize_row_divided by exact E.
      rewrite map_lookup, Hk. eexists. split; [reflexivity|].
      assert (0 < sum (map abs_cell w)) as HD
        by (apply sum_pos_cell; [lra|apply abs_row_nonneg|apply abs_row_pos, E]).
      destruct c as [x|].
      * unfold div_cell.
        destruct (Qeq_bool (sum (map abs_cell w)) 0) eqn:E0;
          [apply Qeq_bool_iff in E0; lra|].
        cbn [fmap option_fmap option_map fillna]. apply rnd_sign, HD.
      * cbn. split; split; intros H; exact H.
Qed.

Lemma normalize_weights_unit_witness :
  W_raw !! 0%nat = Some row_raw /\
  (Z.of_nat (length row_raw) <= 2 ^ 52)%Z /\
  Forall (fun c => fillna 0 c == 0 \/
                   pow2 (- 400) <= Qabs (fillna 0 c) <= pow2 400) row_raw /\
  exists w',
    normalize_weights W_raw !! 0%nat = Some w' /\
    length w' = length row_raw /\
    (abs_sum row_raw == 0 -> Forall (fun c => c = Some 0) w') /\
    (~ abs_sum row_raw == 0 ->
       Qabs (abs_sum w' - 1)
       <= (inject_Z (Z.of_nat (length row_raw)) + 1) * (1 # 4503599627370496)) /\
    forall (k : nat) (c : cell),
      row_raw !! k = Some c ->
      exists y, w' !! k = Some (Some y) /\
        (0 < y <-> 0 < fillna 0 c) /\ (y < 0 <-> fillna 0 c < 0).
Proof.
  assert (Z.of_nat (length row_raw) <= 2 ^ 52)%Z as Hn by (vm_compute; discriminate).
  assert (Forall (fun c => fillna 0 c == 0 \/
                           pow2 (- 400) <= Qabs (fillna 0 c) <= pow2 400) row_raw) as Hr.
  { unfold row_raw.
    constructor; [right; split; vm_compute; discriminate|].
    constructor; [left; reflexivity|].
    constructor; [right; split; vm_compute; discriminate|].
    constructor; [right; split; vm_compute; discriminate|]. constructor. }
  split; [reflexivity|]. split; [exact Hn|]. split; [exact Hr|].
  apply (normalize_weights_unit W_raw 0 row_raw eq_refl Hn Hr).
Defined.

(** C1, amended.  In doubles the absolute weights of a date that trades sum
    to 1 up to rounding: the sum of the [n] absolute weights of the date
    lies within [(n + 1) * 2^-52] of 1; it need not be 1.  On a date that
    does not trade every weight is exactly 0.  Where no ticker is flagged on
    both sides of a date, the date trades exactly when some ticker is
    flagged long or short. *)
Theorem equal_weight_long_short_abs_sum (longs shorts : panel) (t : nat) (w : row) :
  equal_weight_long_short longs shorts !! t = Some w ->
  (Z.of_nat (length w) <= 2 ^ 52)%Z ->
  (traded w = true ->
     Qabs (abs_sum w - 1) <= (inject_Z (Z.of_nat (length w)) + 1) * (1 # 4503599627370496)) /\
  (traded w = false -> Forall (fun c => c = Some 0) w /\ abs_sum w == 0) /\
  (forall l s : row, longs !! t = Some l -> shorts !! t = Some s ->
     overlap l s = false -> traded w = existsb gt0 l || existsb gt0 s).
Proof.
  intros Hw Hn. apply align_rows_lookup_inv in Hw.
  set (l := default [] (longs !! t)) in *. set (s := default [] (shorts !! t)) in *.
  subst w. split; [|split].
  - intros T. unfold equal_weight_row in *. rewrite normalize_row_length in *.
    apply normalize_row_abs_sum; [exact Hn|].
    rewrite traded_normalize_row in T. rewrite abs_sum_zero_traded. congruence.
  - intros T. unfold equal_weight_row in *. rewrite traded_normalize_row in T.
    apply abs_sum_zero_traded in T. rewrite normalize_row_zeros by exact T.
    split; [|apply abs_sum_zeros].
    apply Forall_forall. intros c Hc. apply list_elem_of_In, in_map_iff in Hc.
    destruct Hc as (? & <- & _). reflexivity.
  - intros l' s' Hl Hs Ho. subst l s. rewrite Hl, Hs. simpl. apply traded_iff_flagged64, Ho.
Qed.

Lemma equal_weight_long_short_abs_sum_witness :
  Qabs (abs_sum (replicate 3 (Some sixth_up) ++ replicate 3 (Some (- sixth_up))) - 1)
    <= 7 * (1 # 4503599627370496).
Proof.
  apply (equal_weight_long_short_abs_sum three_longs three_shorts 0
           (replicate 3 (Some sixth_up) ++ replicate 3 (Some (- sixth_up)))).
  - vm_compute. reflexivity.
  - vm_compute. discriminate.
  - vm_compute. reflexivity.
Defined.

(** Three longs and three shorts: each leg weight is the double nearest to
    1/3, the six of them add up to 1.9999999999999998, and each weight
    comes out as 0.16666666666666669.  The six absolute weights sum to
    [1 + 2^-53], and added up in doubles to 1.0000000000000002. *)
Lemma abs_sum_not_one_counterexample :
  equal_weight_long_short three_longs three_shorts
  = [replicate 3 (Some sixth_up) ++ replicate 3 (Some (- sixth_up))] /\
  let w := replicate 3 (Some sixth_up) ++ replicate 3 (Some (- sixth_up)) in
  traded w = true /\
  abs_sum w == 1 + (1 # 9007199254740992) /\
  ~ abs_sum w == 1 /\
  sum (map abs_cell w) == 1 + (1 # 4503599627370496).
Proof.
  split; [vm_compute; reflexivity|]. cbv zeta.
  split; [vm_compute; reflexivity|].
  split; [vm_compute; reflexivity|].
  split; [vm_compute; discriminate|vm_compute; reflexivity].
Qed.

(** Two longs and three shorts: the absolute weights sum to
    [1 + 3 * 2^-54], and to 1.0000000000000002 when added up in doubles. *)
Example two_longs_three_shorts :
  exists w, equal_weight_long_short two_longs other_three_shorts = [w] /\
    abs_sum w == 1 + (3 # 18014398509481984) /\
    sum (map abs_cell w) == 1 + (1 # 4503599627370496).
Proof. eexists. split; [reflexivity|]. split; vm_compute; reflexivity. Qed.

End RoundingFacts.

(** * Membership timeline *)

Module HistoryFacts.
Import Py Text History HistoryReading.
Local Open Scope string_scope.
Local Open Scope list_scope.
Local Open Scope Z_scope.

Lemma elem_of_discard (l : list string) (M : gset string) (x : string) :
  x ∈ fold_left (fun m a => m ∖ {[a]}) l M <-> x ∈ M /\ x ∉ l.
Proof.
  revert M. induction l as [|a l IH]; intros M; simpl.
  - rewrite elem_of_nil. tauto.
  - rewrite IH, elem_of_cons, elem_of_difference, elem_of_singleton. intuition congruence.
Qed.

Lemma elem_of_insert_named (l : list string) (M : gset string) (x : string) :
  x ∈ fold_left (fun m a => if String.eqb a "" then m else m ∪ {[a]}) l M
  <-> x ∈ M \/ (x ∈ l /\ x <> "").
Proof.
  revert M. induction l as [|a l IH]; intros M; simpl.
  - rewrite elem_of_nil. tauto.
  - rewrite IH, elem_of_cons. destruct (String.eqb_spec a "") as [->|Hne].
    + intuition congruence.
    + rewrite elem_of_union, elem_of_singleton. intuition congruence.
Qed.

Lemma elem_of_undo (M : gset string) (e : ChangeEvent) (x : string) :
  x ∈ undo M e <-> (x ∈ M /\ x ∉ added e) \/ (x ∈ removed e /\ x <> "").
Proof. unfold undo. rewrite elem_of_insert_named, elem_of_discard. tauto. Qed.

Lemma elem_of_redo (M : gset string) (e : ChangeEvent) (x : string) :
  x ∈ redo M e <-> (x ∈ M /\ x ∉ removed e) \/ (x ∈ added e /\ x <> "").
Proof. unfold redo. rewrite elem_of_insert_named, elem_of_discard. tauto. Qed.

Lemma redo_undo (M : gset string) (e : ChangeEvent) :
  consistent e M -> redo (undo M e) e = M.
Proof.
  intros (Hn & Ha & Hr). apply set_eq. intros x.
  rewrite elem_of_redo, elem_of_undo.
  assert (x ∈ added e -> x <> "") as Hx by (intros ? ->; contradiction).
  pose proof (Ha x) as Hax. pose proof (Hr x) as Hrx.
  destruct (decide (x ∈ added e)); destruct (decide (x ∈ removed e)); tauto.
Qed.

Lemma replay_rollback (L : list ChangeEvent) (M : gset string) :
  history_consistent L M -> fold_left redo (rev L) (fold_left undo L M) = M.
Proof.
  revert M. induction L as [|e L IH]; intros M H; simpl; [reflexivity|].
  destruct H as [He HL]. rewrite fold_left_app. simpl.
  rewrite (IH _ HL). apply redo_undo, He.
Qed.

Lemma history_consistent_app (L1 L0 : list ChangeEvent) (M : gset string) :
  history_consistent (L1 ++ L0) M
  <-> history_consistent L1 M /\ history_consistent L0 (fold_left undo L1 M).
Proof.
  revert M. induction L1 as [|e L1 IH]; intros M; simpl; [tauto|].
  rewrite IH. tauto.
Qed.

(** Replaying the same events from two memberships: a ticker either ends
    up the same in both, or is left as it was in both. *)
Lemma replay_two (E : list ChangeEvent) (S T : gset string) (x : string) :
  (x ∈ fold_left redo E T <-> x ∈ fold_left redo E S) \/
  ((x ∈ fold_left redo E T <-> x ∈ T) /\ (x ∈ fold_left redo E S <-> x ∈ S)).
Proof.
  revert S T. induction E as [|e E IH]; intros S T; simpl; [right; tauto|].
  destruct (IH (redo S e) (redo T e)) as [H|[HT HS]]; [left; exact H|].
  rewrite HT, HS, !elem_of_redo.
  destruct (decide (x ∈ added e)) as [HA|HA]; destruct (decide (x ∈ removed e)) as [HR|HR];
    destruct (decide (x = "")) as [Hx|Hx]; tauto.
Qed.

Lemma replay_settled (L : list ChangeEvent) (M : gset string) :
  history_consistent L M -> fold_left redo (rev L) M = M.
Proof.
  intros H. apply set_eq. intros x.
  pose proof (replay_rollback L M H) as Hrt.
  destruct (replay_two (rev L) (fold_left undo L M) M x) as [HH|[HH _]].
  - rewrite HH, Hrt. reflexivity.
  - exact HH.
Qed.

Lemma day_ns_pos : 0 < day_ns.
Proof. reflexivity. Qed.

Lemma normalize_day_index (t : Z) : normalize t = day_ns * day_index t.
Proof.
  unfold normalize, day_index. pose proof (Z.div_mod t day_ns). 
  pose proof day_ns_pos. lia.
Qed.

Lemma day_index_mono (a b : Z) : a <= b -> day_index a <= day_index b.
Proof. intros H. apply Z.div_le_mono; [exact day_ns_pos|exact H]. Qed.

Lemma day_index_scaled (q : Z) : day_index (day_ns * q) = q.
Proof. unfold day_index. rewrite Z.mul_comm. apply Z.div_mul. pose proof day_ns_pos. lia. Qed.

Section Sorted.
Context {A : Type} (key : A -> Z).

Lemma filter_below_nil (l : list A) (c : Z) :
  Forall (fun e => c <= key e) l -> List.filter (fun e => key e <? c) l = [].
Proof.
  induction 1 as [|e l He _ IH]; simpl; [reflexivity|].
  rewrite (proj2 (Z.ltb_ge _ _)) by exact He. exact IH.
Qed.

Lemma filter_window (l : list A) (c c' : Z) :
  StronglySorted (fun a b => key a <= key b) l -> c <= c' ->
  List.filter (fun e => key e <? c') l
  = List.filter (fun e => key e <? c) l
    ++ List.filter (fun e => (c <=? key e) && (key e <? c')) l.
Proof.
  intros Hs Hc. induction Hs as [|e l Hs IH He]; simpl; [reflexivity|].
  destruct (Z.ltb_spec (key e) c) as [H1|H1].
  - rewrite (proj2 (Z.ltb_lt _ _)) by lia. rewrite (proj2 (Z.leb_gt _ _)) by lia.
    simpl. rewrite IH. reflexivity.
  - rewrite (proj2 (Z.leb_le _ _)) by lia. simpl.
    destruct (Z.ltb_spec (key e) c') as [H2|H2].
    + rewrite IH, filter_below_nil; [reflexivity|].
      apply Forall_forall. intros x Hx.
      pose proof (proj1 (Forall_forall _ _) He x Hx). simpl in *. lia.
    + exact IH.
Qed.

Lemma filter_all (p : A -> bool) (l : list A) :
  Forall (fun e => p e = true) l -> List.filter p l = l.
Proof. induction 1 as [|e l He _ IH]; simpl; [reflexivity|]. rewrite He, IH. reflexivity. Qed.

Lemma filter_split_sorted (l : list A) (c : Z) :
  StronglySorted (fun a b => key a <= key b) l ->
  l = List.filter (fun e => key e <? c) l ++ List.filter (fun e => c <=? key e) l.
Proof.
  intros Hs. induction Hs as [|e l Hs IH He]; simpl; [reflexivity|].
  destruct (Z.ltb_spec (key e) c) as [H1|H1].
  - rewrite (proj2 (Z.leb_gt _ _)) by lia. simpl. f_equal. exact IH.
  - rewrite (proj2 (Z.leb_le _ _)) by lia.
    assert (Forall (fun x => c <= key x) l) as Hall.
    { apply Forall_forall. intros x Hx. pose proof (proj1 (Forall_forall _ _) He x Hx). simpl in *. lia. }
    rewrite filter_below_nil by exact Hall. simpl. f_equal. symmetry. apply filter_all.
    eapply Forall_impl; [exact Hall|]. intros x Hx. simpl in *. apply Z.leb_le. exact Hx.
Qed.

Lemma sorted_filter (p : A -> bool) (l : list A) :
  StronglySorted (fun a b => key a <= key b) l ->
  StronglySorted (fun a b => key a <= key b) (List.filter p l).
Proof.
  induction 1 as [|e l Hs IH He]; simpl; [constructor|].
  destruct (p e); [|exact IH]. constructor; [exact IH|].
  apply Forall_forall. intros x Hx. apply list_elem_of_In, filter_In in Hx.
  apply (proj1 (Forall_forall _ _) He). apply list_elem_of_In. tauto.
Qed.
End Sorted.

Lemma sorted_by_day (l : list ChangeEvent) :
  chronological l -> StronglySorted (fun a b => day_index (date a) <= day_index (date b)) l.
Proof.
  induction 1 as [|e l Hs IH He]; constructor; [exact IH|].
  eapply Forall_impl; [exact He|]. intros x Hx. simpl in *. apply day_index_mono, Hx.
Qed.

(** What the dictionary [by_date] holds for a day. *)
Lemma group_by_date_lookup (events : list ChangeEvent) (start end_ d : Z) :
  default [] (group_by_date events start end_ !! d)
  = List.filter (fun e => (start <=? date e) && (date e <=? end_)
                          && (normalize (date e) =? d)) events.
Proof.
  unfold group_by_date.
  assert (forall m : gmap Z (list ChangeEvent),
    default [] (fold_left (fun (by_date : gmap Z (list ChangeEvent)) e =>
       if (start <=? date e) && (date e <=? end_)
       then <[normalize (date e) := default [] (by_date !! normalize (date e)) ++ [e]]> by_date
       else by_date) events m !! d)
    = default [] (m !! d)
      ++ List.filter (fun e => (start <=? date e) && (date e <=? end_)
                               && (normalize (date e) =? d)) events) as H.
  { induction events as [|e events IH]; intros m; simpl; [rewrite app_nil_r; reflexivity|].
    rewrite IH. destruct ((start <=? date e) && (date e <=? end_)); simpl; [|reflexivity].
    destruct (Z.eqb_spec (normalize (date e)) d) as [->|Hne].
    - rewrite lookup_insert_eq. simpl. rewrite <- app_assoc. reflexivity.
    - rewrite lookup_insert_ne by exact Hne. reflexivity. }
  rewrite H, lookup_empty. reflexivity.
Qed.

Lemma filter_twice {A} (p g r : A -> bool) (l : list A) :
  (forall x, In x l -> p x = g x && r x) ->
  List.filter p l = List.filter r (List.filter g l).
Proof.
  induction l as [|x l IH]; intros H; simpl; [reflexivity|].
  rewrite (H x (or_introl eq_refl)), IH by (intros; apply H; right; assumption).
  destruct (g x); simpl; [destruct (r x)|]; reflexivity.
Qed.

Lemma roll_forward_lookup (by_date : gmap Z (list ChangeEvent)) (state : Z -> gset string)
    (d0 : Z) (n k i : nat) :
  (forall j : nat, state (Z.of_nat (S j))
     = fold_left redo (default [] (by_date !! (d0 + Z.of_nat j * day_ns))) (state (Z.of_nat j))) ->
  (i < n)%nat ->
  roll_forward by_date (map (fun j => d0 + Z.of_nat j * day_ns) (seq k n)) (state (Z.of_nat k)) !! i
  = Some (d0 + Z.of_nat (k + i) * day_ns, state (Z.of_nat (S (k + i)))).
Proof.
  intros Hstep. revert k i. induction n as [|n IH]; intros k i Hi; [lia|].
  simpl.
  assert (match by_date !! (d0 + Z.of_nat k * day_ns) with
          | Some evs => fold_left redo evs (state (Z.of_nat k))
          | None => state (Z.of_nat k)
          end = state (Z.of_nat (S k))) as ->.
  { rewrite Hstep. destruct (by_date !! _); reflexivity. }
  destruct i as [|i]; simpl.
  - rewrite Nat.add_0_r. reflexivity.
  - rewrite IH by lia. replace (S k + i)%nat with (k + S i)%nat by lia. reflexivity.
Qed.

Lemma roll_forward_length by_date days cm : length (roll_forward by_date days cm) = length days.
Proof. revert cm. induction days as [|d days IH]; intros cm; simpl; [reflexivity|]. rewrite IH. reflexivity. Qed.

Lemma elem_of_members_on (snaps : list (Z * gset string)) (d : Z) (t : string) :
  t ∈ members_on (daily_rows snaps) d <-> exists cm, In (d, cm) snaps /\ t ∈ cm.
Proof.
  unfold members_on, daily_rows. rewrite elem_of_list_to_set, list_elem_of_In, in_map_iff.
  split.
  - intros ([[d' t'] one] & Ht & Hin). simpl in Ht. subst t'.
    apply filter_In in Hin. destruct Hin as [Hin Hd]. simpl in Hd. apply Z.eqb_eq in Hd. subst d'.
    apply in_flat_map in Hin. destruct Hin as ([d' cm] & Hs & Hrow).
    apply in_map_iff in Hrow. destruct Hrow as (t' & Heq & Ht'). simpl in Heq.
    injection Heq as -> -> _. exists cm. split; [exact Hs|].
    apply elem_of_elements, list_elem_of_In. exact Ht'.
  - intros (cm & Hs & Ht). exists (d, t, 1). split; [reflexivity|].
    apply filter_In. split; [|simpl; apply Z.eqb_refl].
    apply in_flat_map. exists (d, cm). split; [exact Hs|].
    apply in_map_iff. exists t. split; [reflexivity|].
    apply list_elem_of_In, elem_of_elements. exact Ht.
Qed.

Section RoundTrip.
Variables (events : list ChangeEvent) (start end_ : Z) (current : gset string).
Hypothesis Hchron : chronological events.
Hypothesis Hend : Forall (fun e => date e <= end_) events.
Hypothesis Hse : start <= end_.
Hypothesis Hcons :
  history_consistent (rev (List.filter (fun e => start <=? date e) events)) current.

Local Abbreviation G := (List.filter (fun e => start <=? date e) events).
Local Abbreviation M0 := (roll_back events start current).
Local Abbreviation q0 := (day_index start).
Local Abbreviation by_date := (group_by_date events start end_).
Local Abbreviation replay_to := (replay_until events start current).

Lemma G_sorted : chronological G.
Proof. apply (sorted_filter date). exact Hchron. Qed.

Lemma G_from_start : Forall (fun e => start <= date e) G.
Proof.
  apply Forall_forall. intros e He. apply list_elem_of_In, filter_In in He.
  apply Z.leb_le. tauto.
Qed.

Lemma G_until_end : Forall (fun e => date e <= end_) G.
Proof.
  apply Forall_forall. intros e He. apply list_elem_of_In, filter_In in He.
  apply (proj1 (Forall_forall _ _) Hend). apply list_elem_of_In. tauto.
Qed.

Lemma by_date_day (q : Z) :
  default [] (by_date !! (day_ns * q))
  = List.filter (fun e => (q <=? day_index (date e)) && (day_index (date e) <? q + 1)) G.
Proof.
  rewrite group_by_date_lookup. apply filter_twice.
  intros e He. pose proof (proj1 (Forall_forall _ _) Hend e (proj2 (list_elem_of_In _ _) He)) as Hle.
  simpl in Hle. rewrite (proj2 (Z.leb_le _ _) Hle), andb_true_r. f_equal.
  rewrite normalize_day_index. pose proof day_ns_pos.
  destruct (Z.eqb_spec (day_ns * day_index (date e)) (day_ns * q)) as [Heq|Hne].
  - assert (day_index (date e) = q) as -> by nia.
    rewrite Z.leb_refl, (proj2 (Z.ltb_lt _ _)) by lia. reflexivity.
  - destruct (Z.leb_spec q (day_index (date e))); [|reflexivity].
    destruct (Z.ltb_spec (day_index (date e)) (q + 1)); [|reflexivity].
    exfalso. apply Hne. f_equal. lia.
Qed.

Lemma replay_step (q : Z) :
  replay_to (q + 1) = fold_left redo (default [] (by_date !! (day_ns * q))) (replay_to q).
Proof.
  unfold replay_until. rewrite by_date_day, <- fold_left_app. f_equal.
  apply (filter_window (fun e => day_index (date e))); [|lia].
  apply sorted_by_day, G_sorted.
Qed.

Lemma replay_start : replay_to q0 = M0.
Proof.
  unfold replay_until. rewrite (filter_below_nil (fun e => day_index (date e))); [reflexivity|].
  eapply Forall_impl; [exact G_from_start|]. intros e He. simpl in *. apply day_index_mono, He.
Qed.

Lemma replay_all : replay_to (day_index end_ + 1) = fold_left redo G M0.
Proof.
  unfold replay_until. f_equal. apply filter_all.
  eapply Forall_impl; [exact G_until_end|]. intros e He. simpl in *.
  apply Z.ltb_lt. pose proof (day_index_mono _ _ He). lia.
Qed.

Lemma replay_G : fold_left redo G M0 = current.
Proof.
  pose proof (filter_split_sorted date G (start + 1) G_sorted) as Hsplit.
  set (G0 := List.filter (fun e => date e <? start + 1) G) in *.
  set (G1 := List.filter (fun e => start + 1 <=? date e) G) in *.
  assert (List.filter (fun e => start <? date e) events = G1) as HB.
  { unfold G1. apply filter_twice. intros e _.
    destruct (Z.ltb_spec start (date e)), (Z.leb_spec start (date e)),
      (Z.leb_spec (start + 1) (date e)); try reflexivity; lia. }
  assert (M0 = fold_left undo (rev G1) current) as HM0
    by (unfold roll_back; rewrite HB; reflexivity).
  rewrite Hsplit, rev_app_distr in Hcons.
  apply history_consistent_app in Hcons. destruct Hcons as [H1 H0]. rewrite <- HM0 in H0.
  rewrite Hsplit, fold_left_app.
  rewrite <- (rev_involutive G0), (replay_settled _ _ H0).
  rewrite HM0, <- (rev_involutive G1) at 1. rewrite rev_involutive at 1.
  rewrite <- (rev_involutive G1) at 1. apply replay_rollback. exact H1.
Qed.

(** The members listed on the final day. *)
Lemma final_day_members :
  members_on (timeline events current start end_) (normalize end_) = current.
Proof.
  pose proof day_ns_pos as Hday.
  assert (q0 <= day_index end_) as Hq by (apply day_index_mono; exact Hse).
  set (state := fun z : Z => replay_to (q0 + z)).
  set (N := (Z.to_nat ((normalize end_ - normalize start) / day_ns) + 1)%nat).
  assert (Z.of_nat N = day_index end_ - q0 + 1) as HN.
  { unfold N. rewrite !normalize_day_index, <- Z.mul_sub_distr_l, Z.mul_comm, Z.div_mul by lia.
    lia. }
  assert (timeline events current start end_
          = daily_rows (roll_forward by_date
              (map (fun j => normalize start + Z.of_nat j * day_ns) (seq 0 N))
              (state (Z.of_nat 0)))) as Htl.
  { unfold timeline, date_range. rewrite (proj2 (Z.leb_le _ _)).
    - unfold state. simpl Z.of_nat. rewrite Z.add_0_r, replay_start. reflexivity.
    - rewrite !normalize_day_index. nia. }
  assert (forall i, (i < N)%nat ->
            roll_forward by_date
              (map (fun j => normalize start + Z.of_nat j * day_ns) (seq 0 N))
              (state (Z.of_nat 0)) !! i
            = Some (normalize start + Z.of_nat i * day_ns, state (Z.of_nat (S i)))) as Hlook.
  { intros i Hi. rewrite (roll_forward_lookup by_date state (normalize start) N 0 i); [reflexivity| |exact Hi].
    intros j. unfold state. rewrite normalize_day_index.
    replace (day_ns * q0 + Z.of_nat j * day_ns) with (day_ns * (q0 + Z.of_nat j)) by lia.
    rewrite <- replay_step. f_equal. lia. }
  assert (forall i, (i < N)%nat -> normalize start + Z.of_nat i * day_ns = normalize end_ ->
            state (Z.of_nat (S i)) = current) as Hlast.
  { intros i Hi Heq. rewrite !normalize_day_index in Heq.
    assert (Z.of_nat i = day_index end_ - q0) as Hi' by nia.
    unfold state. replace (q0 + Z.of_nat (S i)) with (day_index end_ + 1) by lia.
    rewrite replay_all. apply replay_G. }
  rewrite Htl. apply set_eq. intros t. rewrite elem_of_members_on. split.
  - intros (cm & Hin & Ht). apply list_elem_of_In, list_elem_of_lookup in Hin.
    destruct Hin as (i & Hi).
    assert (i < N)%nat as HiN.
    { apply lookup_lt_Some in Hi. rewrite roll_forward_length, length_map, length_seq in Hi. exact Hi. }
    rewrite (Hlook i HiN) in Hi. injection Hi as Hd <-.
    rewrite (Hlast i HiN Hd) in Ht. exact Ht.
  - intros Ht. exists current. split; [|exact Ht].
    assert (N - 1 < N)%nat as HiN by lia.
    assert (normalize start + Z.of_nat (N - 1) * day_ns = normalize end_) as Hd.
    { rewrite !normalize_day_index. nia. }
    pose proof (Hlook _ HiN) as Hi. rewrite Hd, (Hlast _ HiN Hd) in Hi.
    apply list_elem_of_In, list_elem_of_lookup. eauto.
Qed.
End RoundTrip.

(** C5, as amended.  Take a current set and a chronologically ordered
    list of events none of which is dated after [end_], with
    [start <= end_], such that every event dated [start] or later agrees
    with the membership reached by undoing the later events from the
    current set: the tickers it added are named and are members there,
    the tickers it removed are not members there unless it also added
    them.  Then rolling back to [start] and forward to [end_] lists
    exactly the current set on the final date. *)
Theorem timeline_round_trip (events : list ChangeEvent) (start end_ : Z)
    (current : gset string) :
  chronological events ->
  Forall (fun e => date e <= end_) events ->
  start <= end_ ->
  history_consistent (rev (List.filter (fun e => start <=? date e) events)) current ->
  members_on (timeline events current start end_) (normalize end_) = current.
Proof. intros H1 H2 H3 H4. apply final_day_members; assumption. Qed.

Lemma sort_by_chronological (l : list ChangeEvent) : chronological (sort_by date l).
Proof.
  unfold sort_by. induction l as [|e l IH]; simpl; [constructor|].
  revert IH. generalize (fold_right (insert_by date) [] l). clear l. intros l Hl.
  induction Hl as [|x l Hs IH Hx]; simpl; [repeat constructor|].
  destruct (Z.leb_spec (date e) (date x)) as [H|H].
  - constructor; [constructor; assumption|]. constructor; [exact H|].
    eapply Forall_impl; [exact Hx|]. intros y Hy. simpl in *. lia.
  - constructor; [exact IH|]. 
    assert (forall l', Forall (fun b => date x <= date b) l' ->
              Forall (fun b => date x <= date b) (insert_by date e l')) as Hins.
    { induction 1 as [|y l' Hy Hl' IH']; simpl.
      - repeat constructor. lia.
      - destruct (date e <=? date y).
        + constructor; [lia|]. constructor; assumption.
        + constructor; assumption. }
    apply Hins, Hx.
Qed.

(** C5 as worded fails on a history that does not agree with the current
    set: undoing the addition of a ticker that is not a member is a no-op,
    replaying it adds the ticker.  Current set {A}; B added on 2020-01-02;
    from 2020-01-01 to 2020-01-02. *)
Lemma round_trip_counterexample :
  let e := {| date := jan2; added := ["B"]; removed := [] |} in
  chronological [e] /\
  members_on (timeline [e] {["A"]} jan1 jan2) (normalize jan2) = {["A"; "B"]} /\
  members_on (timeline [e] {["A"]} jan1 jan2) (normalize jan2) <> {["A"]}.
Proof.
  cbv zeta. split; [repeat constructor|].
  assert (members_on (timeline [{| date := jan2; added := ["B"]; removed := [] |}] {["A"]} jan1 jan2)
            (normalize jan2) = {["A"; "B"]}) as H by (vm_compute; reflexivity).
  split; [exact H|]. rewrite H. intros Heq.
  assert ("B" ∈ ({["A"]} : gset string)) as HB.
  { rewrite <- Heq. apply elem_of_union. right. apply elem_of_singleton. reflexivity. }
  apply elem_of_singleton in HB. discriminate.
Qed.

Lemma insert_by_sorted (e : ChangeEvent) (l : list ChangeEvent) :
  Forall (fun x => date e <= date x) l -> insert_by date e l = e :: l.
Proof.
  destruct 1 as [|x l Hx _]; simpl; [reflexivity|].
  rewrite (proj2 (Z.leb_le _ _) Hx). reflexivity.
Qed.

(** [list.sort] leaves a list already in date order as it is. *)
Lemma sort_by_chronological_id (l : list ChangeEvent) :
  chronological l -> sort_by date l = l.
Proof.
  unfold sort_by. induction 1 as [|e l Hs IH He]; simpl; [reflexivity|].
  rewrite IH. apply insert_by_sorted, He.
Qed.

Lemma roll_forward_no_events (days : list Z) (M : gset string) :
  roll_forward ∅ days M = map (fun d => (d, M)) days.
Proof. induction days as [|d days IH]; simpl; [reflexivity|]. rewrite lookup_empty, IH. reflexivity. Qed.

(** With no event the timeline lists the current set on every day. *)
Lemma timeline_no_events (M : gset string) (start end_ : Z) :
  timeline [] M start end_
  = daily_rows (map (fun d => (d, M)) (date_range (normalize start) (normalize end_))).
Proof. unfold timeline. simpl. rewrite roll_forward_no_events. reflexivity. Qed.

Lemma insert_by_not_nil {A} (key : A -> Z) (x : A) (l : list A) : insert_by key x l <> [].
Proof. destruct l; simpl; [discriminate|]. destruct (_ <=? _); discriminate. Qed.

Lemma sort_by_not_nil {A} (key : A -> Z) (l : list A) : l <> [] -> sort_by key l <> [].
Proof. destruct l; [congruence|]. intros _. simpl. apply insert_by_not_nil. Qed.

Lemma filter_nonempty_nil {A} (fs : list (list A)) :
  List.filter (fun f => negb (Nat.eqb (length f) 0)) fs = [] <-> Forall (fun f => f = []) fs.
Proof.
  induction fs as [|f fs IH]; simpl; [split; auto|].
  destruct f; simpl.
  - rewrite IH. split; [intros; constructor; auto|intros H; inversion H; auto].
  - split; [discriminate|intros H; inversion H; discriminate].
Qed.

Lemma concat_nonempty {A} (fs : list (list A)) :
  List.filter (fun f => negb (Nat.eqb (length f) 0)) fs <> [] ->
  concat (List.filter (fun f => negb (Nat.eqb (length f) 0)) fs) <> [].
Proof.
  induction fs as [|f fs IH]; simpl; [congruence|].
  destruct f; simpl; [exact IH|discriminate].
Qed.

Lemma extract_changes_outcome (to_datetime : string -> option Z) (tables : list Table) :
  (no_dated_row to_datetime tables /\
   _extract_changes_table to_datetime tables
   = inl (RuntimeError "Failed to extract changes table"))
  \/ (~ no_dated_row to_datetime tables /\
      exists rows, rows <> [] /\ _extract_changes_table to_datetime tables = inr rows).
Proof.
  unfold _extract_changes_table, no_dated_row.
  assert (Forall (fun t => is_candidate t = true -> frame_of to_datetime t = []) tables
          <-> Forall (fun f => f = []) (map (frame_of to_datetime) (List.filter is_candidate tables))) as Hiff.
  { induction tables as [|t tables IH]; simpl; [split; constructor|].
    destruct (is_candidate t) eqn:E; simpl.
    - split; intros H; inversion H; subst; constructor; auto; apply IH; auto.
    - rewrite <- IH. split; intros H; [inversion H; auto|constructor; [congruence|exact H]]. }
  rewrite Hiff. clear Hiff.
  destruct (List.filter is_candidate tables) as [|t cand] eqn:Ec.
  - left. split; [constructor|reflexivity].
  - rewrite <- Ec. clear Ec t cand.
    set (fs := map (frame_of to_datetime) (List.filter is_candidate tables)).
    destruct (List.filter (fun f => negb (Nat.eqb (length f) 0)) fs) as [|f frames] eqn:Ef.
    + left. split; [apply filter_nonempty_nil; exact Ef|reflexivity].
    + right. split.
      * intros H. apply filter_nonempty_nil in H. congruence.
      * eexists. split; [|reflexivity]. apply sort_by_not_nil.
        rewrite <- Ef. apply concat_nonempty. rewrite Ef. discriminate.
Qed.

(** C9, as amended.  The construction fails, with the error
    [RuntimeError("Failed to extract changes table")], exactly when the
    page yields no table that has a date column, a change column and a
    row whose date parses.  With such a row it returns a timeline
    whatever the number of events parsed; with zero events that timeline
    lists the current set on every day. *)
Theorem changes_table_failure (to_datetime : string -> option Z)
    (cur : list string) (tables : list Table) (start end_ : Z) :
  let outcome :=
    build_membership_timeline (inr cur) (_extract_changes_table to_datetime tables) start end_ in
  (no_dated_row to_datetime tables ->
     outcome = inl (RuntimeError "Failed to extract changes table")) /\
  (~ no_dated_row to_datetime tables ->
     exists rows,
       rows <> [] /\
       _extract_changes_table to_datetime tables = inr rows /\
       outcome = inr (timeline (events_of rows) (list_to_set cur) start end_) /\
       (events_of rows = [] ->
          outcome = inr (daily_rows (map (fun d => (d, list_to_set cur))
                                         (date_range (normalize start) (normalize end_)))))).
Proof.
  cbv zeta. destruct (extract_changes_outcome to_datetime tables) as [[Hn He]|[Hn (rows & Hr & He)]].
  - split; [|tauto]. intros _. rewrite He. reflexivity.
  - split; [tauto|]. intros _. exists rows. rewrite He. simpl.
    repeat split; try assumption. intros ->. rewrite timeline_no_events. reflexivity.
Qed.

(** C9 as worded fails on a changes table whose only row names no
    ticker: zero events are parsed and a timeline is returned. *)
Lemma zero_events_counterexample :
  let page :=
    [ {| columns := ["Date"; "Added"; "Removed"; "Reason"];
         body := [[Some "2020-01-02"; None; None; Some "Annual review"]] |} ] in
  let to_datetime := fun s : string => if String.eqb s "2020-01-02" then Some jan2 else None in
  let changes := _extract_changes_table to_datetime page in
  changes = inr [ {| Date := jan2; Added := None; Removed := None;
                     Reason := Some "Annual review"; Ticker := None; Company := None |} ] /\
  events_of [ {| Date := jan2; Added := None; Removed := None;
                 Reason := Some "Annual review"; Ticker := None; Company := None |} ] = [] /\
  build_membership_timeline (inr ["AAPL"]) changes jan2 (jan2 + day_ns)
  = inr [(jan2, "AAPL", 1); (jan2 + day_ns, "AAPL", 1)].
Proof. vm_compute. repeat split; reflexivity. Qed.

Lemma timeline_round_trip_witness :
  chronological [swap_ex] /\
  Forall (fun e => date e <= jan3) [swap_ex] /\
  jan1 <= jan3 /\
  history_consistent (rev (List.filter (fun e => jan1 <=? date e) [swap_ex])) {["A"; "B"]} /\
  members_on (timeline [swap_ex] {["A"; "B"]} jan1 jan3) (normalize jan3)
  = {["A"; "B"]}.
Proof.
  assert (chronological [swap_ex]) as H1 by (repeat constructor).
  assert (Forall (fun e => date e <= jan3) [swap_ex]) as H2
    by (repeat constructor; vm_compute; discriminate).
  assert (jan1 <= jan3) as H3 by (vm_compute; discriminate).
  assert (history_consistent (rev (List.filter (fun e => jan1 <=? date e) [swap_ex])) {["A"; "B"]}) as H4.
  { simpl. split; [|exact I]. unfold consistent, swap_ex. simpl. repeat split.
    - intros H. apply list_elem_of_In in H. destruct H as [H|[]]. discriminate.
    - intros a Ha. apply list_elem_of_In in Ha. destruct Ha as [<-|[]].
      apply elem_of_union. right. apply elem_of_singleton. reflexivity.
    - intros r Hr Hm. apply list_elem_of_In in Hr. destruct Hr as [<-|[]].
      apply elem_of_union in Hm. destruct Hm as [Hm|Hm]; apply elem_of_singleton in Hm; discriminate. }
  repeat (split; [assumption|]).
  apply (timeline_round_trip [swap_ex] jan1 jan3 {["A"; "B"]} H1 H2 H3 H4).
Defined.

(** The same for [build_membership_timeline] itself: the events it keeps
    are in date order by construction. *)
Lemma build_round_trip
    (current : list string) (changes : list ChangeRow) (start end_ : Z) :
  Forall (fun e => date e <= end_) (events_of changes) ->
  start <= end_ ->
  history_consistent
    (rev (List.filter (fun e => start <=? date e) (events_of changes)))
    (list_to_set current) ->
  exists daily,
    build_membership_timeline (inr current) (inr changes) start end_ = inr daily /\
    members_on daily (normalize end_) = list_to_set current.
Proof.
  intros H2 H3 H4. eexists. split; [reflexivity|].
  apply final_day_members; try assumption.
  unfold events_of. apply sort_by_chronological.
Qed.

End HistoryFacts.

(** * Price masking *)

Module MaskingFacts.
Import Frame Py Masking.
Local Open Scope string_scope.

(** C6.  The code does not produce the masked panel the claim describes:
    on every price frame and membership frame [prices_masked_by_membership]
    raises [AttributeError], the set of price columns having no method
    [intersections]. *)
Theorem prices_masked_by_membership_raises (prices : PriceFrame) (membership : list MemberRow) :
  prices_masked_by_membership prices membership
  = raise (AttributeError "'set' object has no attribute 'intersections'").
Proof. reflexivity. Qed.

(** C7.  Masking a masked panel again is never reached: the first call
    already raises [AttributeError], for the same misspelt method. *)
Theorem masking_twice_raises (prices : PriceFrame) (membership : list MemberRow) :
  (call once := prices_masked_by_membership prices membership in
   prices_masked_by_membership once membership)
  = raise (AttributeError "'set' object has no attribute 'intersections'").
Proof. reflexivity. Qed.

Lemma set_method_intersection :
  set_method "intersection" = Some (fun a b : gset string => a ∩ b).
Proof. reflexivity. Qed.

Lemma where_member_twice (m : Q) (p : option Q) :
  where_member m (where_member m p) = where_member m p.
Proof. unfold where_member. destruct (Qle_bool m (1 # 2)); reflexivity. Qed.

(** A cell of the masked frame is the raw price when the mask is above one
    half and missing otherwise. *)
Lemma where_member_spec (m : Q) (p : option Q) :
  where_member m p = if Qle_bool m (1 # 2) then None else p.
Proof. reflexivity. Qed.

Lemma position_nth (k : string) (cols : list string) :
  In k cols -> exists j, position k cols = Some j /\ nth_error cols j = Some k.
Proof.
  induction cols as [|c cols IH]; intros H; [destruct H|]. simpl.
  destruct (String.eqb_spec c k) as [->|Hne].
  - exists O. split; reflexivity.
  - destruct H as [H|H]; [contradiction|]. destruct (IH H) as (j & Hj & Hn).
    exists (S j). rewrite Hj. split; [reflexivity|exact Hn].
Qed.

Lemma combine_map_combine {A B C} (h : A * B -> C) (idx : list A) (vals : list B) :
  combine idx (map h (combine idx vals)) = map (fun dr => (fst dr, h dr)) (combine idx vals).
Proof.
  revert vals. induction idx as [|d idx IH]; intros vals; [reflexivity|].
  destruct vals as [|v vals]; [reflexivity|]. simpl. rewrite IH. reflexivity.
Qed.

(** Past the misspelt name the masking is idempotent. *)
Lemma masked_frame_twice (prices : PriceFrame) (membership : list MemberRow)
    (common : list string) :
  masked_frame (masked_frame prices membership common) membership common
  = masked_frame prices membership common.
Proof.
  unfold masked_frame at 1 3. cbn [index columns values]. f_equal.
  unfold masked_frame. cbn [index columns values].
  rewrite combine_map_combine, map_map. apply map_ext. intros [d row]. cbn [fst snd].
  apply map_ext_in. intros k Hk.
  destruct (position_nth k common Hk) as (j & -> & Hn).
  rewrite nth_error_map, Hn. cbn. apply where_member_twice.
Qed.

End MaskingFacts.

(** * Exposure of the weights and cost of turnover *)

Module ExposureFacts.
Import Frame Turnover Analysis Reading Backtest Notions TurnoverFacts.

Lemma Qinv_zero (d : Q) : d == 0 -> / d == 0.
Proof. intros H. rewrite H. reflexivity. Qed.

Lemma Qeq_bool_false (x y : Q) : Qeq_bool x y = false -> ~ x == y.
Proof. intros H E. apply Qeq_bool_iff in E. congruence. Qed.

Lemma leg_values (ind : row) : Forall2 (leg_val (/ names ind)) ind (leg ind).
Proof.
  unfold leg, names, flags. set (N := sum _). clearbody N.
  unfold fillna_row, div_row. rewrite !map_map.
  induction ind as [|c ind IH]; simpl; constructor; [|exact IH].
  unfold leg_val, replace0. destruct (Qeq_bool N 0) eqn:E.
  - eexists. split; [reflexivity|]. simpl.
    apply Qeq_bool_iff in E. rewrite (Qinv_zero _ E). ring.
  - eexists. split; [reflexivity|]. unfold of_bool, div_cell. rewrite E. simpl.
    reflexivity.
Qed.

Lemma sum_flags_cons (c : cell) (l : row) :
  sum (flags (c :: l)) = (if gt0 c then 1 else 0) + sum (flags l).
Proof. reflexivity. Qed.

Lemma overlap_cons (c d : cell) (l s : row) :
  overlap (c :: l) (d :: s) = (gt0 c && gt0 d) || overlap l s.
Proof. reflexivity. Qed.

Lemma abs_neg_legs (b : Q) (s sw : row) :
  0 <= b -> Forall2 (leg_val b) s sw ->
  abs_sum (map (add_fill_cell 0 None) (map neg_cell sw)) == b * sum (flags s).
Proof.
  intros Hb. induction 1 as [|c w s sw (x & -> & Hx) _ IH]; [unfold abs_sum; simpl; ring|].
  rewrite sum_flags_cons. cbn [map neg_cell option_map add_fill_cell].
  rewrite abs_sum_cons_some, IH, Hx.
  destruct (gt0 c).
  - rewrite Qabs_neg by lra. ring.
  - rewrite Qabs_pos by lra. ring.
Qed.

Lemma abs_pos_legs (a : Q) (l lw : row) :
  0 <= a -> Forall2 (leg_val a) l lw ->
  abs_sum (align (add_fill_cell 0) lw []) == a * sum (flags l).
Proof.
  intros Ha. induction 1 as [|c w l lw (x & -> & Hx) _ IH]; [unfold abs_sum; simpl; ring|].
  rewrite sum_flags_cons. cbn [align add_fill_cell].
  rewrite abs_sum_cons_some, IH, Hx.
  destruct (gt0 c); rewrite Qabs_pos by lra; ring.
Qed.

(** Gross weight of the two legs put together, when no ticker is on both
    sides. *)
Lemma combined_abs_sum (a b : Q) (l s lw sw : row) :
  0 <= a -> 0 <= b ->
  Forall2 (leg_val a) l lw -> Forall2 (leg_val b) s sw -> overlap l s = false ->
  abs_sum (align (add_fill_cell 0) lw (map neg_cell sw))
  == a * sum (flags l) + b * sum (flags s).
Proof.
  intros Ha Hb Hl. revert s sw. induction Hl as [|c w l lw (x & -> & Hx) Hl IH]; intros s sw Hs Ho.
  - cbn [align]. rewrite (abs_neg_legs _ _ _ Hb Hs). simpl. ring.
  - destruct Hs as [|d v s sw (y & -> & Hy) Hs].
    + cbn [map]. rewrite (abs_pos_legs a (c :: l) (Some x :: lw)); [simpl; ring|exact Ha|].
      constructor; [exists x; split; [reflexivity|exact Hx]|assumption].
    + rewrite overlap_cons in Ho. apply orb_false_iff in Ho. destruct Ho as [Hcd Ho].
      rewrite !sum_flags_cons. cbn [map neg_cell option_map align add_fill_cell].
      rewrite abs_sum_cons_some, (IH _ _ Hs Ho), Hx, Hy.
      destruct (gt0 c), (gt0 d); try discriminate.
      * rewrite Qabs_pos by lra. ring.
      * rewrite Qabs_neg by lra. ring.
      * rewrite Qabs_pos by lra. ring.
Qed.

Lemma no_flags_names (ind : row) : existsb gt0 ind = false -> names ind == 0.
Proof.
  unfold names. induction ind as [|c ind IH]; intros H; [reflexivity|].
  simpl in H. apply orb_false_iff in H. destruct H as [Hc H].
  rewrite sum_flags_cons, Hc, (IH H). ring.
Qed.

Lemma names_nonneg (ind : row) : 0 <= names ind.
Proof. apply sum_flags. Qed.

Lemma names_flagged (ind : row) :
  names ind * / names ind == if existsb gt0 ind then 1 else 0.
Proof.
  destruct (existsb gt0 ind) eqn:E.
  - apply Qmult_inv_r. pose proof (proj2 (sum_flags ind) E). unfold names. lra.
  - rewrite (no_flags_names _ E). reflexivity.
Qed.

Lemma inv_names_nonneg (ind : row) : 0 <= / names ind.
Proof. apply Qinv_le_0_compat, names_nonneg. Qed.

Lemma raw_gross (l s : row) :
  overlap l s = false ->
  abs_sum (align (add_fill_cell 0) (leg l) (map neg_cell (leg s))) == sides l s.
Proof.
  intros Ho.
  rewrite (combined_abs_sum _ _ _ _ _ _ (inv_names_nonneg l) (inv_names_nonneg s)
             (leg_values l) (leg_values s) Ho).
  unfold sides. rewrite <- (names_flagged l), <- (names_flagged s). unfold names. ring.
Qed.

(** What [normalize_weights] leaves in a cell. *)
Lemma normalize_row_lookup (w : row) (k : nat) (c : cell) :
  w !! k = Some c ->
  exists x, normalize_row w !! k = Some (Some x) /\ x == fillna 0 c * / abs_sum w.
Proof.
  intros Hk. unfold normalize_row, fillna_row, div_row. rewrite map_map, map_lookup, Hk.
  simpl. eexists. split; [reflexivity|].
  unfold replace0. destruct (Qeq_bool (abs_sum w) 0) eqn:E.
  - apply Qeq_bool_iff in E. rewrite (Qinv_zero _ E).
    destruct c; simpl; ring.
  - destruct c as [x|]; simpl; [|ring]. rewrite E. simpl. reflexivity.
Qed.

Lemma cell_at_leg (ind : row) (k : nat) :
  fillna 0 (cell_at (leg ind) k) == (if gt0 (cell_at ind k) then 1 else 0) * / names ind.
Proof.
  unfold cell_at. pose proof (leg_values ind) as H.
  destruct (ind !! k) as [c|] eqn:Hk.
  - destruct (Forall2_lookup_l _ _ _ _ _ H Hk) as (w & Hw & x & -> & Hx).
    rewrite Hw. exact Hx.
  - assert (leg ind !! k = None) as ->.
    { apply lookup_ge_None. apply lookup_ge_None in Hk.
      rewrite <- (Forall2_length _ _ _ H). exact Hk. }
    simpl. ring.
Qed.

Lemma cell_at_neg (r : row) (k : nat) : cell_at (map neg_cell r) k = neg_cell (cell_at r k).
Proof. unfold cell_at. rewrite map_lookup. destruct (r !! k); reflexivity. Qed.

Lemma fillna_add_fill (a b : cell) :
  fillna 0 (add_fill_cell 0 a b) == fillna 0 a + fillna 0 b.
Proof. destruct a, b; simpl; ring. Qed.

Lemma fillna_neg (a : cell) : fillna 0 (neg_cell a) == - fillna 0 a.
Proof. destruct a; simpl; ring. Qed.

Lemma leg_length (ind : row) : length (leg ind) = length ind.
Proof. unfold leg, fillna_row, div_row. rewrite !length_map. reflexivity. Qed.

Lemma overlap_lookup (l s : row) (k : nat) :
  overlap l s = false -> gt0 (cell_at l k) && gt0 (cell_at s k) = false.
Proof.
  intros Ho. destruct (decide (k < Nat.max (length l) (length s))%nat) as [Hk|Hk].
  - unfold overlap in Ho.
    pose proof (align_lookup (fun a b => gt0 a && gt0 b) l s k Hk) as Hl.
    destruct (gt0 (cell_at l k) && gt0 (cell_at s k)) eqn:E; [|reflexivity].
    assert (existsb id (align (fun a b => gt0 a && gt0 b) l s) = true) as Ht.
    { apply existsb_exists. exists true. split; [|reflexivity].
      apply list_elem_of_In, list_elem_of_lookup. eauto. }
    congruence.
  - unfold cell_at. rewrite (proj2 (lookup_ge_None l k)) by lia. reflexivity.
Qed.

(** The weight of one ticker in exact arithmetic. *)
Lemma equal_weight_row_value (longs shorts : row) (k : nat) :
  overlap longs shorts = false ->
  (k < Nat.max (length longs) (length shorts))%nat ->
  exists x, equal_weight_row longs shorts !! k = Some (Some x) /\
    x == if gt0 (cell_at longs k) then 1 / (sides longs shorts * names longs)
         else if gt0 (cell_at shorts k) then - (1 / (sides longs shorts * names shorts))
         else 0.
Proof.
  intros Ho Hk. unfold equal_weight_row. cbv zeta.
  set (W := align (add_fill_cell 0) (leg longs) (map neg_cell (leg shorts))).
  assert (W !! k = Some (add_fill_cell 0 (cell_at (leg longs) k)
                                        (cell_at (map neg_cell (leg shorts)) k))) as HW.
  { apply align_lookup. rewrite length_map, !leg_length. exact Hk. }
  destruct (normalize_row_lookup W k _ HW) as (x & Hx & Hv).
  exists x. split; [exact Hx|].
  rewrite Hv, fillna_add_fill, cell_at_neg, fillna_neg, !cell_at_leg.
  unfold W. rewrite (raw_gross _ _ Ho).
  pose proof (overlap_lookup _ _ k Ho) as Hd.
  unfold Qdiv.
  destruct (gt0 (cell_at longs k)), (gt0 (cell_at shorts k)); try discriminate;
    rewrite ?Qinv_mult_distr; ring.
Qed.

(** X3.  When no ticker is flagged on both sides of a date, every name
    flagged long carries one and the same weight, positive, every name
    flagged short one and the same weight, negative, and every other
    ticker the weight 0. *)
Theorem equal_weight_row_cells (longs shorts : row) :
  overlap longs shorts = false ->
  exists a b : Q,
    (existsb gt0 longs = true -> 0 < a) /\
    (existsb gt0 shorts = true -> 0 < b) /\
    forall k : nat,
      (k < Nat.max (length longs) (length shorts))%nat ->
      exists x, equal_weight_row longs shorts !! k = Some (Some x) /\
        x == if gt0 (cell_at longs k) then a
             else if gt0 (cell_at shorts k) then - b
             else 0.
Proof.
  intros Ho.
  exists (1 / (sides longs shorts * names longs)), (1 / (sides longs shorts * names shorts)).
  assert (forall ind, existsb gt0 ind = true ->
            (existsb gt0 longs = true \/ existsb gt0 shorts = true) ->
            0 < 1 / (sides longs shorts * names ind)) as Hpos.
  { intros ind Hi Hs. pose proof (proj2 (sum_flags ind) Hi) as Hn. fold (names ind) in Hn.
    assert (1 <= sides longs shorts) as H1.
    { unfold sides. destruct (existsb gt0 longs), (existsb gt0 shorts), Hs as [H|H];
        try discriminate H; vm_compute; discriminate. }
    apply Qlt_shift_div_l; [|lra].
    apply Qlt_le_trans with (1 * names ind); [lra|].
    apply Qmult_le_compat_r; lra. }
  split; [intros H; apply Hpos; auto|]. split; [intros H; apply Hpos; auto|].
  intros k Hk. apply equal_weight_row_value; assumption.
Qed.

(** X4.  [turnover_from_weights] with a return panel raises ([rets.iloc]
    is out of range) exactly when the return panel has fewer rows than
    the weight panel has dates before the last. *)
Theorem turnover_raises_iff (W R : panel) :
  turnover_from_weights W (Some R) = None <-> (S (length R) < length W)%nat.
Proof.
  unfold turnover_from_weights. split.
  - intros Hto. apply mapM_None_1, Exists_exists in Hto. destruct Hto as (i & Hi & Hat).
    apply list_elem_of_In, in_seq in Hi. destruct i as [|i']; [discriminate|].
    unfold turnover_at in Hat.
    destruct (W !! S i') as [w|] eqn:Hw; [|apply lookup_ge_None in Hw; lia].
    destruct (W !! i') as [wp|] eqn:Hwp; [|apply lookup_ge_None in Hwp; lia].
    unfold entering_weights, target_weights in Hat.
    replace (S i' - 1)%nat with i' in Hat by lia.
    rewrite Hwp, Hw in Hat. cbn in Hat.
    destruct (R !! i') as [rp|] eqn:Hrp; [discriminate|].
    apply lookup_ge_None in Hrp. lia.
  - intros Hlen. apply mapM_None_2, Exists_exists. exists (S (length R)). split.
    + apply list_elem_of_In, in_seq. lia.
    + unfold turnover_at, entering_weights.
      replace (S (length R) - 1)%nat with (length R) by lia.
      destruct (W !! length R) as [wp|]; [|reflexivity]. cbn.
      rewrite (proj2 (lookup_ge_None R (length R))) by lia. reflexivity.
Qed.


(** The weight row of a date, from its row of ranks. *)
Lemma signal_weights_lookup (ranks : panel) (long_q short_q m : Q) (t : nat) (rk : row) :
  ranks !! t = Some rk ->
  weights m (fst (build_signals ranks long_q short_q))
            (snd (build_signals ranks long_q short_q)) !! t
  = Some (let l := map (fun c => of_bool (ge_cell c long_q)) rk in
          let s := map (fun c => of_bool (le_cell c short_q)) rk in
          if Qle_bool m (sum l) && Qle_bool m (sum s)
          then equal_weight_row l s
          else equal_weight_row (map (fun _ => Some 0) l) (map (fun _ => Some 0) s)).
Proof.
  intros Hrk. unfold build_signals. cbn [fst snd].
  set (L := map (map (fun c => of_bool (ge_cell c long_q))) ranks).
  set (S := map (map (fun c => of_bool (le_cell c short_q))) ranks).
  set (l := map (fun c => of_bool (ge_cell c long_q)) rk).
  set (s := map (fun c => of_bool (le_cell c short_q)) rk).
  assert (L !! t = Some l) as HL by (unfold L; rewrite map_lookup, Hrk; reflexivity).
  assert (S !! t = Some s) as HS by (unfold S; rewrite map_lookup, Hrk; reflexivity).
  unfold weights, gate, equal_weight_long_short. cbn [fst snd].
  rewrite (align_rows_lookup _ _ _ t _ _
             (where_rows_lookup L _ 0 t l HL) (where_rows_lookup S _ 0 t s HS)).
  unfold valid_dates. rewrite (align_rows_lookup _ L S t l s HL HS). cbn [default].
  cbv zeta. destruct (Qle_bool m (sum l) && Qle_bool m (sum s)); reflexivity.
Qed.




Lemma abs_diff_sum_nonneg (a b : list Q) : 0 <= abs_diff_sum a b.
Proof.
  revert b. induction a as [|x a IH]; intros [|y b]; cbn [abs_diff_sum]; try lra.
  pose proof (Qabs_nonneg (x - y)). pose proof (IH b). lra.
Qed.

Lemma turnover_at_nonneg (W : panel) (rets : option panel) (t : nat) (x : Q) :
  turnover_at W rets t = Some x -> 0 <= x.
Proof.
  destruct t as [|i]; simpl; [intros [= <-]; lra|].
  destruct (entering_weights W rets (S i)) as [pre|]; [|discriminate].
  destruct (target_weights W (S i)) as [wt|]; [|discriminate].
  change (Some ((1 # 2) * abs_diff_sum wt pre) = Some x -> 0 <= x).
  intros [= <-]. pose proof (abs_diff_sum_nonneg wt pre). lra.
Qed.

(** X9.  With costs that are not negative, the net return
    [apply_turnover_costs] gives a date is at most the gross return and
    does not rise with the cost; it is the gross return itself on the
    first date and at no cost. *)
Theorem net_of_costs_bounds (W : panel) (rets : option panel) (to : list Q)
    (gross_returns : row) (cost_bps cost_bps' : Q) (t : nat) (g : Q) :
  turnover_from_weights W rets = Some to ->
  0 <= cost_bps <= cost_bps' ->
  (t < length W)%nat ->
  gross_returns !! t = Some (Some g) ->
  exists n n',
    apply_turnover_costs gross_returns (cells to) cost_bps !! t = Some (Some n) /\
    apply_turnover_costs gross_returns (cells to) cost_bps' !! t = Some (Some n') /\
    n' <= n <= g /\
    (t = 0%nat -> n == g) /\
    (cost_bps == 0 -> n == g).
Proof.
  intros Hto [Hc Hc'] Ht Hg.
  destruct (turnover_lookup _ _ _ _ Hto Ht) as (x & Hx & Hat).
  pose proof (turnover_at_nonneg _ _ _ _ Hat) as Hb.
  assert (forall c, apply_turnover_costs gross_returns (cells to) c !! t
                    = Some (Some (g - x * (c / 10000)))) as Hn.
  { intros c. unfold apply_turnover_costs. cbv zeta.
    rewrite align_lookup by (apply lookup_lt_Some in Hg; lia).
    unfold cell_at, cells. rewrite Hg, map_lookup, Hx. reflexivity. }
  exists (g - x * (cost_bps / 10000)), (g - x * (cost_bps' / 10000)).
  split; [apply Hn|]. split; [apply Hn|].
  assert (0 <= cost_bps / 10000) as H1 by (apply Qle_shift_div_l; lra).
  assert (cost_bps / 10000 <= cost_bps' / 10000) as H2.
  { unfold Qdiv. apply Qmult_le_compat_r; [exact Hc'|]. vm_compute. discriminate. }
  assert (0 <= x * (cost_bps / 10000)) as H3 by (apply Qmult_le_0_compat; lra).
  assert (x * (cost_bps / 10000) <= x * (cost_bps' / 10000)) as H4.
  { rewrite !(Qmult_comm x). apply Qmult_le_compat_r; assumption. }
  split; [split; lra|]. split.
  - intros ->. injection Hat as <-. ring.
  - intros H0. rewrite H0. unfold Qdiv. ring.
Qed.

Lemma equal_weight_row_cells_witness :
  overlap long_row_ex short_row_ex = false /\
  exists a b : Q,
    (existsb gt0 long_row_ex = true -> 0 < a) /\
    (existsb gt0 short_row_ex = true -> 0 < b) /\
    forall k : nat,
      (k < Nat.max (length long_row_ex) (length short_row_ex))%nat ->
      exists x, equal_weight_row long_row_ex short_row_ex !! k = Some (Some x) /\
        x == if gt0 (cell_at long_row_ex k) then a
             else if gt0 (cell_at short_row_ex k) then - b
             else 0.
Proof.
  assert (overlap long_row_ex short_row_ex = false) as Ho by reflexivity.
  split; [exact Ho|].
  apply (equal_weight_row_cells long_row_ex short_row_ex Ho).
Defined.

(** One long and one short name: a half each way. *)
Example one_long_one_short :
  exists x y,
    equal_weight_row long_row_ex short_row_ex !! 0%nat = Some (Some x) /\ x == 1 # 2 /\
    equal_weight_row long_row_ex short_row_ex !! 2%nat = Some (Some y) /\ y == - (1 # 2).
Proof. do 2 eexists. repeat split; reflexivity. Qed.


Lemma net_of_costs_bounds_witness :
  turnover_from_weights W_ex (Some R_ex) = Some to_ex /\
  0 <= 10 <= 20 /\ (1 < length W_ex)%nat /\
  gross_ex !! 1%nat = Some (Some 0) /\
  exists n n',
    apply_turnover_costs gross_ex (cells to_ex) 10 !! 1%nat = Some (Some n) /\
    apply_turnover_costs gross_ex (cells to_ex) 20 !! 1%nat = Some (Some n') /\
    n' <= n <= 0 /\
    (1%nat = 0%nat -> n == 0) /\
    (10 == 0 -> n == 0).
Proof.
  assert (turnover_from_weights W_ex (Some R_ex) = Some to_ex) as Hto
    by (vm_compute; reflexivity).
  assert (0 <= 10 <= 20) as Hc by (split; vm_compute; discriminate).
  assert (1 < length W_ex)%nat as Ht by (simpl; lia).
  split; [exact Hto|]. split; [exact Hc|]. split; [exact Ht|].
  split; [reflexivity|].
  apply (net_of_costs_bounds W_ex (Some R_ex) to_ex gross_ex 10 20 1 0 Hto Hc Ht eq_refl).
Defined.

End ExposureFacts.

(** * Ranks, warm-up, winsorizing and drawdown *)

Module BacktestFacts.
Import Frame Turnover Analysis Reading Backtest Notions TurnoverFacts ExposureFacts.

Lemma of_nat_le (a b : nat) : (a <= b)%nat -> of_nat a <= of_nat b.
Proof. intros H. unfold of_nat. rewrite <- Zle_Qle. lia. Qed.

Lemma of_nat_plus (a b : nat) : of_nat (a + b) == of_nat a + of_nat b.
Proof. unfold of_nat. rewrite Nat2Z.inj_add, inject_Z_plus. reflexivity. Qed.

Lemma of_nat_pos (a : nat) : (0 < a)%nat -> 0 < of_nat a.
Proof. intros H. unfold of_nat. change 0 with (inject_Z 0). rewrite <- Zlt_Qlt. lia. Qed.

Lemma in_values (r : row) (k : nat) (x : Q) : r !! k = Some (Some x) -> In x (values r).
Proof.
  intros H. apply list_elem_of_In. unfold values. apply list_elem_of_omap.
  exists (Some x). split; [|reflexivity]. apply list_elem_of_lookup. eauto.
Qed.

Lemma count_eq_pos (x : Q) (l : list Q) : In x l -> (1 <= count_eq x l)%nat.
Proof.
  unfold count_eq. induction l as [|y l IH]; intros H; [contradiction|].
  simpl. destruct H as [->|H].
  - rewrite (proj2 (Qeq_bool_iff x x)) by reflexivity. simpl. lia.
  - destruct (Qeq_bool y x); simpl; [lia|]. exact (IH H).
Qed.

Lemma count_lt_eq_le (x : Q) (l : list Q) : (count_lt x l + count_eq x l <= length l)%nat.
Proof.
  unfold count_lt, count_eq. induction l as [|y l IH]; simpl; [lia|].
  destruct (Qle_bool x y) eqn:E1, (Qeq_bool y x) eqn:E2; simpl; try lia.
  exfalso. apply Qeq_bool_iff in E2.
  assert (x <= y) as H by (rewrite E2; apply Qle_refl).
  apply Qle_bool_iff in H. congruence.
Qed.

Lemma count_below (x y : Q) (l : list Q) :
  x < y -> (count_lt x l + count_eq x l <= count_lt y l)%nat.
Proof.
  intros Hxy. unfold count_lt, count_eq. induction l as [|z l IH]; simpl; [lia|].
  destruct (Qle_bool x z) eqn:E1, (Qeq_bool z x) eqn:E2, (Qle_bool y z) eqn:E3;
    simpl; try lia; exfalso.
  - apply Qeq_bool_iff in E2. apply Qle_bool_iff in E3. lra.
  - apply Qeq_bool_iff in E2.
    assert (x <= z) as H by (rewrite E2; apply Qle_refl).
    apply Qle_bool_iff in H. congruence.
  - apply Qeq_bool_iff in E2.
    assert (x <= z) as H by (rewrite E2; apply Qle_refl).
    apply Qle_bool_iff in H. congruence.
  - apply Qle_bool_iff in E3.
    assert (x <= z) as H by lra. apply Qle_bool_iff in H. congruence.
Qed.

Lemma Qle_bool_comp (x x' y y' : Q) : x == x' -> y == y' -> Qle_bool x y = Qle_bool x' y'.
Proof.
  intros Hx Hy. destruct (Qle_bool x y) eqn:E1, (Qle_bool x' y') eqn:E2; try reflexivity.
  - apply Qle_bool_iff in E1. assert (x' <= y') as H by lra.
    apply Qle_bool_iff in H. congruence.
  - apply Qle_bool_iff in E2. assert (x <= y) as H by lra.
    apply Qle_bool_iff in H. congruence.
Qed.

Lemma Qeq_bool_comp (x x' y y' : Q) : x == x' -> y == y' -> Qeq_bool x y = Qeq_bool x' y'.
Proof.
  intros Hx Hy. destruct (Qeq_bool x y) eqn:E1, (Qeq_bool x' y') eqn:E2; try reflexivity.
  - apply Qeq_bool_iff in E1. assert (x' == y') as H by lra.
    apply Qeq_bool_iff in H. congruence.
  - apply Qeq_bool_iff in E2. assert (x == y) as H by lra.
    apply Qeq_bool_iff in H. congruence.
Qed.

Lemma count_tied (x y : Q) (l : list Q) :
  x == y -> count_lt x l = count_lt y l /\ count_eq x l = count_eq y l.
Proof.
  intros Hxy. unfold count_lt, count_eq. split; f_equal; apply filter_ext; intros z.
  - rewrite (Qle_bool_comp x y z z Hxy); reflexivity.
  - apply Qeq_bool_comp; [reflexivity|exact Hxy].
Qed.

Lemma position_range (x : Q) (l : list Q) : In x l -> 1 <= avg_position x l <= of_nat (length l).
Proof.
  intros H. unfold avg_position.
  pose proof (of_nat_le _ _ (count_eq_pos x l H)) as H1.
  pose proof (of_nat_le _ _ (count_lt_eq_le x l)) as H2. rewrite of_nat_plus in H2.
  pose proof (of_nat_le 0 (count_lt x l) ltac:(lia)) as H3.
  change (of_nat 0) with 0 in H3. change (of_nat 1) with 1 in H1.
  generalize dependent (of_nat (count_lt x l)). generalize dependent (of_nat (count_eq x l)).
  generalize (of_nat (length l)). intros n e H1 c H2 H3. unfold Qdiv. change (/ 2) with (1 # 2). split; lra.
Qed.

Lemma position_below (x y : Q) (l : list Q) :
  In x l -> In y l -> x < y -> avg_position x l < avg_position y l.
Proof.
  intros Hx Hy Hxy. unfold avg_position.
  pose proof (of_nat_le _ _ (count_eq_pos x l Hx)) as H1.
  pose proof (of_nat_le _ _ (count_eq_pos y l Hy)) as H2.
  pose proof (of_nat_le _ _ (count_below x y l Hxy)) as H3. rewrite of_nat_plus in H3.
  change (of_nat 1) with 1 in *.
  generalize dependent (of_nat (count_lt x l)). generalize dependent (of_nat (count_eq x l)).
  generalize dependent (of_nat (count_lt y l)). generalize dependent (of_nat (count_eq y l)).
  intros. unfold Qdiv. change (/ 2) with (1 # 2). lra.
Qed.

Lemma position_tied (x y : Q) (l : list Q) : x == y -> avg_position x l == avg_position y l.
Proof.
  intros Hxy. unfold avg_position. destruct (count_tied x y l Hxy) as [-> ->]. reflexivity.
Qed.

Lemma rank_pct_lookup (r : row) (k : nat) (x : Q) :
  r !! k = Some (Some x) ->
  rank_pct r !! k = Some (Some (avg_position x (values r) / of_nat (count r))).
Proof. intros H. unfold rank_pct. rewrite map_lookup, H. reflexivity. Qed.

Lemma count_pos (r : row) (k : nat) (x : Q) : r !! k = Some (Some x) -> 0 < of_nat (count r).
Proof.
  intros H. apply of_nat_pos. unfold count.
  pose proof (in_values _ _ _ H) as Hin. destruct (values r); [contradiction|simpl; lia].
Qed.

Lemma rank_pct_range (r : row) (k : nat) (x : Q) :
  r !! k = Some (Some x) ->
  exists p, rank_pct r !! k = Some (Some p) /\ 1 / of_nat (count r) <= p <= 1.
Proof.
  intros H. eexists. split; [apply rank_pct_lookup; exact H|].
  pose proof (count_pos _ _ _ H) as Hn.
  pose proof (position_range x (values r) (in_values _ _ _ H)) as [H1 H2].
  fold (count r) in H2. split.
  - unfold Qdiv. apply Qmult_le_compat_r; [exact H1|].
    apply Qinv_le_0_compat. lra.
  - apply Qle_shift_div_r; [exact Hn|]. lra.
Qed.

Lemma rank_pct_order (r : row) (j k : nat) (x y : Q) :
  r !! j = Some (Some x) -> r !! k = Some (Some y) ->
  exists p q,
    rank_pct r !! j = Some (Some p) /\ rank_pct r !! k = Some (Some q) /\
    (x < y <-> p < q) /\ (x == y <-> p == q).
Proof.
  intros Hj Hk. do 2 eexists.
  split; [apply rank_pct_lookup; exact Hj|]. split; [apply rank_pct_lookup; exact Hk|].
  pose proof (count_pos _ _ _ Hj) as Hn.
  pose proof (in_values _ _ _ Hj) as Ix. pose proof (in_values _ _ _ Hk) as Iy.
  assert (0 < / of_nat (count r)) as Hi by (apply Qinv_lt_0_compat; exact Hn).
  assert (forall a b, a < b -> a / of_nat (count r) < b / of_nat (count r)) as Hlt.
  { intros a b Hab. unfold Qdiv. apply Qmult_lt_compat_r; assumption. }
  assert (forall a b, a == b -> a / of_nat (count r) == b / of_nat (count r)) as Heq.
  { intros a b Hab. rewrite Hab. reflexivity. }
  pose proof (position_below x y (values r) Ix Iy) as Hxy.
  pose proof (position_below y x (values r) Iy Ix) as Hyx.
  pose proof (position_tied x y (values r)) as Ht.
  split; split; intros H.
  - apply Hlt, Hxy, H.
  - destruct (Q_dec x y) as [[Hl|Hg]|He]; [exact Hl| |].
    + pose proof (Hlt _ _ (Hyx Hg)). lra.
    + pose proof (Heq _ _ (Ht He)). lra.
  - apply Heq, Ht, H.
  - destruct (Q_dec x y) as [[Hl|Hg]|He]; [| |exact He].
    + pose proof (Hlt _ _ (Hxy Hl)). lra.
    + pose proof (Hlt _ _ (Hyx Hg)). lra.
Qed.

Lemma shift_lookup (n : nat) (P : panel) (t : nat) :
  (t < length P)%nat -> shift n P !! t = Some (lag P n t).
Proof.
  intros Ht. unfold shift, lag. rewrite lookup_take_lt by exact Ht.
  destruct (Nat.ltb_spec t n) as [Hn|Hn].
  - rewrite lookup_app_l by (rewrite length_replicate; exact Hn).
    apply lookup_replicate_2. exact Hn.
  - rewrite lookup_app_r by (rewrite length_replicate; exact Hn).
    rewrite length_replicate.
    destruct (lookup_lt_is_Some_2 P (t - n)%nat ltac:(lia)) as (r & ->). reflexivity.
Qed.

Lemma ncols_map (f : cell -> cell) (P : panel) : ncols (map (map f) P) = ncols P.
Proof. induction P as [|r P IH]; simpl; [reflexivity|]. rewrite length_map, IH. reflexivity. Qed.

Lemma lag_length (P : panel) (n t : nat) : (length (lag P n t) <= ncols P)%nat.
Proof.
  unfold lag. destruct (t <? n)%nat; [rewrite length_replicate; lia|].
  destruct (P !! (t - n)%nat) as [r|] eqn:E; simpl; [|lia]. eapply ncols_ge; eauto.
Qed.

Lemma align_sub_nan (a : row) (n : nat) :
  align sub_cell a (replicate n nan) = replicate (Nat.max (length a) n) nan.
Proof.
  revert n. induction a as [|c a IH]; intros n.
  - cbn [align]. simpl. induction n as [|n IHn]; simpl; [reflexivity|]. rewrite IHn. reflexivity.
  - destruct n as [|n]; cbn [align replicate length Nat.max].
    + specialize (IH 0%nat). cbn [replicate] in IH. rewrite IH, Nat.max_0_r.
      destruct c; reflexivity.
    + rewrite IH. destruct c; reflexivity.
Qed.

Lemma rank_pct_nan (n : nat) : rank_pct (replicate n nan) = replicate n nan.
Proof.
  unfold rank_pct. generalize (replicate n nan) at 1. intros r.
  induction n as [|n IH]; simpl; [reflexivity|]. rewrite IH. reflexivity.
Qed.

Section MomentumFacts.
Variable ln : Q -> cell.

(** The ranks of a date, from the two rows of prices they are read from. *)
Lemma momentum_lookup (P : panel) (lookback skip t : nat) :
  (t < length P)%nat ->
  compute_momentum_ranks ln P lookback skip !! t
  = Some (rank_pct (momentum ln P lookback skip t)).
Proof.
  unfold momentum.
  intros Ht. unfold compute_momentum_ranks. cbv zeta. rewrite map_lookup.
  set (L := map (map (log_cell ln)) P).
  assert (t < length L)%nat as HL by (unfold L; rewrite length_map; exact Ht).
  rewrite (align_rows_lookup _ _ _ t _ _ (shift_lookup skip L t HL)
                                         (shift_lookup (lookback + skip) L t HL)).
  reflexivity.
Qed.

(** X10.  On each of the first [lookback + skip] dates every rank of
    [compute_momentum_ranks] is NaN, and the weights built from these
    ranks are all 0, whatever the prices, the thresholds and
    [min_names]. *)
Theorem momentum_warm_up (P : panel) (lookback skip : nat) (long_q short_q m : Q) (t : nat) :
  (t < lookback + skip)%nat -> (t < length P)%nat ->
  compute_momentum_ranks ln P lookback skip !! t = Some (replicate (ncols P) nan) /\
  exists w,
    weights m (fst (build_signals (compute_momentum_ranks ln P lookback skip) long_q short_q))
              (snd (build_signals (compute_momentum_ranks ln P lookback skip) long_q short_q))
      !! t = Some w /\
    Forall (fun c => c = Some 0) w.
Proof.
  intros Hw Ht.
  assert (compute_momentum_ranks ln P lookback skip !! t = Some (replicate (ncols P) nan)) as Hr.
  { rewrite momentum_lookup by exact Ht. unfold momentum. f_equal.
    set (L := map (map (log_cell ln)) P).
    assert (lag L (lookback + skip) t = replicate (ncols L) nan) as ->.
    { unfold lag. rewrite (proj2 (Nat.ltb_lt _ _) Hw). reflexivity. }
    rewrite align_sub_nan, rank_pct_nan.
    pose proof (lag_length L skip t) as Hlen.
    pose proof (ncols_map (log_cell ln) P) as HcL. fold L in HcL.
    rewrite HcL in *. f_equal. lia. }
  split; [exact Hr|].
  rewrite (signal_weights_lookup _ long_q short_q m t _ Hr). eexists. split; [reflexivity|].
  cbv zeta.
  assert (forall f : cell -> bool, f None = false ->
            existsb gt0 (map (fun c => of_bool (f c)) (replicate (ncols P) nan)) = false) as Hno.
  { intros f Hf. unfold nan. generalize (ncols P). clear -Hf.
    intros n. induction n as [|n IH]; simpl; [reflexivity|].
    rewrite Hf. simpl. exact IH. }
  destruct (_ && _).
  - apply equal_weight_row_flat; apply Hno; reflexivity.
  - apply equal_weight_row_flat; apply no_flags_zeros.
Qed.

Lemma lag_same (P P' : panel) (n t : nat) :
  (1 <= n)%nat -> take t P = take t P' -> ncols P = ncols P' ->
  lag P n t = lag P' n t.
Proof.
  intros Hn Htake Hc. unfold lag. rewrite Hc.
  destruct (Nat.ltb_spec t n) as [Hlt|Hge]; [reflexivity|].
  rewrite <- (lookup_take_lt P t (t - n)), <- (lookup_take_lt P' t (t - n)) by lia.
  rewrite Htake. reflexivity.
Qed.

(** X11.  With [skip >= 1] the ranks of date [t] do not read the prices
    of [t] or of any later date: two price panels over the same tickers
    that agree on the dates before [t] give the same ranks at [t]. *)
Theorem momentum_no_look_ahead (P P' : panel) (lookback skip t : nat) :
  (1 <= skip)%nat ->
  (t < length P)%nat -> (t < length P')%nat ->
  ncols P = ncols P' ->
  take t P = take t P' ->
  compute_momentum_ranks ln P lookback skip !! t
  = compute_momentum_ranks ln P' lookback skip !! t.
Proof.
  intros Hs Ht Ht' Hc Htake.
  rewrite !momentum_lookup by assumption. unfold momentum.
  assert (take t (map (map (log_cell ln)) P) = take t (map (map (log_cell ln)) P')) as HL.
  { rewrite <- !fmap_take. change (map (map (log_cell ln)) (take t P)
                                    = map (map (log_cell ln)) (take t P')).
    rewrite Htake. reflexivity. }
  assert (ncols (map (map (log_cell ln)) P) = ncols (map (map (log_cell ln)) P')) as HC
    by (rewrite !ncols_map; exact Hc).
  rewrite (lag_same _ _ skip t Hs HL HC), (lag_same _ _ (lookback + skip) t ltac:(lia) HL HC).
  reflexivity.
Qed.

(** X12.  Where the momentum of a date is a number, its rank is a number
    between 1/n and 1, [n] the number of tickers that have a momentum on
    that date. *)
Theorem momentum_ranks_range (P : panel) (lookback skip t k : nat) (x : Q) :
  (t < length P)%nat ->
  momentum ln P lookback skip t !! k = Some (Some x) ->
  exists p,
    iat (compute_momentum_ranks ln P lookback skip) t k = Some (Some p) /\
    1 / of_nat (count (momentum ln P lookback skip t)) <= p <= 1.
Proof.
  intros Ht Hk. destruct (rank_pct_range _ _ _ Hk) as (p & Hp & Hr).
  exists p. split; [|exact Hr].
  unfold iat. rewrite (momentum_lookup P lookback skip t Ht). exact Hp.
Qed.

(** X13.  Within one date the ranks follow the momentum: a strictly
    higher momentum has a strictly higher rank, and equal momenta have
    equal ranks. *)
Theorem momentum_ranks_order (P : panel) (lookback skip t j k : nat) (x y : Q) :
  (t < length P)%nat ->
  momentum ln P lookback skip t !! j = Some (Some x) ->
  momentum ln P lookback skip t !! k = Some (Some y) ->
  exists p q,
    iat (compute_momentum_ranks ln P lookback skip) t j = Some (Some p) /\
    iat (compute_momentum_ranks ln P lookback skip) t k = Some (Some q) /\
    (x < y <-> p < q) /\ (x == y <-> p == q).
Proof.
  intros Ht Hj Hk. destruct (rank_pct_order _ _ _ _ _ Hj Hk) as (p & q & Hp & Hq & H).
  exists p, q. unfold iat. rewrite (momentum_lookup P lookback skip t Ht).
  split; [exact Hp|]. split; [exact Hq|exact H].
Qed.

End MomentumFacts.

Lemma insert_q_In (x y : Q) (l : list Q) : In y (insert_q x l) <-> y = x \/ In y l.
Proof.
  induction l as [|z l IH]; simpl; [intuition congruence|].
  destruct (Qle_bool x z); simpl; [intuition congruence|]. rewrite IH. tauto.
Qed.

Lemma sort_q_In (y : Q) (l : list Q) : In y (sort_q l) <-> In y l.
Proof.
  unfold sort_q. induction l as [|x l IH]; simpl; [tauto|].
  rewrite insert_q_In, IH. intuition congruence.
Qed.

Lemma insert_q_length (x : Q) (l : list Q) : length (insert_q x l) = S (length l).
Proof.
  induction l as [|z l IH]; simpl; [reflexivity|].
  destruct (Qle_bool x z); simpl; [reflexivity|]. rewrite IH. reflexivity.
Qed.

Lemma sort_q_length (l : list Q) : length (sort_q l) = length l.
Proof.
  unfold sort_q. induction l as [|x l IH]; simpl; [reflexivity|].
  rewrite insert_q_length, IH. reflexivity.
Qed.

Lemma insert_q_sorted (x : Q) (l : list Q) :
  StronglySorted Qle l -> StronglySorted Qle (insert_q x l).
Proof.
  induction 1 as [|z l Hs IH Hz]; simpl; [repeat constructor|].
  destruct (Qle_bool x z) eqn:E.
  - apply Qle_bool_iff in E. constructor; [constructor; assumption|].
    constructor; [exact E|]. eapply Forall_impl; [exact Hz|]. intros w Hw. simpl in Hw. lra.
  - assert (z <= x) as Hzx.
    { destruct (Qlt_le_dec z x) as [H|H]; [lra|].
      apply Qle_bool_iff in H. congruence. }
    constructor; [exact IH|]. apply Forall_forall. intros w Hw.
    apply list_elem_of_In, insert_q_In in Hw. destruct Hw as [->|Hw]; [exact Hzx|].
    apply (proj1 (Forall_forall _ _) Hz). apply list_elem_of_In. exact Hw.
Qed.

Lemma sort_q_sorted (l : list Q) : StronglySorted Qle (sort_q l).
Proof.
  unfold sort_q. induction l as [|x l IH]; simpl; [constructor|].
  apply insert_q_sorted, IH.
Qed.

Lemma sorted_nth (a : list Q) (d : Q) (i j : nat) :
  StronglySorted Qle a -> (i <= j)%nat -> (j < length a)%nat -> nth i a d <= nth j a d.
Proof.
  intros Hs. revert i j. induction Hs as [|z l Hs IH Hz]; intros i j Hij Hj; [simpl in Hj; lia|].
  destruct i as [|i], j as [|j]; simpl in *; try lia.
  - apply Qle_refl.
  - apply (proj1 (Forall_forall _ _) Hz). apply list_elem_of_In, nth_In. lia.
  - apply IH; lia.
Qed.

Section Interp.
Variables (a : list Q) (a0 : Q).
Hypothesis Hs : StronglySorted Qle a.
Hypothesis Hne : (0 < length a)%nat.

Lemma floor_index (h : Q) :
  0 <= h <= of_nat (length a - 1) ->
  (Z.to_nat (Qfloor h) <= length a - 1)%nat /\
  inject_Z (Z.of_nat (Z.to_nat (Qfloor h))) = inject_Z (Qfloor h) /\
  0 <= h - inject_Z (Qfloor h) < 1.
Proof.
  intros [H0 H1].
  assert (0 <= Qfloor h)%Z as Hf0.
  { change 0%Z with (Qfloor 0). apply Qfloor_resp_le. exact H0. }
  assert (Qfloor h <= Z.of_nat (length a - 1))%Z as Hf1.
  { rewrite <- (Qfloor_Z (Z.of_nat (length a - 1))). apply Qfloor_resp_le. exact H1. }
  split; [lia|]. split; [rewrite Z2Nat.id by lia; reflexivity|].
  pose proof (Qfloor_le h) as Hl. pose proof (Qlt_floor h) as Hu.
  rewrite inject_Z_plus in Hu. change (inject_Z 1) with 1 in Hu. split; lra.
Qed.

Lemma interp_between (h : Q) :
  0 <= h <= of_nat (length a - 1) ->
  nth (Z.to_nat (Qfloor h)) a a0 <= interp a a0 h
  /\ interp a a0 h <= nth (Nat.min (S (Z.to_nat (Qfloor h))) (length a - 1)) a a0.
Proof.
  intros Hh. destruct (floor_index h Hh) as (Hi & _ & Hf).
  unfold interp. cbv zeta.
  set (i := Z.to_nat (Qfloor h)) in *.
  assert (nth i a a0 <= nth (Nat.min (S i) (length a - 1)) a a0) as Hxy
    by (apply sorted_nth; [exact Hs|lia|lia]).
  generalize dependent (nth i a a0). generalize (nth (Nat.min (S i) (length a - 1)) a a0).
  generalize dependent (h - inject_Z (Qfloor h)). intros f Hf y x Hxy. split; nra.
Qed.

Lemma interp_mono (h1 h2 : Q) :
  0 <= h1 -> h1 <= h2 -> h2 <= of_nat (length a - 1) ->
  interp a a0 h1 <= interp a a0 h2.
Proof.
  intros H0 H12 H2.
  assert (0 <= h1 <= of_nat (length a - 1)) as Hh1 by lra.
  assert (0 <= h2 <= of_nat (length a - 1)) as Hh2 by lra.
  destruct (floor_index h1 Hh1) as (Hi1 & Hz1 & Hf1).
  destruct (floor_index h2 Hh2) as (Hi2 & Hz2 & Hf2).
  pose proof (Qfloor_resp_le _ _ H12) as Hfl.
  destruct (Z.eq_dec (Qfloor h1) (Qfloor h2)) as [He|Hn].
  - unfold interp. cbv zeta. rewrite <- He in *.
    set (i := Z.to_nat (Qfloor h1)) in *.
    assert (nth i a a0 <= nth (Nat.min (S i) (length a - 1)) a a0) as Hxy
      by (apply sorted_nth; [exact Hs|lia|lia]).
    generalize dependent (nth i a a0). generalize (nth (Nat.min (S i) (length a - 1)) a a0).
    generalize dependent (inject_Z (Qfloor h1)). intros z _ _ Hf1 Hf2 y x Hxy. nra.
  - destruct (interp_between h1 Hh1) as [_ Hu]. destruct (interp_between h2 Hh2) as [Hl _].
    assert (0 <= Qfloor h1)%Z as Hp.
    { change 0%Z with (Qfloor 0). apply Qfloor_resp_le. exact H0. }
    assert (nth (Nat.min (S (Z.to_nat (Qfloor h1))) (length a - 1)) a a0
            <= nth (Z.to_nat (Qfloor h2)) a a0) as Hmid
      by (apply sorted_nth; [exact Hs|lia|lia]).
    lra.
Qed.
End Interp.

Lemma quantile_interp (r : row) (q : Q) :
  (0 < count r)%nat ->
  quantile r q
  = Some (interp (sort_q (values r)) (hd 0 (sort_q (values r))) (of_nat (count r - 1) * q)).
Proof.
  intros Hc. unfold quantile, count in *. cbv zeta.
  pose proof (sort_q_length (values r)) as Hl.
  destruct (sort_q (values r)) as [|a0 a] eqn:E; [simpl in Hl; lia|].
  rewrite <- Hl. reflexivity.
Qed.

Lemma clip_cell_clipped (lo hi : Q) (c : cell) :
  lo <= hi -> clipped lo hi c (clip_cell (Some lo) (Some hi) c).
Proof.
  intros Hlh. destruct c as [x|]; [|reflexivity]. simpl.
  destruct (Qle_bool x hi) eqn:E1.
  - apply Qle_bool_iff in E1. destruct (Qle_bool lo x) eqn:E2.
    + apply Qle_bool_iff in E2. exists x. split; [reflexivity|].
      split; [lra|]. split; [lra|]. split; [lra|reflexivity].
    + assert (x < lo) as Hx.
      { destruct (Qlt_le_dec x lo) as [H|H]; [exact H|].
        apply Qle_bool_iff in H. congruence. }
      exists lo. split; [reflexivity|]. split; [lra|]. split; [reflexivity|].
      split; lra.
  - assert (hi < x) as Hx.
    { destruct (Qlt_le_dec hi x) as [H|H]; [exact H|].
      apply Qle_bool_iff in H. congruence. }
    exists hi. split; [reflexivity|]. split; [lra|]. split; [lra|].
    split; [reflexivity|lra].
Qed.

(** X14.  On a row with at least 50 returns [_winsorize_row] has two
    bounds, the 1st and the 99th percentile of the row, the first not
    above the second and both between two returns of the row; a missing
    return stays missing, a return below the lower bound becomes the
    lower bound, one above the upper bound becomes the upper bound, and
    the others are unchanged. *)
Theorem winsorize_row_clipped (r : row) :
  (50 <= count r)%nat ->
  exists lo hi a b,
    quantile r (1 # 100) = Some lo /\ quantile r (99 # 100) = Some hi /\
    In a (values r) /\ In b (values r) /\
    a <= lo /\ lo <= hi /\ hi <= b /\
    Forall2 (clipped lo hi) r (_winsorize_row r).
Proof.
  intros Hc.
  assert (0 < count r)%nat as Hpos by lia.
  pose proof (quantile_interp r (1 # 100) Hpos) as Hlo.
  pose proof (quantile_interp r (99 # 100) Hpos) as Hhi.
  set (a := sort_q (values r)) in *. set (a0 := hd 0 a) in *.
  assert (length a = count r) as Hlen by apply sort_q_length.
  assert (StronglySorted Qle a) as Hs by apply sort_q_sorted.
  assert (0 < length a)%nat as Hne by lia.
  assert (0 <= of_nat (count r - 1)) as Hn0
    by (change 0 with (of_nat 0); apply of_nat_le; lia).
  set (n1 := of_nat (count r - 1)) in *.
  assert (0 <= n1 * (1 # 100) <= of_nat (length a - 1)) as H1
    by (rewrite Hlen; fold n1; split; nra).
  assert (0 <= n1 * (99 # 100) <= of_nat (length a - 1)) as H2
    by (rewrite Hlen; fold n1; split; nra).
  destruct (interp_between a a0 Hs Hne (n1 * (1 # 100)) H1) as [Hl1 _].
  destruct (interp_between a a0 Hs Hne (n1 * (99 # 100)) H2) as [_ Hu2].
  destruct (floor_index a Hne (n1 * (1 # 100)) H1) as (Hi1 & _ & _).
  assert (interp a a0 (n1 * (1 # 100)) <= interp a a0 (n1 * (99 # 100))) as Hmono.
  { apply interp_mono; [exact Hs|exact Hne|exact (proj1 H1)| |exact (proj2 H2)].
    revert Hn0. generalize n1. intros z Hz. lra. }
  do 4 eexists. split; [exact Hlo|]. split; [exact Hhi|].
  split; [|split; [|split; [exact Hl1|split; [exact Hmono|split; [exact Hu2|]]]]].
  - apply (sort_q_In _ (values r)). apply nth_In. fold a. lia.
  - apply (sort_q_In _ (values r)). apply nth_In. fold a. lia.
  - unfold _winsorize_row. rewrite (proj2 (Nat.ltb_ge _ _) Hc). cbv zeta.
    rewrite Hlo, Hhi. apply Forall2_fmap_r, Forall_Forall2_diag, Forall_forall.
    intros c _. apply clip_cell_clipped. exact Hmono.
Qed.

Lemma dd_from_eq (aw ap : option Q) (r : row) :
  map (fun c => sub_cell c (Some 1))
      (zip_with div_cell (cumprod_from aw r) (cummax_from ap (cumprod_from aw r)))
  = dd_from aw ap r.
Proof.
  revert aw ap. induction r as [|[x|] r IH]; intros aw ap; simpl; [reflexivity| |].
  - rewrite IH. reflexivity.
  - rewrite IH. reflexivity.
Qed.

Lemma max_drawdown_dd (r : row) :
  max_drawdown r = min_row (dd_from None None (map (option_map (Qplus 1)) r)).
Proof. unfold max_drawdown, cumprod, cummax. cbv zeta. rewrite dd_from_eq. reflexivity. Qed.

Lemma qmin_cases (x m : Q) : qmin x m = x \/ qmin x m = m.
Proof. unfold qmin. destruct (Qle_bool x m); auto. Qed.

Lemma qmin_le (x m : Q) : qmin x m <= x /\ qmin x m <= m.
Proof.
  unfold qmin. destruct (Qle_bool x m) eqn:E.
  - apply Qle_bool_iff in E. lra.
  - destruct (Qlt_le_dec m x) as [H|H]; [lra|]. apply Qle_bool_iff in H. congruence.
Qed.

Lemma min_row_pred (A : Q -> Prop) (r : row) :
  Forall A (values r) ->
  match min_row r with Some m => A m | None => values r = [] end.
Proof.
  induction r as [|[x|] r IH]; intros H; simpl in *; [reflexivity| |exact (IH H)].
  apply Forall_cons in H. destruct H as [Hx H]. specialize (IH H).
  destruct (min_row r) as [m|]; [|exact Hx].
  destruct (qmin_cases x m) as [-> | ->]; assumption.
Qed.

Lemma min_row_none (r : row) : min_row r = None <-> values r = [].
Proof.
  induction r as [|[x|] r IH]; simpl; [tauto| |exact IH].
  destruct (min_row r); split; discriminate.
Qed.

Lemma Qeq_bool_neq_false (x y : Q) : ~ x == y -> Qeq_bool x y = false.
Proof. intros H. destruct (Qeq_bool x y) eqn:E; [|reflexivity]. apply Qeq_bool_iff in E. contradiction. Qed.

(** Once the wealth is zero, no drawdown is a number. *)
Lemma dd_from_zero (w p : Q) (r : row) :
  w == 0 -> p == 0 -> values (dd_from (Some w) (Some p) r) = [].
Proof.
  revert w p. induction r as [|[x|] r IH]; intros w p Hw Hp; simpl; [reflexivity| |apply IH; assumption].
  assert (w * x == 0) as Hw' by (rewrite Hw; ring).
  assert (qmax p (w * x) == 0) as Hp' by (unfold qmax; destruct (Qle_bool p (w * x)); assumption).
  rewrite (proj2 (Qeq_bool_iff _ _) Hp'). simpl. apply IH; assumption.
Qed.

Lemma qmax_ge (a b : Q) : a <= qmax a b /\ b <= qmax a b.
Proof.
  unfold qmax. destruct (Qle_bool a b) eqn:E.
  - apply Qle_bool_iff in E. lra.
  - destruct (Qlt_le_dec b a) as [H|H]; [lra|]. apply Qle_bool_iff in H. congruence.
Qed.

Lemma ratio_range (w p : Q) : 0 < w -> w <= p -> - (1) <= w / p - 1 <= 0.
Proof.
  intros Hw Hp. assert (0 < p) as Hp0 by lra.
  assert (0 < w / p) as H1 by (apply Qlt_shift_div_l; lra).
  assert (w / p <= 1) as H2 by (apply Qle_shift_div_r; lra).
  generalize dependent (w / p). intros q H1 H2. split; lra.
Qed.

(** With every factor positive the wealth stays positive under its peak. *)
Lemma dd_from_range (aw ap : option Q) (r : row) :
  (aw = None /\ ap = None) \/ (exists w p, aw = Some w /\ ap = Some p /\ 0 < w /\ w <= p) ->
  Forall (fun y => 0 < y) (values r) ->
  Forall (fun d => - (1) <= d <= 0) (values (dd_from aw ap r))
  /\ length (values (dd_from aw ap r)) = length (values r).
Proof.
  revert aw ap. induction r as [|[y|] r IH]; intros aw ap Hinv Hr; simpl in *.
  - split; [constructor|reflexivity].
  - apply Forall_cons in Hr. destruct Hr as [Hy Hr].
    set (w' := match aw with Some a => a * y | None => y end).
    set (p' := match ap with Some a => qmax a w' | None => w' end).
    assert (0 < w' /\ w' <= p') as [Hw' Hp'].
    { destruct Hinv as [[-> ->]|(w & p & -> & -> & Hw & Hp)]; unfold p', w'.
      - split; [exact Hy|apply Qle_refl].
      - split; [nra|]. apply qmax_ge. }
    rewrite (Qeq_bool_neq_false p' 0) by lra. simpl.
    destruct (IH (Some w') (Some p')) as [H1 H2]; [right; eauto 6|exact Hr|].
    split; [|rewrite H2; reflexivity].
    constructor; [apply ratio_range; assumption|exact H1].
  - apply IH; assumption.
Qed.

(** With no factor below one the wealth is its own peak. *)
Lemma dd_from_flat (aw ap : option Q) (r : row) :
  (aw = None /\ ap = None) \/ (exists w, aw = Some w /\ ap = Some w /\ 0 < w) ->
  Forall (fun y => 1 <= y) (values r) ->
  Forall (fun d => d == 0) (values (dd_from aw ap r)).
Proof.
  revert aw ap. induction r as [|[y|] r IH]; intros aw ap Hinv Hr; simpl in *.
  - constructor.
  - apply Forall_cons in Hr. destruct Hr as [Hy Hr].
    set (w' := match aw with Some a => a * y | None => y end).
    set (p' := match ap with Some a => qmax a w' | None => w' end).
    assert (0 < w' /\ p' = w') as [Hw' ->].
    { destruct Hinv as [[-> ->]|(w & -> & -> & Hw)]; unfold p', w'.
      - split; [lra|reflexivity].
      - split; [nra|]. unfold qmax.
        rewrite (proj2 (Qle_bool_iff w (w * y))) by nra. reflexivity. }
    rewrite (Qeq_bool_neq_false w' 0) by lra. simpl.
    constructor; [field; lra|]. apply IH; [right; eauto|exact Hr].
  - apply IH; assumption.
Qed.

Lemma values_plus_one (r : row) :
  values (map (option_map (Qplus 1)) r) = map (Qplus 1) (values r).
Proof. induction r as [|[x|] r IH]; simpl; [reflexivity| |exact IH]. rewrite IH. reflexivity. Qed.

(** X15.  [max_drawdown] is never positive; it is NaN exactly when the
    series has no return or its first return is -100%. *)
Theorem max_drawdown_sign (r : row) :
  match max_drawdown r with
  | Some d => d <= 0 /\ exists x rest, values r = x :: rest /\ ~ x == - (1)
  | None => values r = [] \/ exists x rest, values r = x :: rest /\ x == - (1)
  end.
Proof.
  rewrite max_drawdown_dd. induction r as [|[x|] r IH]; simpl; [left; reflexivity| |exact IH].
  clear IH. destruct (Qeq_bool (1 + x) 0) eqn:E.
  - apply Qeq_bool_iff in E. simpl.
    assert (min_row (dd_from (Some (1 + x)) (Some (1 + x)) (map (option_map (Qplus 1)) r)) = None)
      as -> by (apply min_row_none, dd_from_zero; exact E).
    right. exists x, (values r). split; [reflexivity|lra].
  - apply Qeq_bool_false in E. simpl.
    set (rest := dd_from _ _ _).
    assert (forall d, match min_row rest with
                      | Some m => Some (qmin d m)
                      | None => Some d
                      end = Some (match min_row rest with Some m => qmin d m | None => d end)) as Hm
      by (intros d; destruct (min_row rest); reflexivity).
    rewrite Hm. split.
    + assert ((1 + x) / (1 + x) - 1 == 0) as H0 by (field; exact E).
      destruct (min_row rest) as [m|]; [|lra].
      pose proof (qmin_le ((1 + x) / (1 + x) - 1) m) as [H1 _]. lra.
    + exists x, (values r). split; [reflexivity|]. intros Hx. apply E. lra.
Qed.

(** X16.  For a series with at least one return and every return above
    -100%, [max_drawdown] is a number between -1 and 0, and it is 0 when
    no return is negative. *)
Theorem max_drawdown_range (r : row) :
  (0 < count r)%nat ->
  Forall (fun x => - (1) < x) (values r) ->
  exists d, max_drawdown r = Some d /\ - (1) <= d <= 0 /\
    (Forall (fun x => 0 <= x) (values r) -> d == 0).
Proof.
  intros Hc Hr. rewrite max_drawdown_dd.
  set (f := map (option_map (Qplus 1)) r).
  assert (Forall (fun y => 0 < y) (values f)) as Hf.
  { unfold f. rewrite values_plus_one. apply Forall_fmap.
    eapply Forall_impl; [exact Hr|]. intros x Hx. simpl in *. lra. }
  destruct (dd_from_range None None f (or_introl (conj eq_refl eq_refl)) Hf) as [H1 H2].
  pose proof (min_row_pred _ _ H1) as Hm.
  destruct (min_row (dd_from None None f)) as [d|] eqn:E.
  - exists d. split; [reflexivity|]. split; [exact Hm|].
    intros H0.
    assert (Forall (fun y => 1 <= y) (values f)) as Hf1.
    { unfold f. rewrite values_plus_one. apply Forall_fmap.
      eapply Forall_impl; [exact H0|]. intros x Hx. simpl in *. lra. }
    pose proof (dd_from_flat None None f (or_introl (conj eq_refl eq_refl)) Hf1) as Hz.
    pose proof (min_row_pred _ _ Hz) as Hz'. rewrite E in Hz'. exact Hz'.
  - exfalso. rewrite Hm in H2. unfold f in H2. rewrite values_plus_one, length_map in H2.
    unfold count in Hc. simpl in H2. lia.
Qed.

Lemma momentum_ranks_range_witness :
  (2 < length P_ex)%nat /\
  momentum ln_ex P_ex 1 1 2 !! 0%nat = Some (Some 1) /\
  exists p,
    iat (compute_momentum_ranks ln_ex P_ex 1 1) 2 0 = Some (Some p) /\
    1 / of_nat (count (momentum ln_ex P_ex 1 1 2)) <= p <= 1.
Proof.
  assert (2 < length P_ex)%nat as Ht by (simpl; lia).
  split; [exact Ht|]. split; [reflexivity|].
  apply (momentum_ranks_range ln_ex P_ex 1 1 2 0 1 Ht eq_refl).
Defined.

Lemma momentum_ranks_order_witness :
  (2 < length P_ex)%nat /\
  momentum ln_ex P_ex 1 1 2 !! 1%nat = Some (Some 0) /\
  momentum ln_ex P_ex 1 1 2 !! 0%nat = Some (Some 1) /\
  exists p q,
    iat (compute_momentum_ranks ln_ex P_ex 1 1) 2 1 = Some (Some p) /\
    iat (compute_momentum_ranks ln_ex P_ex 1 1) 2 0 = Some (Some q) /\
    (0 < 1 <-> p < q) /\ (0 == 1 <-> p == q).
Proof.
  assert (2 < length P_ex)%nat as Ht by (simpl; lia).
  split; [exact Ht|]. split; [reflexivity|]. split; [reflexivity|].
  apply (momentum_ranks_order ln_ex P_ex 1 1 2 1 0 0 1 Ht eq_refl eq_refl).
Defined.

(** The third date by hand: the name that gained ranks first of two, the
    other one half way. *)
Example ranks_third_date :
  exists p q,
    compute_momentum_ranks ln_ex P_ex 1 1 !! 2%nat = Some [Some p; Some q] /\
    p == 1 /\ q == 1 # 2.
Proof. do 2 eexists. repeat split; vm_compute; reflexivity. Qed.

Lemma momentum_warm_up_witness :
  (1 < 1 + 1)%nat /\ (1 < length P_ex)%nat /\
  compute_momentum_ranks ln_ex P_ex 1 1 !! 1%nat = Some (replicate (ncols P_ex) nan) /\
  exists w,
    weights min_names
      (fst (build_signals (compute_momentum_ranks ln_ex P_ex 1 1) default_long_q default_short_q))
      (snd (build_signals (compute_momentum_ranks ln_ex P_ex 1 1) default_long_q default_short_q))
      !! 1%nat = Some w /\
    Forall (fun c => c = Some 0) w.
Proof.
  assert (1 < 1 + 1)%nat as Hw by lia.
  assert (1 < length P_ex)%nat as Ht by (simpl; lia).
  split; [exact Hw|]. split; [exact Ht|].
  apply (momentum_warm_up ln_ex P_ex 1 1 default_long_q default_short_q min_names 1 Hw Ht).
Defined.

Lemma momentum_no_look_ahead_witness :
  (1 <= 1)%nat /\ (2 < length P_ex)%nat /\ (2 < length P_ex')%nat /\
  ncols P_ex = ncols P_ex' /\ take 2 P_ex = take 2 P_ex' /\
  compute_momentum_ranks ln_ex P_ex 1 1 !! 2%nat
  = compute_momentum_ranks ln_ex P_ex' 1 1 !! 2%nat.
Proof.
  assert (1 <= 1)%nat as Hs by lia.
  assert (2 < length P_ex)%nat as Ht by (simpl; lia).
  assert (2 < length P_ex')%nat as Ht' by (simpl; lia).
  split; [exact Hs|]. split; [exact Ht|]. split; [exact Ht'|].
  split; [reflexivity|]. split; [reflexivity|].
  apply (momentum_no_look_ahead ln_ex P_ex P_ex' 1 1 2 Hs Ht Ht' eq_refl eq_refl).
Defined.

Lemma winsorize_row_clipped_witness :
  (50 <= count row_50)%nat /\
  exists lo hi a b,
    quantile row_50 (1 # 100) = Some lo /\ quantile row_50 (99 # 100) = Some hi /\
    In a (values row_50) /\ In b (values row_50) /\
    a <= lo /\ lo <= hi /\ hi <= b /\
    Forall2 (clipped lo hi) row_50 (_winsorize_row row_50).
Proof.
  assert (50 <= count row_50)%nat as Hc by (vm_compute; lia).
  split; [exact Hc|]. apply (winsorize_row_clipped row_50 Hc).
Defined.

(** The same row by hand: the bounds are 0.49% and 48.51%, the lowest
    return is raised to the first and the highest lowered to the second. *)
Example winsorize_fifty :
  exists lo hi x y,
    quantile row_50 (1 # 100) = Some lo /\ lo == 49 # 10000 /\
    quantile row_50 (99 # 100) = Some hi /\ hi == 4851 # 10000 /\
    _winsorize_row row_50 !! 0%nat = Some (Some x) /\ x == 49 # 10000 /\
    _winsorize_row row_50 !! 49%nat = Some (Some y) /\ y == 4851 # 10000.
Proof. do 4 eexists. repeat split; vm_compute; reflexivity. Qed.

Lemma max_drawdown_range_witness :
  (0 < count returns_ex)%nat /\
  Forall (fun x => - (1) < x) (values returns_ex) /\
  exists d, max_drawdown returns_ex = Some d /\ - (1) <= d <= 0 /\
    (Forall (fun x => 0 <= x) (values returns_ex) -> d == 0).
Proof.
  assert (0 < count returns_ex)%nat as Hc by (vm_compute; lia).
  assert (Forall (fun x => - (1) < x) (values returns_ex)) as Hr
    by (repeat constructor).
  split; [exact Hc|]. split; [exact Hr|].
  apply (max_drawdown_range returns_ex Hc Hr).
Defined.

(** The same series by hand: up 10%, then down 20% from the peak. *)
Example drawdown_by_hand :
  exists d, max_drawdown returns_ex = Some d /\ d == - (1 # 5).
Proof. eexists. split; reflexivity. Qed.

End BacktestFacts.

(** * Tickers, events and the daily timeline *)

Module TimelineFacts.
Import Py Text History HistoryReading HistoryFacts TickerNotions Monthly HistoryExamples.
Local Open Scope string_scope.
Local Open Scope list_scope.
Local Open Scope Z_scope.

Lemma chars_text (l : list ascii) : chars (text l) = l.
Proof. apply list_ascii_of_string_of_list_ascii. Qed.

Lemma upper_char_not_lower (c : ascii) : is_lower (upper_char c) = false.
Proof. each_char c. Qed.

Lemma upper_char_space (c : ascii) : is_space (upper_char c) = is_space c.
Proof. each_char c. Qed.

Lemma upper_char_fixed (c : ascii) : is_lower c = false -> upper_char c = c.
Proof. unfold upper_char. intros ->. reflexivity. Qed.

Lemma space_is_space (c : ascii) : Ascii.eqb c " " = true -> is_space c = true.
Proof. intros H. apply Ascii.eqb_eq in H. subst c. reflexivity. Qed.

Lemma lstrip_fixed (l : list ascii) :
  (forall c, hd_error l = Some c -> is_space c = false) -> lstrip_chars l = l.
Proof. destruct l as [|c l]; intros H; simpl; [reflexivity|]. rewrite (H c eq_refl). reflexivity. Qed.

Lemma lstrip_hd (l : list ascii) (c : ascii) :
  hd_error (lstrip_chars l) = Some c -> is_space c = false.
Proof.
  induction l as [|d l IH]; simpl; [discriminate|].
  destruct (is_space d) eqn:E; [exact IH|]. simpl. intros [= <-]. exact E.
Qed.

Lemma lstrip_snoc (a : list ascii) (c : ascii) :
  is_space c = false -> lstrip_chars (a ++ [c]) = lstrip_chars a ++ [c].
Proof.
  intros Hc. induction a as [|d a IH]; simpl; [rewrite Hc; reflexivity|].
  destruct (is_space d); [exact IH|reflexivity].
Qed.

Lemma strip_chars_ends (l : list ascii) : ends_ok (strip_chars l).
Proof.
  unfold strip_chars. split; intros c Hc.
  - destruct (lstrip_chars l) as [|d l1] eqn:E; [simpl in Hc; discriminate|].
    assert (is_space d = false) as Hd by (apply (lstrip_hd l); rewrite E; reflexivity).
    simpl in Hc. rewrite (lstrip_snoc _ _ Hd), rev_app_distr in Hc. simpl in Hc.
    injection Hc as <-. exact Hd.
  - rewrite rev_involutive in Hc. exact (lstrip_hd _ _ Hc).
Qed.

Lemma strip_chars_fixed (l : list ascii) : ends_ok l -> strip_chars l = l.
Proof.
  intros [H1 H2]. unfold strip_chars.
  rewrite (lstrip_fixed l H1), (lstrip_fixed (rev l) H2). apply rev_involutive.
Qed.

Lemma ends_ok_map (f : ascii -> ascii) (l : list ascii) :
  (forall c, is_space (f c) = is_space c) -> ends_ok l -> ends_ok (map f l).
Proof.
  intros Hf [H1 H2]. split; intros c Hc.
  - destruct l as [|d l]; [discriminate|]. simpl in Hc. injection Hc as <-.
    rewrite Hf. apply H1. reflexivity.
  - rewrite <- map_rev in Hc. destruct (rev l) as [|d l']; [discriminate|].
    simpl in Hc. injection Hc as <-. rewrite Hf. apply H2. reflexivity.
Qed.

Lemma hd_filter (p : ascii -> bool) (l : list ascii) :
  (forall c, is_space c = false -> p c = true) ->
  (forall c, hd_error l = Some c -> is_space c = false) ->
  forall c, hd_error (List.filter p l) = Some c -> is_space c = false.
Proof.
  intros Hp H c Hc. destruct l as [|d l]; [discriminate|].
  pose proof (H d eq_refl) as Hd. simpl in Hc. rewrite (Hp d Hd) in Hc.
  injection Hc as <-. exact Hd.
Qed.

Lemma ends_ok_filter (p : ascii -> bool) (l : list ascii) :
  (forall c, is_space c = false -> p c = true) -> ends_ok l -> ends_ok (List.filter p l).
Proof.
  intros Hp [H1 H2]. split.
  - apply hd_filter; assumption.
  - rewrite <- filter_rev. apply hd_filter; assumption.
Qed.

Lemma not_blank (c : ascii) : is_space c = false -> negb (Ascii.eqb c " ") = true.
Proof.
  intros H. destruct (Ascii.eqb c " ") eqn:E; [|reflexivity].
  rewrite (space_is_space c E) in H. discriminate.
Qed.

(** What [normalize_ticker] holds before it looks the ticker up. *)
Lemma tidy_core (t : string) :
  tidy (List.filter (fun c => negb (Ascii.eqb c " ")) (map upper_char (strip_chars (chars t)))).
Proof.
  split; [|split].
  - apply ends_ok_filter; [exact not_blank|].
    apply ends_ok_map; [exact upper_char_space|]. apply strip_chars_ends.
  - apply Forall_forall. intros c Hc. apply list_elem_of_In, filter_In in Hc.
    destruct Hc as [_ Hc]. apply negb_true_iff in Hc. exact Hc.
  - apply Forall_forall. intros c Hc. apply list_elem_of_In, filter_In in Hc.
    destruct Hc as [Hc _]. apply in_map_iff in Hc. destruct Hc as (d & <- & _).
    apply upper_char_not_lower.
Qed.

Lemma tidy_fixed (l : list ascii) :
  tidy l ->
  List.filter (fun c => negb (Ascii.eqb c " ")) (map upper_char (strip_chars l)) = l.
Proof.
  intros (He & Hb & Hl). rewrite (strip_chars_fixed l He).
  assert (map upper_char l = l) as ->.
  { clear -Hl. induction Hl as [|c l Hc _ IH]; simpl; [reflexivity|].
    rewrite (upper_char_fixed c Hc), IH. reflexivity. }
  clear -Hb. induction Hb as [|c l Hc _ IH]; simpl; [reflexivity|].
  rewrite Hc. simpl. rewrite IH. reflexivity.
Qed.

Lemma dot_to_dash_length (l : list ascii) : length (dot_to_dash l) = length l.
Proof. induction l as [|c l IH]; simpl; [reflexivity|]. rewrite IH. reflexivity. Qed.

Lemma dot_to_dash_chars (l : list ascii) :
  Forall2 (fun c d => d = c \/ (c = "."%char /\ d = "-"%char)) l (dot_to_dash l).
Proof.
  induction l as [|c l IH]; simpl; constructor; [|exact IH].
  destruct (Ascii.eqb c "." && _ && _) eqn:E; [|left; reflexivity].
  right. apply andb_true_iff in E. destruct E as [E _]. apply andb_true_iff in E.
  destruct E as [E _]. apply Ascii.eqb_eq in E. auto.
Qed.

Lemma dot_to_dash_alnum (l : list ascii) :
  forallb (fun d => is_upper d || is_digit d) (dot_to_dash l)
  = forallb (fun d => is_upper d || is_digit d) l.
Proof.
  pose proof (dot_to_dash_chars l) as H.
  induction H as [|c d l l' Hcd _ IH]; simpl; [reflexivity|]. rewrite IH.
  destruct Hcd as [->|[-> ->]]; reflexivity.
Qed.

Lemma dot_to_dash_twice (l : list ascii) : dot_to_dash (dot_to_dash l) = dot_to_dash l.
Proof.
  induction l as [|c l IH]; simpl; [reflexivity|].
  rewrite IH, dot_to_dash_length, dot_to_dash_alnum. f_equal.
  destruct (Ascii.eqb c "." && negb (Nat.eqb (length l) 0)
            && forallb (fun d => is_upper d || is_digit d) l) eqn:E; [reflexivity|].
  rewrite E. reflexivity.
Qed.

Lemma dot_to_dash_snoc (a : list ascii) (c : ascii) :
  exists s, dot_to_dash (a ++ [c]) = s ++ [c].
Proof.
  induction a as [|x a (s & IH)]; simpl.
  - exists []. rewrite andb_false_r. reflexivity.
  - rewrite IH. eexists (_ :: s). reflexivity.
Qed.

Lemma tidy_dot_to_dash (l : list ascii) : tidy l -> tidy (dot_to_dash l).
Proof.
  intros ((H1 & H2) & Hb & Hl). pose proof (dot_to_dash_chars l) as HF.
  split; [split|split].
  - intros c Hc. destruct HF as [|x y l l' Hxy _]; [discriminate|].
    simpl in Hc. injection Hc as <-.
    destruct Hxy as [->|[_ ->]]; [apply H1; reflexivity|reflexivity].
  - intros c Hc. destruct (rev l) as [|x r] eqn:E.
    + apply (f_equal (@rev ascii)) in E. rewrite rev_involutive in E. subst l.
      simpl in Hc. discriminate.
    + apply (f_equal (@rev ascii)) in E. rewrite rev_involutive in E. simpl in E.
      destruct (dot_to_dash_snoc (rev r) x) as (s & Hs).
      rewrite E, Hs, rev_app_distr in Hc. simpl in Hc. injection Hc as <-.
      apply H2. reflexivity.
  - clear -HF Hb. induction HF as [|x y l l' Hxy _ IH]; [constructor|].
    apply Forall_cons in Hb. destruct Hb as [Hx Hb]. constructor; [|exact (IH Hb)].
    destruct Hxy as [->|[_ ->]]; [exact Hx|reflexivity].
  - clear -HF Hl. induction HF as [|x y l l' Hxy _ IH]; [constructor|].
    apply Forall_cons in Hl. destruct Hl as [Hx Hl]. constructor; [|exact (IH Hl)].
    destruct Hxy as [->|[_ ->]]; [exact Hx|reflexivity].
Qed.

Lemma normalize_ticker_core (t : string) :
  normalize_ticker t
  = let l := List.filter (fun c => negb (Ascii.eqb c " "))
                         (map upper_char (strip_chars (chars t))) in
    match dict_get (text l) YF_TICKER_FIX with
    | Some fixed => fixed
    | None => text (dot_to_dash l)
    end.
Proof.
  unfold normalize_ticker, remove_spaces, upper, strip. rewrite !chars_text. reflexivity.
Qed.

Lemma fix_lookup (s : string) :
  dict_get s YF_TICKER_FIX
  = if String.eqb "BRK.B" s then Some "BRK-B"
    else if String.eqb "BF.B" s then Some "BF-B" else None.
Proof. reflexivity. Qed.

(** X17.  [normalize_ticker] is idempotent, so the second pass [main]
    makes over the tickers of the monthly panel changes none that the
    function produced. *)
Theorem normalize_ticker_idempotent (t : string) :
  normalize_ticker (normalize_ticker t) = normalize_ticker t.
Proof.
  rewrite (normalize_ticker_core t). cbv zeta.
  pose proof (tidy_core t) as Ht.
  set (l := List.filter _ _) in *. clearbody l.
  rewrite fix_lookup.
  destruct (String.eqb "BRK.B" (text l)); [reflexivity|].
  destruct (String.eqb "BF.B" (text l)); [reflexivity|].
  rewrite normalize_ticker_core, chars_text. cbv zeta.
  rewrite (tidy_fixed _ (tidy_dot_to_dash l Ht)), fix_lookup.
  destruct (String.eqb_spec "BRK.B" (text (dot_to_dash l))) as [E|_].
  { exfalso. apply (f_equal chars) in E. rewrite chars_text in E.
    pose proof (dot_to_dash_twice l) as H2. rewrite <- E in H2. discriminate. }
  destruct (String.eqb_spec "BF.B" (text (dot_to_dash l))) as [E|_].
  { exfalso. apply (f_equal chars) in E. rewrite chars_text in E.
    pose proof (dot_to_dash_twice l) as H2. rewrite <- E in H2. discriminate. }
  rewrite dot_to_dash_twice. reflexivity.
Qed.

Lemma insert_by_In {A} (key : A -> Z) (x y : A) (l : list A) :
  In y (insert_by key x l) <-> y = x \/ In y l.
Proof.
  induction l as [|z l IH]; simpl; [intuition congruence|].
  destruct (key x <=? key z); simpl; [intuition congruence|]. rewrite IH. tauto.
Qed.

Lemma sort_by_In {A} (key : A -> Z) (y : A) (l : list A) : In y (sort_by key l) <-> In y l.
Proof.
  unfold sort_by. induction l as [|x l IH]; simpl; [tauto|].
  rewrite insert_by_In, IH. intuition congruence.
Qed.

Lemma insert_by_StronglySorted {A} (key : A -> Z) (x : A) (l : list A) :
  StronglySorted (fun a b => key a <= key b) l ->
  StronglySorted (fun a b => key a <= key b) (insert_by key x l).
Proof.
  induction 1 as [|z l Hs IH Hz]; simpl; [repeat constructor|].
  destruct (Z.leb_spec (key x) (key z)) as [E|E].
  - constructor; [constructor; assumption|].
    constructor; [exact E|]. eapply Forall_impl; [exact Hz|]. intros w Hw. simpl in Hw. lia.
  - constructor; [exact IH|]. apply Forall_forall. intros w Hw.
    apply list_elem_of_In, insert_by_In in Hw. destruct Hw as [->|Hw]; [lia|].
    apply (proj1 (Forall_forall _ _) Hz). apply list_elem_of_In. exact Hw.
Qed.

Lemma sort_by_StronglySorted {A} (key : A -> Z) (l : list A) :
  StronglySorted (fun a b => key a <= key b) (sort_by key l).
Proof.
  unfold sort_by. induction l as [|x l IH]; simpl; [constructor|].
  apply insert_by_StronglySorted, IH.
Qed.

Lemma truthy_named (l : list string) : "" ∉ truthy l.
Proof.
  unfold truthy. intros H. apply list_elem_of_In, filter_In in H.
  destruct H as [_ H]. discriminate.
Qed.

Lemma normalize_twice (t : Z) : normalize (normalize t) = normalize t.
Proof.
  unfold normalize. pose proof day_ns_pos.
  rewrite <- Zminus_mod_idemp_l, Z.sub_diag, Z.mod_0_l by lia. lia.
Qed.

Lemma events_of_In (changes : list ChangeRow) (e : ChangeEvent) :
  In e (events_of changes) ->
  exists row, In row changes /\ e = _parse_added_removed row /\
    epoch_1990 <= date e /\ (added e <> [] \/ removed e <> []).
Proof.
  intros He. unfold events_of in He.
  apply sort_by_In, filter_In in He. destruct He as [He H90].
  apply filter_In in He. destruct He as [He Hne].
  apply in_map_iff in He. destruct He as (row & <- & Hrow).
  exists row. split; [exact Hrow|]. split; [reflexivity|].
  split; [apply Z.leb_le; exact H90|].
  destruct (added (_parse_added_removed row)) as [|a l]; [|left; discriminate].
  destruct (removed (_parse_added_removed row)) as [|b l]; [|right; discriminate].
  discriminate.
Qed.

(** X18.  The events [build_membership_timeline] keeps are in date
    order; each is dated 1990-01-01 or later, names at least one ticker,
    holds no empty ticker name and carries the date of a row of the
    change table. *)
Theorem events_of_kept (changes : list ChangeRow) :
  chronological (events_of changes) /\
  Forall (fun e =>
            epoch_1990 <= date e /\
            (added e <> [] \/ removed e <> []) /\
            ("" ∉ added e) /\ ("" ∉ removed e) /\
            exists row, In row changes /\ date e = Date row)
         (events_of changes).
Proof.
  split; [apply sort_by_chronological|].
  apply Forall_forall. intros e He. apply list_elem_of_In, events_of_In in He.
  destruct He as (row & Hrow & -> & H90 & Hne).
  split; [exact H90|]. split; [exact Hne|]. split; [apply truthy_named|].
  split; [apply truthy_named|]. exists row. split; [exact Hrow|reflexivity].
Qed.

Lemma frame_of_midnight (to_datetime : string -> option Z) (t : Table) :
  Forall (fun r => normalize (Date r) = Date r) (frame_of to_datetime t).
Proof.
  unfold frame_of. destruct (column_index _ "Date"); [|constructor].
  apply Forall_forall. intros r Hr. apply list_elem_of_In, in_flat_map in Hr.
  destruct Hr as (cells & _ & Hr).
  destruct (parse_date to_datetime _) as [d|] eqn:E; [|contradiction].
  destruct Hr as [<-|[]]. simpl. unfold parse_date in E.
  destruct (to_datetime _) as [z|]; [|discriminate]. injection E as <-.
  apply normalize_twice.
Qed.

Lemma extracted_rows_midnight (to_datetime : string -> option Z) (tables : list Table)
    (rows : list ChangeRow) :
  _extract_changes_table to_datetime tables = inr rows ->
  Forall (fun r => normalize (Date r) = Date r) rows.
Proof.
  intros H. unfold _extract_changes_table in H.
  destruct (List.filter is_candidate tables) as [|c cand]; [discriminate|].
  set (frames := List.filter _ (map (frame_of to_datetime) (c :: cand))) in H.
  assert (Forall (Forall (fun r => normalize (Date r) = Date r)) frames) as Hf.
  { apply Forall_forall. intros f Hin. apply list_elem_of_In, filter_In in Hin.
    destruct Hin as [Hin _]. apply in_map_iff in Hin. destruct Hin as (t & <- & _).
    apply frame_of_midnight. }
  destruct frames as [|f frames]; [discriminate|]. injection H as <-.
  apply Forall_forall. intros r Hr. apply list_elem_of_In, sort_by_In in Hr.
  change (In r (concat (f :: frames))) in Hr. apply in_concat in Hr.
  destruct Hr as (fr & Hfr & Hr).
  apply (proj1 (Forall_forall _ _) (proj1 (Forall_forall _ _) Hf fr
           (proj2 (list_elem_of_In _ _) Hfr))).
  apply list_elem_of_In. exact Hr.
Qed.

Lemma events_midnight (rows : list ChangeRow) :
  Forall (fun r => normalize (Date r) = Date r) rows ->
  Forall (fun e => normalize (date e) = date e) (events_of rows).
Proof.
  intros Hrows. apply Forall_forall. intros e He.
  apply list_elem_of_In, events_of_In in He.
  destruct He as (row & Hrow & -> & _). simpl.
  apply (proj1 (Forall_forall _ _) Hrows). apply list_elem_of_In. exact Hrow.
Qed.

(** X19.  When [_extract_changes_table] returns, its rows are in date
    order and every date is a midnight, and so is the date of every event
    read off them. *)
Theorem changes_table_sorted (to_datetime : string -> option Z) (tables : list Table)
    (rows : list ChangeRow) :
  _extract_changes_table to_datetime tables = inr rows ->
  StronglySorted (fun a b => Date a <= Date b) rows /\
  Forall (fun r => normalize (Date r) = Date r) rows /\
  Forall (fun e => normalize (date e) = date e) (events_of rows).
Proof.
  intros H. pose proof (extracted_rows_midnight _ _ _ H) as Hmid.
  split; [|split; [exact Hmid|apply events_midnight; exact Hmid]].
  unfold _extract_changes_table in H.
  destruct (List.filter is_candidate tables) as [|c cand]; [discriminate|].
  destruct (List.filter _ (map (frame_of to_datetime) (c :: cand))) as [|f frames];
    [discriminate|].
  injection H as <-. apply sort_by_StronglySorted.
Qed.

Lemma roll_forward_lookup_upto (by_date : gmap Z (list ChangeEvent)) (state : Z -> gset string)
    (d0 : Z) (n k i : nat) :
  (forall j : nat, (k <= j < k + n)%nat ->
     state (Z.of_nat (S j))
     = fold_left redo (default [] (by_date !! (d0 + Z.of_nat j * day_ns))) (state (Z.of_nat j))) ->
  (i < n)%nat ->
  roll_forward by_date (map (fun j => d0 + Z.of_nat j * day_ns) (seq k n)) (state (Z.of_nat k)) !! i
  = Some (d0 + Z.of_nat (k + i) * day_ns, state (Z.of_nat (S (k + i)))).
Proof.
  revert k i. induction n as [|n IH]; intros k i Hstep Hi; [lia|].
  simpl.
  assert (match by_date !! (d0 + Z.of_nat k * day_ns) with
          | Some evs => fold_left redo evs (state (Z.of_nat k))
          | None => state (Z.of_nat k)
          end = state (Z.of_nat (S k))) as ->.
  { rewrite Hstep by lia. destruct (by_date !! _); reflexivity. }
  destruct i as [|i]; simpl.
  - rewrite Nat.add_0_r. reflexivity.
  - rewrite IH; [|intros j Hj; apply Hstep; lia|lia].
    replace (S k + i)%nat with (k + S i)%nat by lia. reflexivity.
Qed.

Lemma normalize_le (t : Z) : normalize t <= t.
Proof. unfold normalize. pose proof (Z.mod_pos_bound t day_ns day_ns_pos). lia. Qed.

(** The days of the range and their number. *)
Lemma date_range_days (start end_ : Z) :
  day_index start <= day_index end_ ->
  date_range (normalize start) (normalize end_)
  = map (fun j => normalize start + Z.of_nat j * day_ns)
        (seq 0 (Z.to_nat (day_index end_ - day_index start) + 1)).
Proof.
  intros Hq. pose proof day_ns_pos as Hday. unfold date_range.
  rewrite (proj2 (Z.leb_le _ _)) by (rewrite !normalize_day_index; nia).
  assert ((normalize end_ - normalize start) / day_ns = day_index end_ - day_index start) as ->.
  { rewrite !normalize_day_index, <- Z.mul_sub_distr_l, Z.mul_comm, Z.div_mul by lia.
    reflexivity. }
  reflexivity.
Qed.

Section DayMembers.
Variables (events : list ChangeEvent) (start end_ : Z) (current : gset string).
Hypothesis Hchron : chronological events.
Hypothesis Hmid : Forall (fun e => normalize (date e) = date e) events.

Lemma by_date_window (q : Z) :
  q <= day_index end_ ->
  default [] (group_by_date events start end_ !! (day_ns * q))
  = List.filter (fun e => (q <=? day_index (date e)) && (day_index (date e) <? q + 1))
                (List.filter (fun e => start <=? date e) events).
Proof.
  intros Hq. rewrite group_by_date_lookup. apply filter_twice.
  intros e He. pose proof day_ns_pos as Hday.
  pose proof (proj1 (Forall_forall _ _) Hmid e (proj2 (list_elem_of_In _ _) He)) as Hm.
  simpl in Hm. rewrite normalize_day_index in *.
  destruct (Z.eqb_spec (day_ns * day_index (date e)) (day_ns * q)) as [Heq|Hne].
  - assert (day_index (date e) = q) as Hd by nia.
    assert (date e <= end_) as Hle.
    { pose proof (normalize_le end_) as Hn. rewrite normalize_day_index in Hn. nia. }
    rewrite (proj2 (Z.leb_le _ _) Hle), Hd, Z.leb_refl, (proj2 (Z.ltb_lt _ _)) by lia.
    rewrite !andb_true_r. reflexivity.
  - rewrite andb_false_r.
    destruct (Z.leb_spec q (day_index (date e))); [|rewrite andb_false_r; reflexivity].
    destruct (Z.ltb_spec (day_index (date e)) (q + 1)); [|rewrite andb_false_r; reflexivity].
    exfalso. apply Hne. f_equal. lia.
Qed.

Lemma replay_step_window (q : Z) :
  q <= day_index end_ ->
  replay_until events start current (q + 1)
  = fold_left redo (default [] (group_by_date events start end_ !! (day_ns * q)))
              (replay_until events start current q).
Proof.
  intros Hq. unfold replay_until. rewrite (by_date_window q Hq), <- fold_left_app. f_equal.
  apply (filter_window (fun e => day_index (date e))); [|lia].
  apply sorted_by_day, G_sorted, Hchron.
Qed.

(** The snapshot the day loop takes on each day of the range. *)
Lemma timeline_snapshots :
  day_index start <= day_index end_ ->
  exists snaps,
    timeline events current start end_ = daily_rows snaps /\
    length snaps = (Z.to_nat (day_index end_ - day_index start) + 1)%nat /\
    forall i, (i < length snaps)%nat ->
      snaps !! i = Some (day_ns * (day_index start + Z.of_nat i),
                         replay_until events start current (day_index start + Z.of_nat i + 1)).
Proof.
  intros Hq. pose proof day_ns_pos as Hday.
  set (q0 := day_index start) in *.
  set (N := (Z.to_nat (day_index end_ - q0) + 1)%nat).
  set (state := fun z : Z => replay_until events start current (q0 + z)).
  exists (roll_forward (group_by_date events start end_)
            (map (fun j => normalize start + Z.of_nat j * day_ns) (seq 0 N))
            (state (Z.of_nat 0))).
  split; [|split].
  - unfold timeline. rewrite (date_range_days _ _ Hq). fold q0 N.
    unfold state. simpl Z.of_nat. rewrite Z.add_0_r. unfold q0. rewrite replay_start.
    reflexivity.
  - rewrite roll_forward_length, length_map, length_seq. reflexivity.
  - intros i Hi. rewrite roll_forward_length, length_map, length_seq in Hi.
    rewrite (roll_forward_lookup_upto _ state (normalize start) N 0 i); [| |exact Hi].
    + unfold state. rewrite normalize_day_index. fold q0. f_equal. f_equal; [lia|].
      f_equal. lia.
    + intros j Hj. unfold state. rewrite normalize_day_index. fold q0.
      replace (day_ns * q0 + Z.of_nat j * day_ns) with (day_ns * (q0 + Z.of_nat j)) by lia.
      rewrite <- replay_step_window by (unfold N in Hj; lia). f_equal. lia.
Qed.

Lemma day_members (q : Z) :
  day_index start <= q <= day_index end_ ->
  members_on (timeline events current start end_) (day_ns * q)
  = replay_until events start current (q + 1).
Proof.
  intros Hq. pose proof day_ns_pos as Hday.
  destruct (timeline_snapshots ltac:(lia)) as (snaps & -> & Hlen & Hlook).
  apply set_eq. intros t. rewrite elem_of_members_on. split.
  - intros (cm & Hin & Ht). apply list_elem_of_In, list_elem_of_lookup in Hin.
    destruct Hin as (i & Hi).
    pose proof (lookup_lt_Some _ _ _ Hi) as HiN.
    rewrite (Hlook i HiN) in Hi. injection Hi as Hd <-.
    assert (day_index start + Z.of_nat i = q) as <- by nia. exact Ht.
  - intros Ht. exists (replay_until events start current (q + 1)). split; [|exact Ht].
    apply list_elem_of_In, list_elem_of_lookup.
    exists (Z.to_nat (q - day_index start)).
    rewrite Hlook by lia. f_equal. f_equal; [f_equal; lia|f_equal; lia].
Qed.
End DayMembers.

(** X20.  For events in date order dated at midnight, the tickers the
    timeline lists on a day between [start] and [end_] are the set
    rolled back to [start] with the events from [start] to that day
    applied again in order. *)
Theorem timeline_day_members (events : list ChangeEvent) (start end_ : Z)
    (current : gset string) (q : Z) :
  chronological events ->
  Forall (fun e => normalize (date e) = date e) events ->
  day_index start <= q <= day_index end_ ->
  members_on (timeline events current start end_) (day_ns * q)
  = replay_until events start current (q + 1).
Proof. intros Hc Hm Hq. apply day_members; assumption. Qed.

(** X26.  When the change table is extracted, whatever order its rows
    come in (numpy's sort leaves the order of rows of one date open), the
    tickers [build_membership_timeline] lists on any day between [start]
    and [end_] are the current set rolled back to [start] with the events
    kept from those rows, from [start] to that day, applied again in
    order. *)
Theorem build_timeline_day_members (to_datetime : string -> option Z)
    (current : list string) (tables : list Table) (rows changes : list ChangeRow)
    (start end_ q : Z) :
  _extract_changes_table to_datetime tables = inr rows ->
  Permutation rows changes ->
  day_index start <= q <= day_index end_ ->
  exists daily,
    build_membership_timeline (inr current) (inr changes) start end_ = inr daily /\
    members_on daily (day_ns * q)
    = replay_until (events_of changes) start (list_to_set current) (q + 1).
Proof.
  intros Hrows Hperm Hq.
  exists (timeline (events_of changes) (list_to_set current) start end_).
  split; [reflexivity|].
  apply day_members; [apply sort_by_chronological| |exact Hq].
  apply events_midnight. rewrite <- Hperm.
  apply (extracted_rows_midnight to_datetime tables rows Hrows).
Qed.

(** X21.  For events in date order dated at midnight, a day of the range
    after the first on which no event is dated lists the same tickers as
    the day before. *)
Theorem quiet_day_members (events : list ChangeEvent) (start end_ : Z)
    (current : gset string) (q : Z) :
  chronological events ->
  Forall (fun e => normalize (date e) = date e) events ->
  day_index start < q <= day_index end_ ->
  Forall (fun e => day_index (date e) <> q) events ->
  members_on (timeline events current start end_) (day_ns * q)
  = members_on (timeline events current start end_) (day_ns * (q - 1)).
Proof.
  intros Hc Hm Hq Hquiet.
  rewrite (day_members events start end_ current Hc Hm q) by lia.
  rewrite (day_members events start end_ current Hc Hm (q - 1)) by lia.
  replace (q - 1 + 1) with q by lia.
  rewrite (replay_step_window events start end_ current Hc Hm q) by lia.
  rewrite group_by_date_lookup.
  assert (List.filter (fun e => (start <=? date e) && (date e <=? end_)
                                && (normalize (date e) =? day_ns * q)) events = []) as ->;
    [|reflexivity].
  pose proof day_ns_pos as Hday. clear -Hquiet Hday.
  induction Hquiet as [|e l He _ IH]; simpl; [reflexivity|]. rewrite IH.
  rewrite normalize_day_index.
  destruct (Z.eqb_spec (day_ns * day_index (date e)) (day_ns * q)) as [Heq|_];
    [|rewrite andb_false_r; reflexivity].
  exfalso. apply He. nia.
Qed.

Section Unmentioned.
Variable t : string.

Lemma fold_undo_unmentioned (L : list ChangeEvent) (M : gset string) :
  Forall (fun e => (t ∉ added e) /\ (t ∉ removed e)) L ->
  (t ∈ fold_left undo L M <-> t ∈ M).
Proof.
  intros H. revert M. induction H as [|e L [Ha Hr] _ IH]; intros M; simpl; [tauto|].
  rewrite IH, elem_of_undo. tauto.
Qed.

Lemma fold_redo_unmentioned (L : list ChangeEvent) (M : gset string) :
  Forall (fun e => (t ∉ added e) /\ (t ∉ removed e)) L ->
  (t ∈ fold_left redo L M <-> t ∈ M).
Proof.
  intros H. revert M. induction H as [|e L [Ha Hr] _ IH]; intros M; simpl; [tauto|].
  rewrite IH, elem_of_redo. tauto.
Qed.

Lemma roll_forward_unmentioned (by_date : gmap Z (list ChangeEvent)) (days : list Z)
    (M : gset string) (d : Z) (cm : gset string) :
  (forall d evs, by_date !! d = Some evs -> Forall (fun e => (t ∉ added e) /\ (t ∉ removed e)) evs) ->
  In (d, cm) (roll_forward by_date days M) -> (t ∈ cm <-> t ∈ M).
Proof.
  intros Hby. revert M. induction days as [|d0 days IH]; intros M Hin; simpl in Hin; [contradiction|].
  assert (t ∈ match by_date !! d0 with
              | Some evs => fold_left redo evs M
              | None => M
              end <-> t ∈ M) as Hstep.
  { destruct (by_date !! d0) as [evs|] eqn:E; [|tauto].
    apply fold_redo_unmentioned. eapply Hby; eauto. }
  destruct Hin as [Heq|Hin].
  - injection Heq as _ <-. exact Hstep.
  - rewrite (IH _ Hin). exact Hstep.
Qed.
End Unmentioned.

Lemma roll_forward_days (by_date : gmap Z (list ChangeEvent)) (days : list Z) (M : gset string) :
  map fst (roll_forward by_date days M) = days.
Proof.
  revert M. induction days as [|d days IH]; intros M; simpl; [reflexivity|].
  rewrite IH. reflexivity.
Qed.

(** X22.  A ticker that no event adds or removes is listed on every day
    of the range if it is in the current set, and on no day if it is
    not. *)
Theorem unmentioned_ticker (events : list ChangeEvent) (start end_ : Z)
    (current : gset string) (t : string) (d : Z) :
  Forall (fun e => (t ∉ added e) /\ (t ∉ removed e)) events ->
  In d (date_range (normalize start) (normalize end_)) ->
  (t ∈ members_on (timeline events current start end_) d <-> t ∈ current).
Proof.
  intros Hun Hd. unfold timeline. rewrite elem_of_members_on.
  set (by_date := group_by_date events start end_).
  set (days := date_range (normalize start) (normalize end_)) in *.
  assert (forall d evs, by_date !! d = Some evs ->
            Forall (fun e => (t ∉ added e) /\ (t ∉ removed e)) evs) as Hby.
  { intros d' evs E. pose proof (group_by_date_lookup events start end_ d') as Hl.
    fold by_date in Hl. rewrite E in Hl. simpl in Hl. rewrite Hl.
    apply Forall_forall. intros e He. apply list_elem_of_In, filter_In in He.
    apply (proj1 (Forall_forall _ _) Hun). apply list_elem_of_In. tauto. }
  assert (t ∈ roll_back events start current <-> t ∈ current) as Hback.
  { unfold roll_back. apply fold_undo_unmentioned.
    apply Forall_forall. intros e He. apply list_elem_of_In, in_rev, filter_In in He.
    apply (proj1 (Forall_forall _ _) Hun). apply list_elem_of_In. tauto. }
  split.
  - intros (cm & Hin & Ht). apply Hback.
    apply (roll_forward_unmentioned t by_date days _ d cm Hby Hin). exact Ht.
  - intros Ht.
    assert (In d (map fst (roll_forward by_date days (roll_back events start current)))) as Hin
      by (rewrite roll_forward_days; exact Hd).
    apply in_map_iff in Hin. destruct Hin as ([d' cm] & Heq & Hin). simpl in Heq. subst d'.
    exists cm. split; [exact Hin|].
    apply (roll_forward_unmentioned t by_date days _ d cm Hby Hin). apply Hback. exact Ht.
Qed.

Lemma flat_map_bind {A B} (f : A -> list B) (l : list A) : flat_map f l = l ≫= f.
Proof. induction l as [|x l IH]; simpl; [reflexivity|]. rewrite IH. reflexivity. Qed.

Lemma date_range_NoDup (s e : Z) : NoDup (date_range s e).
Proof.
  unfold date_range. destruct (s <=? e); [|constructor].
  apply (NoDup_fmap_2_strong (fun i => s + Z.of_nat i * day_ns)); [|apply NoDup_seq].
  intros i j _ _ H. pose proof day_ns_pos. nia.
Qed.

Lemma NoDup_fst_eq {A B} (l : list (A * B)) (x y : A * B) :
  NoDup (map fst l) -> x ∈ l -> y ∈ l -> fst x = fst y -> x = y.
Proof.
  induction l as [|z l IH]; intros Hnd Hx Hy Hf; [inversion Hx|].
  simpl in Hnd. apply NoDup_cons in Hnd. destruct Hnd as [Hz Hnd].
  apply elem_of_cons in Hx, Hy.
  assert (forall w, w ∈ l -> fst w <> fst z) as Hne.
  { intros w Hw E. apply Hz. rewrite <- E. apply list_elem_of_In, in_map, list_elem_of_In, Hw. }
  destruct Hx as [->|Hx], Hy as [->|Hy]; [reflexivity| | |apply IH; assumption].
  - exfalso. apply (Hne y Hy). congruence.
  - exfalso. apply (Hne x Hx). congruence.
Qed.

(** X23.  The daily frame lists no (day, ticker) pair twice, every row
    has [in_index] 1 and a day of the range, and the frame is empty when
    [start] falls on a later day than [end_]. *)
Theorem timeline_rows (events : list ChangeEvent) (start end_ : Z) (current : gset string) :
  NoDup (timeline events current start end_) /\
  Forall (fun row => snd row = 1 /\
                     In (fst (fst row)) (date_range (normalize start) (normalize end_)))
         (timeline events current start end_) /\
  (normalize end_ < normalize start -> timeline events current start end_ = []).
Proof.
  unfold timeline.
  set (by_date := group_by_date events start end_).
  set (days := date_range (normalize start) (normalize end_)).
  set (snaps := roll_forward by_date days (roll_back events start current)).
  assert (map fst snaps = days) as Hdays by apply roll_forward_days.
  assert (NoDup (map fst snaps)) as Hnd by (rewrite Hdays; apply date_range_NoDup).
  split; [|split].
  - unfold daily_rows. rewrite flat_map_bind. apply NoDup_bind.
    + intros x1 x2 y H1 H2 Hy1 Hy2. apply (NoDup_fst_eq snaps); try assumption.
      apply list_elem_of_In, in_map_iff in Hy1, Hy2.
      destruct Hy1 as (t1 & <- & _), Hy2 as (t2 & E & _). congruence.
    + intros x _. apply (NoDup_fmap_2_strong (fun t => (x.1, t, 1))); [|apply NoDup_elements].
      intros a b _ _ E. congruence.
    + eapply NoDup_fmap_1. exact Hnd.
  - apply Forall_forall. intros row Hrow. unfold daily_rows in Hrow.
    apply list_elem_of_In, in_flat_map in Hrow. destruct Hrow as (x & Hx & Hrow).
    apply in_map_iff in Hrow. destruct Hrow as (t & <- & _). simpl.
    split; [reflexivity|]. fold days. rewrite <- Hdays. apply in_map. exact Hx.
  - intros Hlt. unfold snaps, days, date_range.
    rewrite (proj2 (Z.leb_gt _ _) Hlt). reflexivity.
Qed.

Lemma key_eqb_eq (a b : Z * string) : key_eqb a b = true <-> a = b.
Proof.
  unfold key_eqb. destruct a as [m t], b as [m' t']. simpl.
  rewrite andb_true_iff, Z.eqb_eq, String.eqb_eq. split; [intros [-> ->]; reflexivity|].
  intros [= -> ->]. auto.
Qed.

Lemma insert_key_In (k x : Z * string) (l : list (Z * string)) :
  In x (insert_key k l) <-> x = k \/ In x l.
Proof.
  induction l as [|y l IH]; simpl; [intuition congruence|].
  destruct (key_eqb k y) eqn:E.
  - apply key_eqb_eq in E. subst y. simpl. intuition congruence.
  - destruct (key_leb k y); simpl; [intuition congruence|]. rewrite IH. tauto.
Qed.

Lemma group_keys_In (month_end : Z -> Z) (rows : list (Z * string * Z)) (k : Z * string) :
  In k (group_keys month_end rows) <-> exists r, In r rows /\ group_key month_end r = k.
Proof.
  unfold group_keys. induction rows as [|r rows IH]; simpl.
  - split; [contradiction|]. intros (r & [] & _).
  - rewrite insert_key_In, IH. split.
    + intros [->|(r' & Hr & Hk)]; [exists r; auto|exists r'; auto].
    + intros (r' & [->|Hr] & Hk); [left; congruence|right; eauto].
Qed.

Lemma max_of_ones (l : list Z) : l <> [] -> Forall (fun v => v = 1) l -> max_of l = Some 1.
Proof.
  intros Hne H. destruct H as [|v l -> H]; [contradiction|]. simpl. f_equal.
  clear Hne. induction H as [|w l -> _ IH]; simpl; [reflexivity|exact IH].
Qed.

(** X24.  The monthly panel of a timeline holds a row for a month and a
    ticker exactly when the timeline lists the ticker on some day of that
    month, and its [in_index] is 1: one day of membership makes a member
    for the month. *)
Theorem monthly_membership (month_end : Z -> Z) (events : list ChangeEvent)
    (start end_ : Z) (current : gset string) (m : Z) (t : string) (v : Z) :
  In (m, t, v) (monthly_panel_from_daily month_end (timeline events current start end_))
  <-> v = 1 /\
      exists d, month_end d = m /\ t ∈ members_on (timeline events current start end_) d.
Proof.
  set (daily := timeline events current start end_).
  assert (Forall (fun row => snd row = 1) daily) as Hone.
  { unfold daily, timeline, daily_rows. apply Forall_forall. intros row Hrow.
    apply list_elem_of_In, in_flat_map in Hrow. destruct Hrow as (x & _ & Hrow).
    apply in_map_iff in Hrow. destruct Hrow as (t' & <- & _). reflexivity. }
  assert (forall d, t ∈ members_on daily d <-> In (d, t, 1) daily) as Hmem.
  { intros d. unfold members_on. rewrite elem_of_list_to_set, list_elem_of_In, in_map_iff. split.
    - intros ([[d' t'] one] & Ht & Hin). simpl in Ht. subst t'.
      apply filter_In in Hin. destruct Hin as [Hin Hd]. simpl in Hd. apply Z.eqb_eq in Hd.
      subst d'. pose proof (proj1 (Forall_forall _ _) Hone _ (proj2 (list_elem_of_In _ _) Hin)) as H1.
      simpl in H1. subst one. exact Hin.
    - intros Hin. exists (d, t, 1). split; [reflexivity|]. apply filter_In.
      split; [exact Hin|simpl; apply Z.eqb_refl]. }
  assert (forall k, Forall (fun v => v = 1) (group_values month_end k daily)) as Hvals.
  { intros k. unfold group_values. apply Forall_forall. intros x Hx.
    apply list_elem_of_In, in_map_iff in Hx. destruct Hx as (r & <- & Hr).
    apply filter_In in Hr. destruct Hr as [Hr _].
    apply (proj1 (Forall_forall _ _) Hone r). apply list_elem_of_In. exact Hr. }
  unfold monthly_panel_from_daily. rewrite in_flat_map. split.
  - intros (k & Hk & Hrow).
    apply group_keys_In in Hk. destruct Hk as (r & Hr & Hkey).
    assert (group_values month_end k daily <> []) as Hne.
    { unfold group_values. intros E. apply map_eq_nil in E.
      assert (In r (List.filter (fun r => key_eqb (group_key month_end r) k) daily)) as Hin
        by (apply filter_In; split; [exact Hr|apply key_eqb_eq; exact Hkey]).
      rewrite E in Hin. contradiction. }
    rewrite (max_of_ones _ Hne (Hvals k)) in Hrow. destruct Hrow as [Heq|[]].
    injection Heq as Hm Ht Hv. split; [symmetry; exact Hv|].
    destruct r as [[d t'] one]. unfold group_key in Hkey. simpl in Hkey. subst k.
    simpl in Hm, Ht. subst m t'. exists d. split; [reflexivity|]. apply Hmem.
    pose proof (proj1 (Forall_forall _ _) Hone _ (proj2 (list_elem_of_In _ _) Hr)) as H1.
    simpl in H1. subst one. exact Hr.
  - intros (-> & d & <- & Ht). apply Hmem in Ht.
    exists (month_end d, t). split.
    + apply group_keys_In. exists (d, t, 1). split; [exact Ht|reflexivity].
    + assert (group_values month_end (month_end d, t) daily <> []) as Hne.
      { unfold group_values. intros E. apply map_eq_nil in E.
        assert (In (d, t, 1) (List.filter
                   (fun r => key_eqb (group_key month_end r) (month_end d, t)) daily)) as Hin
          by (apply filter_In; split; [exact Ht|apply key_eqb_eq; reflexivity]).
        rewrite E in Hin. contradiction. }
      rewrite (max_of_ones _ Hne (Hvals _)). left. reflexivity.
Qed.

Lemma changes_table_sorted_witness :
  _extract_changes_table to_datetime_ex page_ex = inr rows_ex /\
  StronglySorted (fun a b => Date a <= Date b) rows_ex /\
  Forall (fun r => normalize (Date r) = Date r) rows_ex /\
  Forall (fun e => normalize (date e) = date e) (events_of rows_ex).
Proof.
  assert (_extract_changes_table to_datetime_ex page_ex = inr rows_ex) as H
    by (vm_compute; reflexivity).
  split; [exact H|]. apply (changes_table_sorted to_datetime_ex page_ex rows_ex H).
Defined.

(** The event read off that row. *)
Example events_of_page : events_of rows_ex = [swap_ex].
Proof. vm_compute. reflexivity. Qed.

Lemma timeline_day_members_witness :
  chronological [swap_ex] /\
  Forall (fun e => normalize (date e) = date e) [swap_ex] /\
  day_index jan1 <= 18263 <= day_index jan3 /\
  members_on (timeline [swap_ex] {["A"; "B"]} jan1 jan3) (day_ns * 18263)
  = replay_until [swap_ex] jan1 {["A"; "B"]} (18263 + 1).
Proof.
  assert (chronological [swap_ex]) as H1 by (repeat constructor).
  assert (Forall (fun e => normalize (date e) = date e) [swap_ex]) as H2
    by (repeat constructor).
  assert (day_index jan1 <= 18263 <= day_index jan3) as H3 by (vm_compute; split; discriminate).
  split; [exact H1|]. split; [exact H2|]. split; [exact H3|].
  apply (timeline_day_members [swap_ex] jan1 jan3 {["A"; "B"]} 18263 H1 H2 H3).
Defined.

Lemma quiet_day_members_witness :
  chronological [swap_ex] /\
  Forall (fun e => normalize (date e) = date e) [swap_ex] /\
  day_index jan1 < 18264 <= day_index jan3 /\
  Forall (fun e => day_index (date e) <> 18264) [swap_ex] /\
  members_on (timeline [swap_ex] {["A"; "B"]} jan1 jan3) (day_ns * 18264)
  = members_on (timeline [swap_ex] {["A"; "B"]} jan1 jan3) (day_ns * (18264 - 1)).
Proof.
  assert (chronological [swap_ex]) as H1 by (repeat constructor).
  assert (Forall (fun e => normalize (date e) = date e) [swap_ex]) as H2
    by (repeat constructor).
  assert (day_index jan1 < 18264 <= day_index jan3) as H3
    by (vm_compute; split; [reflexivity|discriminate]).
  assert (Forall (fun e => day_index (date e) <> 18264) [swap_ex]) as H4
    by (repeat constructor; vm_compute; discriminate).
  split; [exact H1|]. split; [exact H2|]. split; [exact H3|]. split; [exact H4|].
  apply (quiet_day_members [swap_ex] jan1 jan3 {["A"; "B"]} 18264 H1 H2 H3 H4).
Defined.

Lemma unmentioned_ticker_witness :
  Forall (fun e => ("A" ∉ added e) /\ ("A" ∉ removed e)) [swap_ex] /\
  In jan2 (date_range (normalize jan1) (normalize jan3)) /\
  ("A" ∈ members_on (timeline [swap_ex] {["A"; "B"]} jan1 jan3) jan2 <-> "A" ∈ ({["A"; "B"]} : gset string)).
Proof.
  assert (Forall (fun e => ("A" ∉ added e) /\ ("A" ∉ removed e)) [swap_ex]) as H1.
  { repeat constructor; intros H; apply list_elem_of_In in H; simpl in H;
      destruct H as [H|[]]; discriminate. }
  assert (In jan2 (date_range (normalize jan1) (normalize jan3))) as H2
    by (vm_compute; right; left; reflexivity).
  split; [exact H1|]. split; [exact H2|].
  apply (unmentioned_ticker [swap_ex] jan1 jan3 {["A"; "B"]} "A" jan2 H1 H2).
Defined.

Lemma build_timeline_day_members_witness :
  _extract_changes_table to_datetime_ex page_ex = inr rows_ex /\
  Permutation rows_ex rows_ex /\
  day_index jan1 <= 18263 <= day_index jan3 /\
  exists daily,
    build_membership_timeline (inr ["A"; "B"]) (inr rows_ex) jan1 jan3 = inr daily /\
    members_on daily (day_ns * 18263)
    = replay_until (events_of rows_ex) jan1 (list_to_set ["A"; "B"]) (18263 + 1).
Proof.
  assert (_extract_changes_table to_datetime_ex page_ex = inr rows_ex) as H
    by (vm_compute; reflexivity).
  assert (Permutation rows_ex rows_ex) as Hp by reflexivity.
  assert (day_index jan1 <= 18263 <= day_index jan3) as Hq by (vm_compute; split; discriminate).
  split; [exact H|]. split; [exact Hp|]. split; [exact Hq|].
  apply (build_timeline_day_members to_datetime_ex ["A"; "B"] page_ex rows_ex rows_ex
           jan1 jan3 18263 H Hp Hq).
Defined.

End TimelineFacts.
